(** * LL(1) grammar analysis and the JSON recursive-descent parser

    A shallow embedding of [ex1/symbols.py], [ex1/grammar.py],
    [ex1/grammar_with_extra_checks.py] and [ex1/parser.py].

    Python strings are [string], tuples of symbols are [list string], Python
    sets are [gset], dictionaries are [gmap]; a raised exception is a
    constructor of the result type.  The [while changing] loops run on a
    fuel that is computed from the arguments and proved sufficient. *)

From stdpp Require Import gmap strings list fin_maps.
From Stdlib Require Import ZArith.

(** ** Exceptions and results *)

Inductive exn : Type :=
| IndexError
| KeyError
| AttributeError
| SyntaxError (msg : string).

Inductive res (A : Type) : Type :=
| Ok (a : A)
| Raise (e : exn)
| OutOfFuel.
Arguments Ok {A} a.
Arguments Raise {A} e.
Arguments OutOfFuel {A}.

#[global] Instance res_ret : MRet res := λ A a, Ok a.
#[global] Instance res_bind : MBind res := λ A B f m,
  match m with
  | Ok a => f a
  | Raise e => Raise e
  | OutOfFuel => OutOfFuel
  end.

(** [for a in l: s = f(s, a)] where [f] may raise. *)
Fixpoint foldM {A S : Type} (f : S → A → res S) (s : S) (l : list A) : res S :=
  match l with
  | [] => Ok s
  | a :: l' => s' ← f s a; foldM f s' l'
  end.

(** [changing = True; while changing: changing = False; <pass>], the pass
    returning the new state together with the final value of [changing]. *)
Fixpoint while_changing {S : Type} (fuel : nat) (pass : S → res (S * bool))
    (s : S) : res S :=
  match fuel with
  | O => OutOfFuel
  | S fuel' =>
      '(s', changing) ← pass s;
      if changing : bool then while_changing fuel' pass s' else Ok s'
  end.

(** [l[i]] for a non-negative index. *)
Definition index {A : Type} (l : list A) (i : nat) : res A :=
  match l !! i with
  | Some a => Ok a
  | None => Raise IndexError
  end.

(** [d[k]] *)
Definition dict_get `{Countable K} {V : Type} (d : gmap K V) (k : K) : res V :=
  match d !! k with
  | Some v => Ok v
  | None => Raise KeyError
  end.

(** ** symbols.py *)

Module Symbols.
Local Open Scope string_scope.

Definition EOF := "EOF".

Definition LP := "LP".
Definition RP := "RP".
Definition ASSIGN := "ASSIGN".
Definition PLUS := "PLUS".
Definition IF := "IF".
Definition ELSE := "ELSE".
Definition ID := "ID".

Definition P := "P".
Definition S := "S".
Definition E := "E".
Definition T := "T".
Definition EP := "EP".

Definition LB := "LB".
Definition RB := "RB".
Definition LS := "LS".
Definition RS := "RS".
Definition COMMA := "COMMA".
Definition COLON := "COLON".
Definition INT := "INT".
Definition STRING := "STRING".

Definition obj := "obj".
Definition members := "members".
Definition keyvalue := "keyvalue".
Definition value := "value".

Definition obj_right := "obj_right".
Definition members_right := "members_right".

Definition obj_right_set := "obj_right_set".
Definition obj_right_arr := "obj_right_arr".
Definition members_set := "members_set".
Definition members_arr := "members_arr".
Definition members_right_set := "members_right_set".
Definition members_right_arr := "members_right_arr".

End Symbols.

(** ** grammar.py and grammar_with_extra_checks.py *)

Module Grammar.
Import Symbols.

(** A rule is the pair [(head, body)]; a grammar is a list of rules. *)
Abbreviation rule := (string * list string)%type.
Abbreviation sets := (gmap string (gset string)).

Definition grammar_recitation : list rule := [
  (S, [ID; ASSIGN; E]);
  (S, [IF; LP; E; RP; S; ELSE; S]);
  (E, [T; EP]);
  (T, [ID]);
  (T, [LP; E; RP]);
  (EP, []);
  (EP, [PLUS; E])
].

(** *** calculate_nullable *)

Definition nullable_epsilon (nullable : gset string) (r : rule) : gset string :=
  let '(head, body) := r in
  if decide (body = []) then {[head]} ∪ nullable else nullable.

Definition nullable_step (st : gset string * bool) (r : rule)
    : gset string * bool :=
  let '(nullable, changing) := st in
  let '(head, body) := r in
  if decide (list_to_set body ⊆ nullable ∧ head ∉ nullable)
  then ({[head]} ∪ nullable, true)
  else (nullable, changing).

Definition nullable_pass (grammar : list rule) (nullable : gset string)
    : res (gset string * bool) :=
  Ok (foldl nullable_step (nullable, false) grammar).

Definition calculate_nullable (terminals nonterminals : gset string)
    (grammar : list rule) : res (gset string) :=
  let nullable := foldl nullable_epsilon ∅ grammar in
  while_changing (Datatypes.S (length grammar)) (nullable_pass grammar) nullable.

(** *** is_nullable *)

Fixpoint is_nullable (token_stream : list string) (nullables : gset string)
    : bool :=
  match token_stream with
  | [] => true
  | token :: rest =>
      if decide (token ∉ nullables) then false else is_nullable rest nullables
  end.

(** The three item loops of the module,
    [for item in src: if item not in d[k]: d[k].add(item); changing = True],
    where [src] is the set the loop iterates over.  [d[k]] is looked up at
    every item; no item is added when [src] is [d[k]] itself. *)
Definition add_item (k : string) (st : sets * bool) (item : string)
    : res (sets * bool) :=
  let '(d, changing) := st in
  tgt ← dict_get d k;
  if decide (item ∉ tgt)
  then Ok (<[k := {[item]} ∪ tgt]> d, true)
  else Ok (d, changing).

Definition add_all (src : gset string) (k : string) (st : sets * bool)
    : res (sets * bool) :=
  foldM (add_item k) st (elements src).

(** *** calculate_first *)

Definition first_init (terminals nonterminals : gset string) : sets :=
  let first := set_fold (λ t d, <[t := {[t]}]> d) (∅ : sets) terminals in
  set_fold (λ a d, <[a := ∅]> d) first nonterminals.

Definition first_at (nullable : gset string) (head : string)
    (body : list string) (st : sets * bool) (i : nat) : res (sets * bool) :=
  if is_nullable (take i body) nullable then
    X ← index body i;
    src ← dict_get st.1 X;
    add_all src head st
  else Ok st.

Definition first_rule (nullable : gset string) (st : sets * bool) (r : rule)
    : res (sets * bool) :=
  let '(head, body) := r in
  foldM (first_at nullable head body) st (seq 0 (length body)).

Definition first_pass (grammar : list rule) (nullable : gset string)
    (first : sets) : res (sets * bool) :=
  foldM (first_rule nullable) (first, false) grammar.

Definition calculate_first (terminals nonterminals : gset string)
    (grammar : list rule) (nullable : gset string) : res sets :=
  let first := first_init terminals nonterminals in
  while_changing
    (Datatypes.S (size (terminals ∪ nonterminals) * size terminals))
    (first_pass grammar nullable) first.

(** *** calculate_follow *)

Definition follow_init (nonterminals : gset string) : sets :=
  set_fold (λ a d, <[a := ∅]> d) (∅ : sets) nonterminals.

(** First inner loop: add Follow(head) to Follow(body[i]). *)
Definition follow_at (terminals nullable : gset string) (head : string)
    (body : list string) (st : sets * bool) (i : nat) : res (sets * bool) :=
  X ← index body i;
  if decide (X ∈ terminals) then Ok st
  else if is_nullable (drop (i + 1) body) nullable then
    src ← dict_get st.1 head;
    add_all src X st
  else Ok st.

(** Second inner loop: add First(body[j]) to Follow(body[i]);
    [body[i+1:j]] is [take (j - (i + 1)) (drop (i + 1) body)]. *)
Definition follow_between (nullable : gset string) (first : sets)
    (body : list string) (i : nat) (st : sets * bool) (j : nat)
    : res (sets * bool) :=
  if is_nullable (take (j - (i + 1)) (drop (i + 1) body)) nullable then
    Y ← index body j;
    src ← dict_get first Y;
    X ← index body i;
    add_all src X st
  else Ok st.

Definition follow_from (terminals nullable : gset string) (first : sets)
    (body : list string) (st : sets * bool) (i : nat) : res (sets * bool) :=
  X ← index body i;
  if decide (X ∈ terminals) then Ok st
  else foldM (follow_between nullable first body i) st
         (seq (i + 1) (length body - (i + 1))).

Definition follow_rule (terminals nullable : gset string) (first : sets)
    (st : sets * bool) (r : rule) : res (sets * bool) :=
  let '(head, body) := r in
  st ← foldM (follow_at terminals nullable head body) st (seq 0 (length body));
  foldM (follow_from terminals nullable first body) st
    (seq 0 (length body - 1)).

Definition follow_pass (terminals : gset string) (grammar : list rule)
    (nullable : gset string) (first : sets) (follow : sets)
    : res (sets * bool) :=
  foldM (follow_rule terminals nullable first) (follow, false) grammar.

Definition calculate_follow (terminals nonterminals : gset string)
    (grammar : list rule) (nullable : gset string) (first : sets) : res sets :=
  let follow := follow_init nonterminals in
  r0 ← index grammar 0;
  let start_nonterminal := r0.1 in
  let follow := <[start_nonterminal := {[EOF]}]> follow in
  while_changing
    (Datatypes.S (Datatypes.S (size nonterminals) * Datatypes.S (size terminals)))
    (follow_pass terminals grammar nullable first) follow.

(** *** calculate_select *)

(** The walk over a non-empty body, with its [break]; [acc] is
    [select[head, body]]. *)
Fixpoint select_walk (nullable : gset string) (first : sets)
    (items : list string) (acc : gset string) : res (gset string) :=
  match items with
  | [] => Ok acc
  | item :: rest =>
      src ← dict_get first item;
      let acc := acc ∪ src in
      if negb (is_nullable [item] nullable) then Ok acc
      else select_walk nullable first rest acc
  end.

Definition select_rule (nullable : gset string) (first follow : sets)
    (select : gmap rule (gset string)) (r : rule)
    : res (gmap rule (gset string)) :=
  let '(head, body) := r in
  let acc : gset string := ∅ in
  acc ← (if decide (body ≠ []) then select_walk nullable first body acc
         else Ok acc);
  acc ← (if is_nullable body nullable then
           src ← dict_get follow head; Ok (acc ∪ src)
         else Ok acc);
  Ok (<[(head, body) := acc]> select).

Definition calculate_select (terminals nonterminals : gset string)
    (grammar : list rule) (nullable : gset string) (first follow : sets)
    : res (gmap rule (gset string)) :=
  foldM (select_rule nullable first follow) ∅ grammar.

(** *** find_terminals_and_nonterminals *)

Definition find_step (st : gset string * gset string) (r : rule)
    : gset string * gset string :=
  let '(symbols, nonterminals) := st in
  let '(head, body) := r in
  (symbols ∪ list_to_set body, {[head]} ∪ nonterminals).

Definition find_terminals_and_nonterminals (grammar : list rule)
    : gset string * gset string :=
  let '(symbols, nonterminals) := foldl find_step (∅, ∅) grammar in
  let terminals := symbols ∖ nonterminals in
  (terminals, nonterminals).

(** *** is_LL1 (and the same scan at the end of analyze_grammar) *)

Definition conflict_at (grammar : list rule) (select : gmap rule (gset string))
    (i : nat) (ll1 : bool) (j : nat) : res bool :=
  r1 ← index grammar i;
  r2 ← index grammar j;
  if decide (r1.1 = r2.1) then
    s1 ← dict_get select r1;
    s2 ← dict_get select r2;
    if decide (0 < size (s1 ∩ s2)) then Ok false else Ok ll1
  else Ok ll1.

Definition conflict_scan (grammar : list rule)
    (select : gmap rule (gset string)) : res bool :=
  let n := length grammar in
  foldM (λ ll1 i,
           foldM (conflict_at grammar select i) ll1 (seq (i + 1) (n - (i + 1))))
        true (seq 0 n).

(** The analysis that [is_LL1] and [analyze_grammar] both start with. *)
Definition analysis (grammar : list rule)
    : res (gset string * sets * sets * gmap rule (gset string)) :=
  let '(terminals, nonterminals) := find_terminals_and_nonterminals grammar in
  nullable ← calculate_nullable terminals nonterminals grammar;
  first ← calculate_first terminals nonterminals grammar nullable;
  follow ← calculate_follow terminals nonterminals grammar nullable first;
  select ← calculate_select terminals nonterminals grammar nullable first follow;
  Ok (nullable, first, follow, select).

Definition is_LL1 (grammar : list rule) : res bool :=
  '(_, _, _, select) ← analysis grammar;
  ll1 ← conflict_scan grammar select;
  if ll1 : bool then Ok true else Ok false.

Definition grammar_json_4a : list rule := [
  (obj, [LB; RB]);
  (obj, [LB; members; RB]);
  (members, [keyvalue]);
  (members, [members; COMMA; members]);
  (keyvalue, [STRING; COLON; value]);
  (value, [STRING]);
  (value, [INT]);
  (value, [obj])
].

Definition grammar_json_4b : list rule := [
  (obj, [LB; obj_right]);
  (obj_right, [RB]);
  (obj_right, [members; RB]);
  (members, [keyvalue; members_right]);
  (members_right, [COMMA; members]);
  (members_right, []);
  (keyvalue, [STRING; COLON; value]);
  (value, [STRING]);
  (value, [INT]);
  (value, [obj])
].

(** [grammar_json_6] of grammar.py. *)
Definition grammar_json_6 : list rule := [
  (obj, [LB; obj_right_set]);
  (obj_right_set, [RB]);
  (obj_right_set, [members_set; RB]);
  (obj, [LS; obj_right_arr]);
  (obj_right_arr, [RS]);
  (obj_right_arr, [members_arr; RS]);
  (members_set, [keyvalue; members_right_set]);
  (members_right_set, [COMMA; members_set]);
  (members_right_set, []);
  (members_arr, [keyvalue; members_right_arr]);
  (members_right_arr, [COMMA; members_arr]);
  (members_right_arr, []);
  (keyvalue, [STRING; COLON; value]);
  (value, [STRING]);
  (value, [INT]);
  (value, [obj])
].

End Grammar.

(** ** parser.py *)

Module Parser.
Import Symbols.
Local Open Scope string_scope.

(** The values the lexer attaches to tokens. *)
Inductive pyval : Type :=
| VStr (s : string)
| VInt (z : Z).

Abbreviation token := (string * pyval)%type.

(** The fields of a [Parser] object; [t] is absent until the first
    [advance] has assigned it. *)
Record parser : Type := mkParser {
  tokens : list token;
  pos : Z;
  t : option string;
}.

(** What a method call does: return a value, or raise, in both cases leaving
    the object in some state; or run out of fuel.  The fuel is the room for
    nested calls: a run that uses it up is one that CPython stops with
    [RuntimeError] (maximum recursion depth exceeded), which the exceptions
    above do not include. *)
Inductive outcome (A : Type) : Type :=
| Return (a : A) (self : parser)
| Raised (e : exn) (self : parser)
| Diverged.
Arguments Return {A} a self.
Arguments Raised {A} e self.
Arguments Diverged {A}.

Definition bindP {A B : Type} (m : parser → outcome A)
    (f : A → parser → outcome B) : parser → outcome B :=
  λ self,
    match m self with
    | Return a self' => f a self'
    | Raised e self' => Raised e self'
    | Diverged => Diverged
    end.

Notation "x ←ₚ m ; k" := (bindP m (λ x, k))
  (at level 20, m at level 100, k at level 200, right associativity,
   format "x  ←ₚ  m ;  '/' k").

Definition retP {A : Type} (a : A) : parser → outcome A := Return a.
Definition raiseP {A : Type} (e : exn) : parser → outcome A := Raised e.

(** [l[i]] for a Python integer: negative indices count from the end. *)
Definition py_index {A : Type} (l : list A) (i : Z) : option A :=
  if decide (0 ≤ i)%Z then l !! Z.to_nat i
  else if decide (- Z.of_nat (length l) ≤ i)%Z
       then l !! Z.to_nat (Z.of_nat (length l) + i)
       else None.

(** [self.t] *)
Definition get_t : parser → outcome string :=
  λ self,
    match t self with
    | Some tk => Return tk self
    | None => Raised AttributeError self
    end.

Definition advance : parser → outcome pyval :=
  λ self,
    let value :=
      if decide (pos self < Z.of_nat (length (tokens self)))%Z
      then snd <$> py_index (tokens self) (pos self)
      else Some (VStr EOF) in
    match value with
    | None => Raised IndexError self
    | Some value =>
        let self := mkParser (tokens self) (pos self + 1) (t self) in
        let t' :=
          if decide (pos self < Z.of_nat (length (tokens self)))%Z
          then fst <$> py_index (tokens self) (pos self)
          else Some EOF in
        match t' with
        | None => Raised IndexError self
        | Some t' => Return value (mkParser (tokens self) (pos self) (Some t'))
        end
    end.

(** [Parser.__init__] *)
Definition Parser_init (tokens : list token) : outcome () :=
  (_ ←ₚ advance; retP ()) (mkParser tokens (-1) None).

(** [Parser.match]; its [print] of the matched token is not modelled. *)
Definition match_ (terminal : string) : parser → outcome pyval :=
  tk ←ₚ get_t;
  if decide (tk = terminal) then
    value ←ₚ advance;
    retP value
  else
    tk ←ₚ get_t;
    raiseP (SyntaxError
      ("Syntax error: expected " +:+ terminal +:+ ", found " +:+ tk)).

(** A parse tree [(symbol, (c1, ..., cn))]: each child is the value of a
    matched token or a nested tree. *)
#[warnings="-register-all"]
Inductive tree : Type :=
| Leaf (v : pyval)
| Node (symbol : string) (children : list tree).

Definition no_rule {A : Type} : parser → outcome A :=
  tk ←ₚ get_t;
  raiseP (SyntaxError ("Syntax error: no rule for token: " +:+ tk)).

(** The [parse_<nonterminal>] methods of [JsonParser]; every call spends one
    unit of fuel. *)
Fixpoint parse_keyvalue (fuel : nat) : parser → outcome tree :=
  match fuel with
  | O => λ _, Diverged
  | Datatypes.S fuel =>
      tk ←ₚ get_t;
      if decide (tk ∈ [STRING]) then
        c1 ←ₚ match_ STRING;
        c2 ←ₚ match_ COLON;
        c3 ←ₚ parse_value fuel;
        retP (Node keyvalue [Leaf c1; Leaf c2; c3])
      else no_rule
  end
with parse_obj (fuel : nat) : parser → outcome tree :=
  match fuel with
  | O => λ _, Diverged
  | Datatypes.S fuel =>
      tk ←ₚ get_t;
      if decide (tk ∈ [LB]) then
        c1 ←ₚ match_ LB;
        c2 ←ₚ parse_obj_right_set fuel;
        retP (Node obj [Leaf c1; c2])
      else if decide (tk ∈ [LS]) then
        c1 ←ₚ match_ LS;
        c2 ←ₚ parse_obj_right_arr fuel;
        retP (Node obj [Leaf c1; c2])
      else no_rule
  end
with parse_obj_right_set (fuel : nat) : parser → outcome tree :=
  match fuel with
  | O => λ _, Diverged
  | Datatypes.S fuel =>
      tk ←ₚ get_t;
      if decide (tk ∈ [RB]) then
        c1 ←ₚ match_ RB;
        retP (Node obj_right_set [Leaf c1])
      else if decide (tk ∈ [STRING]) then
        c1 ←ₚ parse_members_set fuel;
        c2 ←ₚ match_ RB;
        retP (Node obj_right_set [c1; Leaf c2])
      else no_rule
  end
with parse_obj_right_arr (fuel : nat) : parser → outcome tree :=
  match fuel with
  | O => λ _, Diverged
  | Datatypes.S fuel =>
      tk ←ₚ get_t;
      if decide (tk ∈ [RS]) then
        c1 ←ₚ match_ RS;
        retP (Node obj_right_arr [Leaf c1])
      else if decide (tk ∈ [STRING; INT; LB; LS]) then
        c1 ←ₚ parse_members_arr fuel;
        c2 ←ₚ match_ RS;
        retP (Node obj_right_arr [c1; Leaf c2])
      else no_rule
  end
with parse_members_set (fuel : nat) : parser → outcome tree :=
  match fuel with
  | O => λ _, Diverged
  | Datatypes.S fuel =>
      tk ←ₚ get_t;
      if decide (tk ∈ [STRING]) then
        c1 ←ₚ parse_keyvalue fuel;
        c2 ←ₚ parse_members_right_set fuel;
        retP (Node members_set [c1; c2])
      else no_rule
  end
with parse_members_arr (fuel : nat) : parser → outcome tree :=
  match fuel with
  | O => λ _, Diverged
  | Datatypes.S fuel =>
      tk ←ₚ get_t;
      if decide (tk ∈ [STRING; INT; LB; LS]) then
        c1 ←ₚ parse_value fuel;
        c2 ←ₚ parse_members_right_arr fuel;
        retP (Node members_arr [c1; c2])
      else no_rule
  end
with parse_members_right_set (fuel : nat) : parser → outcome tree :=
  match fuel with
  | O => λ _, Diverged
  | Datatypes.S fuel =>
      tk ←ₚ get_t;
      if decide (tk ∈ [COMMA]) then
        c1 ←ₚ match_ COMMA;
        c2 ←ₚ parse_members_set fuel;
        retP (Node members_right_set [Leaf c1; c2])
      else if decide (tk ∈ [RB]) then
        retP (Node members_right_set [])
      else no_rule
  end
with parse_members_right_arr (fuel : nat) : parser → outcome tree :=
  match fuel with
  | O => λ _, Diverged
  | Datatypes.S fuel =>
      tk ←ₚ get_t;
      if decide (tk ∈ [COMMA]) then
        c1 ←ₚ match_ COMMA;
        c2 ←ₚ parse_members_arr fuel;
        retP (Node members_right_arr [Leaf c1; c2])
      else if decide (tk ∈ [RS]) then
        retP (Node members_right_arr [])
      else no_rule
  end
with parse_value (fuel : nat) : parser → outcome tree :=
  match fuel with
  | O => λ _, Diverged
  | Datatypes.S fuel =>
      tk ←ₚ get_t;
      if decide (tk ∈ [STRING; INT]) then
        tk ←ₚ get_t;
        c1 ←ₚ match_ tk;
        retP (Node value [Leaf c1])
      else if decide (tk ∈ [LB; LS]) then
        c1 ←ₚ parse_obj fuel;
        retP (Node value [c1])
      else no_rule
  end.

(** [JsonParser.parse] *)
Definition parse (fuel : nat) : parser → outcome tree :=
  result ←ₚ parse_obj fuel;
  _ ←ₚ match_ EOF;
  retP result.

(** [JsonParser(tokens).parse()] *)
Definition JsonParser_parse (fuel : nat) (tokens : list token) : outcome tree :=
  match Parser_init tokens with
  | Return _ self => parse fuel self
  | Raised e self => Raised e self
  | Diverged => Diverged
  end.

(** The values at the leaves of a tree, left to right. *)
Fixpoint leaves (tr : tree) : list pyval :=
  match tr with
  | Leaf v => [v]
  | Node _ children =>
      (fix go (cs : list tree) : list pyval :=
         match cs with
         | [] => []
         | c :: cs' => (leaves c ++ go cs')%list
         end) children
  end.

End Parser.

(** * Properties *)

(** ** Loops *)

Lemma bind_Ok {A B : Type} (a : A) (f : A → res B) : (Ok a ≫= f) = f a.
Proof. reflexivity. Qed.

Lemma bind_inv_Ok {A B : Type} (m : res A) (f : A → res B) (b : B) :
  m ≫= f = Ok b → ∃ a, m = Ok a ∧ f a = Ok b.
Proof. destruct m as [a| |]; simpl; [eauto | done | done]. Qed.

Lemma foldM_pure {A S : Type} (f : S → A → S) (l : list A) (s : S) :
  foldM (λ s a, Ok (f s a)) s l = Ok (foldl f s l).
Proof. revert s. induction l as [|a l IH]; intros s; simpl; [done | apply IH]. Qed.

Lemma size_list_to_set_le (l : list string) :
  size (list_to_set l : gset string) ≤ length l.
Proof.
  induction l as [|a l IH].
  - by rewrite list_to_set_nil, (size_empty (C:=gset string)).
  - rewrite list_to_set_cons, size_union_alt, size_singleton. simpl.
    apply le_n_S. etrans; [apply subseteq_size | exact IH]. set_solver.
Qed.

Lemma not_subseteq_witness (X Y : gset string) :
  ¬ X ⊆ Y → ∃ x, x ∈ X ∧ x ∉ Y.
Proof.
  intros Hsub. destruct (decide (Exists (λ x, x ∉ Y) (elements X))) as [He|Hn].
  - apply Exists_exists in He as (x & Hx & Hxy). exists x.
    split; [by apply elem_of_elements | done].
  - destruct Hsub. intros x Hx. destruct (decide (x ∈ Y)) as [|Hxy]; [done|].
    destruct Hn. apply Exists_exists. exists x.
    split; [by apply elem_of_elements | done].
Qed.

Section changing.
Context {S : Type} (P : S → Prop) (μ : S → nat).

(** A loop body that keeps [P], and either leaves the state and the flag
    alone or sets the flag and lowers the measure. *)
Definition step_ok (f : S * bool → res (S * bool)) : Prop :=
  ∀ s ch, P s →
    ∃ s' ch', f (s, ch) = Ok (s', ch') ∧ P s' ∧
      ((s' = s ∧ ch' = ch) ∨ (ch' = true ∧ μ s' < μ s)).

Lemma step_ok_skip : step_ok Ok.
Proof. intros s ch HP. exists s, ch. eauto. Qed.

Lemma step_ok_foldM {A : Type} (f : S * bool → A → res (S * bool)) (l : list A) :
  (∀ a, a ∈ l → step_ok (λ st, f st a)) → step_ok (λ st, foldM f st l).
Proof.
  induction l as [|a l IH]; intros Hf s ch HP; simpl.
  - exists s, ch. eauto.
  - destruct (Hf a (list_elem_of_here _ _) s ch HP) as (s1 & ch1 & -> & HP1 & H1).
    rewrite bind_Ok.
    destruct (IH (λ b Hb, Hf b (list_elem_of_further _ _ _ Hb)) s1 ch1 HP1)
      as (s2 & ch2 & -> & HP2 & H2).
    exists s2, ch2. split; [done|]. split; [done|].
    destruct H1 as [[-> ->]|[-> Hlt1]], H2 as [[-> ->]|[-> Hlt2]]; eauto with lia.
Qed.

Lemma step_ok_seq (f g : S * bool → res (S * bool)) :
  step_ok f → step_ok g → step_ok (λ st, st' ← f st; g st').
Proof.
  intros Hf Hg s ch HP.
  destruct (Hf s ch HP) as (s1 & ch1 & -> & HP1 & H1). rewrite bind_Ok.
  destruct (Hg s1 ch1 HP1) as (s2 & ch2 & -> & HP2 & H2).
  exists s2, ch2. split; [done|]. split; [done|].
  destruct H1 as [[-> ->]|[-> Hlt1]], H2 as [[-> ->]|[-> Hlt2]]; eauto with lia.
Qed.

(** A pass that ends with the flag still unset has left the state alone at
    every iteration. *)
Lemma foldM_quiet {A : Type} (f : S * bool → A → res (S * bool)) (l : list A)
    (s s' : S) :
  (∀ a, a ∈ l → step_ok (λ st, f st a)) → P s →
  foldM f (s, false) l = Ok (s', false) →
  s' = s ∧ ∀ a, a ∈ l → f (s, false) a = Ok (s, false).
Proof.
  induction l as [|a l IH]; intros Hf HP; simpl.
  - intros [= <-]. split; [done|]. intros a Ha. by apply elem_of_nil in Ha.
  - destruct (Hf a (list_elem_of_here _ _) s false HP) as (s1 & ch1 & Ha & HP1 & H1).
    rewrite Ha, bind_Ok. intros Hrest.
    pose proof (λ b Hb, Hf b (list_elem_of_further _ _ _ Hb)) as Hf'.
    destruct H1 as [[-> ->]|[-> Hlt1]].
    + destruct (IH Hf' HP Hrest) as [-> Hall]. split; [done|].
      intros b [->|Hb]%elem_of_cons; eauto.
    + destruct (step_ok_foldM f l Hf' s1 true HP1) as (s2 & ch2 & Hr & _ & H2).
      rewrite Hr in Hrest. injection Hrest as <- ->.
      destruct H2 as [[_ ?]|[? _]]; done.
Qed.

Lemma seq_quiet (f g : S * bool → res (S * bool)) (s s' : S) :
  step_ok f → step_ok g → P s →
  (st ← f (s, false); g st) = Ok (s', false) →
  s' = s ∧ f (s, false) = Ok (s, false) ∧ g (s, false) = Ok (s, false).
Proof.
  intros Hf Hg HP. destruct (Hf s false HP) as (s1 & ch1 & H1 & HP1 & Hc1).
  rewrite H1, bind_Ok. intros H2.
  destruct (Hg s1 ch1 HP1) as (s2 & ch2 & H2' & _ & Hc2).
  rewrite H2 in H2'. injection H2' as <- <-.
  destruct Hc1 as [[-> ->]|[-> _]], Hc2 as [[-> ?]|[? _]]; done.
Qed.

Lemma while_changing_ok (pass : S → res (S * bool)) (fuel : nat) (s : S) :
  (∀ s, P s → ∃ s' ch', pass s = Ok (s', ch') ∧ P s' ∧
     ((s' = s ∧ ch' = false) ∨ (ch' = true ∧ μ s' < μ s))) →
  P s → μ s < fuel →
  ∃ s', while_changing fuel pass s = Ok s' ∧ P s' ∧ pass s' = Ok (s', false).
Proof.
  intros Hpass. revert s. induction fuel as [|fuel IH]; intros s HP Hlt; [lia|].
  simpl. destruct (Hpass s HP) as (s1 & ch1 & H1 & HP1 & Hc).
  rewrite H1, bind_Ok. destruct Hc as [[-> ->]|[-> Hlt1]].
  - exists s. eauto.
  - apply IH; [done | lia].
Qed.

End changing.

(** ** The nullable set *)

Module NullableFacts.
Import Grammar.

(** A set that contains the head of every rule whose body lies in it. *)
Definition nullable_closed (grammar : list rule) (N : gset string) : Prop :=
  ∀ head body, (head, body) ∈ grammar → (∀ X, X ∈ body → X ∈ N) → head ∈ N.

Section nullable.
Context (grammar : list rule).

Definition heads : gset string := list_to_set grammar.*1.

(** What every intermediate value of [nullable] satisfies. *)
Definition sound (nullable : gset string) : Prop :=
  ∀ X, X ∈ nullable →
    (∃ body, (X, body) ∈ grammar) ∧ ∀ M, nullable_closed grammar M → X ∈ M.

Definition todo (nullable : gset string) : nat := size (heads ∖ nullable).

Lemma head_in_heads head body : (head, body) ∈ grammar → head ∈ heads.
Proof.
  intros Hr. apply elem_of_list_to_set, list_elem_of_fmap. by exists (head, body).
Qed.

Lemma todo_bound nullable : todo nullable ≤ length grammar.
Proof.
  unfold todo. trans (size heads); [apply subseteq_size; set_solver|].
  unfold heads. rewrite <-(length_fmap fst grammar).
  apply size_list_to_set_le.
Qed.

Lemma sound_add head body nullable :
  (head, body) ∈ grammar → (∀ X, X ∈ body → X ∈ nullable) →
  sound nullable → sound ({[head]} ∪ nullable).
Proof.
  intros Hr Hbody Hs X [->%elem_of_singleton|HX]%elem_of_union; [|by apply Hs].
  split; [by exists body|]. intros M HM. apply (HM _ _ Hr).
  intros Y HY. by apply (Hs Y (Hbody Y HY)).
Qed.

Lemma nullable_epsilon_sound l nullable :
  l ⊆ grammar → sound nullable → sound (foldl nullable_epsilon nullable l).
Proof.
  revert nullable. induction l as [|[head body] l IH]; intros nullable Hl Hs; [done|].
  simpl. apply IH; [set_solver|]. case_decide as Hb; [|done]. subst body.
  apply (sound_add head []); [set_solver | | done].
  intros X HX. by apply elem_of_nil in HX.
Qed.

Lemma nullable_step_ok r :
  r ∈ grammar → step_ok sound todo (λ st, Ok (nullable_step st r)).
Proof.
  destruct r as [head body]. intros Hr nullable ch Hs. simpl.
  case_decide as Hc.
  - destruct Hc as [Hsub Hnew]. eexists _, _. split; [done|]. split.
    + apply (sound_add head body); [done | | done].
      intros X HX. apply Hsub. by apply elem_of_list_to_set.
    + right. split; [done|]. unfold todo. apply subset_size.
      pose proof (head_in_heads _ _ Hr). set_solver.
  - eexists _, _. eauto.
Qed.

Lemma nullable_pass_foldM nullable :
  nullable_pass grammar nullable =
  foldM (λ st r, Ok (nullable_step st r)) (nullable, false) grammar.
Proof. unfold nullable_pass. by rewrite foldM_pure. Qed.

Lemma nullable_pass_stable nullable :
  sound nullable → nullable_pass grammar nullable = Ok (nullable, false) →
  nullable_closed grammar nullable.
Proof.
  intros Hs Hpass head body Hr Hbody. rewrite nullable_pass_foldM in Hpass.
  apply (foldM_quiet sound todo) in Hpass as [_ Hall];
    [|by intros; apply nullable_step_ok | done].
  specialize (Hall _ Hr). simpl in Hall. case_decide as Hc; [done|].
  destruct (decide (head ∈ nullable)) as [|Hn]; [done|].
  destruct Hc. split; [|done]. intros X HX%elem_of_list_to_set. by apply Hbody.
Qed.

Lemma calculate_nullable_ok terminals nonterminals :
  ∃ nullable, calculate_nullable terminals nonterminals grammar = Ok nullable ∧
    sound nullable ∧ nullable_pass grammar nullable = Ok (nullable, false).
Proof.
  unfold calculate_nullable. apply (while_changing_ok sound todo).
  - intros nullable Hs. rewrite nullable_pass_foldM.
    destruct (step_ok_foldM sound todo (λ st r, Ok (nullable_step st r)) grammar
                (λ r Hr, nullable_step_ok r Hr) nullable false Hs)
      as (s' & ch' & Hf & Hs' & Hc).
    exists s', ch'. split; [done|]. split; [done|].
    destruct Hc as [[-> ->]|[-> ?]]; eauto.
  - apply nullable_epsilon_sound; [done|]. intros X HX. set_solver.
  - pose proof (todo_bound (foldl nullable_epsilon ∅ grammar)). lia.
Qed.

End nullable.

(** C4: [calculate_nullable] returns the least set that contains the head
    of every rule whose body symbols all belong to it (the head of every
    epsilon rule in particular); one more pass over the rules against the
    returned set adds nothing and leaves [changing] unset; every member is
    the head of some rule. *)
Theorem calculate_nullable_least_fixed_point
    (terminals nonterminals : gset string) (grammar : list rule) :
  ∃ nullable,
    calculate_nullable terminals nonterminals grammar = Ok nullable ∧
    nullable_closed grammar nullable ∧
    (∀ M, nullable_closed grammar M → nullable ⊆ M) ∧
    nullable_pass grammar nullable = Ok (nullable, false) ∧
    (∀ X, X ∈ nullable → ∃ body, (X, body) ∈ grammar).
Proof.
  destruct (calculate_nullable_ok grammar terminals nonterminals)
    as (nullable & Hcalc & Hs & Hpass).
  exists nullable. split; [done|]. split; [by apply nullable_pass_stable|].
  split; [|split; [done|]].
  - intros M HM X HX. by apply (Hs X HX).
  - intros X HX. by apply (Hs X HX).
Qed.

End NullableFacts.

(** ** Dictionaries of sets that only grow *)

Module SetsFacts.
Import Grammar.

Lemma sum_list_fmap_le {A : Type} (f : A → nat) (c : nat) (l : list A) :
  (∀ x, x ∈ l → f x ≤ c) → sum_list (f <$> l) ≤ length l * c.
Proof.
  induction l as [|a l IH]; intros Hf; csimpl; [done|].
  pose proof (Hf a (list_elem_of_here _ _)).
  pose proof (IH (λ x Hx, Hf x (list_elem_of_further _ _ _ Hx))). lia.
Qed.

Lemma sum_list_fmap_mono {A : Type} (f g : A → nat) (l : list A) :
  (∀ x, x ∈ l → g x ≤ f x) → sum_list (g <$> l) ≤ sum_list (f <$> l).
Proof.
  induction l as [|a l IH]; intros Hle; csimpl; [done|].
  pose proof (Hle a (list_elem_of_here _ _)).
  pose proof (IH (λ x Hx, Hle x (list_elem_of_further _ _ _ Hx))). lia.
Qed.

Lemma sum_list_fmap_lt {A : Type} (f g : A → nat) (l : list A) (k : A) :
  k ∈ l → (∀ x, x ∈ l → g x ≤ f x) → g k < f k →
  sum_list (g <$> l) < sum_list (f <$> l).
Proof.
  induction l as [|a l IH]; intros Hk Hle Hlt; [by apply elem_of_nil in Hk|].
  csimpl. pose proof (Hle a (list_elem_of_here _ _)) as Ha.
  pose proof (λ x Hx, Hle x (list_elem_of_further _ _ _ Hx)) as Hle'.
  pose proof (sum_list_fmap_mono f g l Hle').
  apply elem_of_cons in Hk as [->|Hk]; [lia|].
  pose proof (IH Hk Hle' Hlt). lia.
Qed.

(** The item loop adds the whole of [src] to [d[k]], and sets [changing]
    exactly when [src] held an item that [d[k]] lacked. *)
Lemma add_items_spec (k : string) (l : list string) (d : sets) (ch : bool)
    (tgt : gset string) :
  d !! k = Some tgt →
  ∃ ch', foldM (add_item k) (d, ch) l = Ok (<[k := tgt ∪ list_to_set l]> d, ch') ∧
    ((list_to_set l ⊆ tgt ∧ ch' = ch) ∨ (¬ list_to_set l ⊆ tgt ∧ ch' = true)).
Proof.
  revert d ch tgt. induction l as [|a l IH]; intros d ch tgt Hk.
  - exists ch. rewrite list_to_set_nil, (right_id_L ∅ (∪)), insert_id by done.
    split; [done|]. left. split; [set_solver | done].
  - simpl. unfold dict_get. rewrite Hk, bind_Ok. case_decide as Ha; rewrite bind_Ok.
    + destruct (IH (<[k := {[a]} ∪ tgt]> d) true ({[a]} ∪ tgt)) as (ch' & Hf & Hch);
        [by rewrite lookup_insert_eq|].
      assert (ch' = true) as -> by (by destruct Hch as [[_ ->]|[_ ->]]).
      exists true. rewrite Hf, insert_insert_eq.
      replace ({[a]} ∪ tgt ∪ list_to_set l) with (tgt ∪ ({[a]} ∪ list_to_set l))
        by set_solver.
      split; [done|]. right. split; [set_solver|done].
    + destruct (IH d ch tgt Hk) as (ch' & -> & Hch). exists ch'.
      replace (tgt ∪ ({[a]} ∪ list_to_set l)) with (tgt ∪ list_to_set l)
        by set_solver.
      split; [done|]. destruct Hch as [[? ->]|[? ->]]; [left|right]; set_solver.
Qed.

Lemma add_all_spec (src : gset string) (k : string) (d : sets) (ch : bool)
    (tgt : gset string) :
  d !! k = Some tgt →
  ∃ ch', add_all src k (d, ch) = Ok (<[k := tgt ∪ src]> d, ch') ∧
    ((src ⊆ tgt ∧ ch' = ch) ∨ (¬ src ⊆ tgt ∧ ch' = true)).
Proof.
  intros Hk. unfold add_all.
  destruct (add_items_spec k (elements src) d ch tgt Hk) as (ch' & Hf & Hch).
  rewrite list_to_set_elements_L in Hf, Hch. eauto.
Qed.

(** How many items of [V] the sets of [d] at the keys [K] can still receive. *)
Definition room (K V : gset string) (d : sets) : nat :=
  sum_list ((λ k, size (V ∖ d !!! k)) <$> elements K).

Lemma room_bound (K V : gset string) (d : sets) : room K V d ≤ size K * size V.
Proof.
  unfold room. etrans; [apply sum_list_fmap_le with (c := size V)|].
  - intros k _. apply subseteq_size. set_solver.
  - done.
Qed.

Lemma add_all_quiet (src : gset string) (k : string) (d : sets)
    (tgt : gset string) :
  add_all src k (d, false) = Ok (d, false) → d !! k = Some tgt → src ⊆ tgt.
Proof.
  intros Hadd Hk. destruct (add_all_spec src k d false tgt Hk) as (ch' & H' & Hc).
  rewrite Hadd in H'. injection H' as _ <-. by destruct Hc as [[? _]|[_ ?]].
Qed.

Section bounded.
Context (K V : gset string) (L B : string → gset string).
Hypothesis B_V : ∀ k, B k ⊆ V.

(** The keys are [K] and the set at [k] stays between [L k] and [B k]. *)
Definition bounded (d : sets) : Prop :=
  dom d = K ∧ ∀ k X, d !! k = Some X → L k ⊆ X ∧ X ⊆ B k.

Lemma bounded_lookup d k :
  bounded d → k ∈ K → ∃ X, d !! k = Some X ∧ L k ⊆ X ∧ X ⊆ B k.
Proof.
  intros [Hdom Hb] Hk. rewrite <-Hdom in Hk. apply elem_of_dom in Hk as [X HX].
  exists X. eauto.
Qed.

Lemma add_all_step_ok (src : gset string) (k : string) (d : sets) (ch : bool) :
  bounded d → k ∈ K → src ⊆ B k →
  ∃ d' ch', add_all src k (d, ch) = Ok (d', ch') ∧ bounded d' ∧
    ((d' = d ∧ ch' = ch) ∨ (ch' = true ∧ room K V d' < room K V d)).
Proof.
  intros Hd Hk Hsrc.
  destruct (bounded_lookup d k Hd Hk) as (tgt & Htgt & HtgtL & HtgtB).
  destruct (add_all_spec src k d ch tgt Htgt) as (ch' & Hadd & Hch).
  exists (<[k := tgt ∪ src]> d), ch'. split; [done|]. split.
  { destruct Hd as [Hdom Hb]. split.
    - rewrite dom_insert_L, Hdom. set_solver.
    - intros k' X. rewrite lookup_insert. case_decide; [|by apply Hb].
      intros [= <-]. subst k'. set_solver. }
  destruct Hch as [[Hsub ->]|[Hnew ->]].
  - left. split; [|done]. replace (tgt ∪ src) with tgt by set_solver.
    by rewrite insert_id.
  - right. split; [done|]. unfold room.
    apply sum_list_fmap_lt with (k := k).
    + by apply elem_of_elements.
    + intros x _. apply subseteq_size. destruct (decide (x = k)) as [->|Hne].
      * rewrite lookup_total_insert_eq, (lookup_total_correct _ _ _ Htgt). set_solver.
      * by rewrite lookup_total_insert_ne.
    + rewrite lookup_total_insert_eq, (lookup_total_correct _ _ _ Htgt).
      apply subset_size. apply not_subseteq_witness in Hnew as (x & Hx & Hx').
      pose proof (B_V k). set_solver.
Qed.

End bounded.

End SetsFacts.

(** ** FIRST, FOLLOW and SELECT *)

Module AnalysisFacts.
Import Grammar SetsFacts.

(** Every head is in [N] and every body symbol is in [T] or in [N]. *)
Definition scoped (T N : gset string) (grammar : list rule) : Prop :=
  ∀ head body, (head, body) ∈ grammar →
    head ∈ N ∧ ∀ X, X ∈ body → X ∈ T ∪ N.

Abbreviation terminals_of grammar := (find_terminals_and_nonterminals grammar).1.
Abbreviation nonterminals_of grammar := (find_terminals_and_nonterminals grammar).2.

Lemma find_step_foldl (l : list rule) (symbols nonterminals : gset string) :
  let st := foldl find_step (symbols, nonterminals) l in
  symbols ⊆ st.1 ∧ nonterminals ⊆ st.2 ∧
  ∀ head body, (head, body) ∈ l → head ∈ st.2 ∧ ∀ X, X ∈ body → X ∈ st.1.
Proof.
  revert symbols nonterminals. induction l as [|[h b] l IH]; intros sy nt; simpl.
  - split; [done|]. split; [done|]. intros head body Hr. by apply elem_of_nil in Hr.
  - destruct (IH (sy ∪ list_to_set b) ({[h]} ∪ nt)) as (Hsy & Hnt & Hl).
    split; [set_solver|]. split; [set_solver|].
    intros head body [[= -> ->]|Hr]%elem_of_cons; [|by apply Hl].
    split; [set_solver|]. intros X HX. apply Hsy. set_solver.
Qed.

Lemma find_scoped (grammar : list rule) :
  scoped (terminals_of grammar) (nonterminals_of grammar) grammar ∧
  terminals_of grammar ## nonterminals_of grammar.
Proof.
  unfold find_terminals_and_nonterminals.
  pose proof (find_step_foldl grammar ∅ ∅) as (_ & _ & Hl).
  destruct (foldl find_step (∅, ∅) grammar) as [sy nt]. simpl in *. split.
  - intros head body Hr. destruct (Hl _ _ Hr) as [Hh Hb]. split; [done|].
    intros X HX. specialize (Hb X HX). destruct (decide (X ∈ nt)); set_solver.
  - set_solver.
Qed.

Lemma index_Ok {A : Type} (l : list A) (i : nat) :
  i < length l → ∃ a, l !! i = Some a ∧ index l i = Ok a.
Proof.
  intros Hi. destruct (lookup_lt_is_Some_2 l i Hi) as [a Ha].
  exists a. unfold index. by rewrite Ha.
Qed.

Lemma is_nullable_true (l : list string) (nullable : gset string) :
  is_nullable l nullable = true ↔ ∀ X, X ∈ l → X ∈ nullable.
Proof.
  induction l as [|a l IH]; simpl.
  - split; [|done]. intros _ X HX. by apply elem_of_nil in HX.
  - case_decide as Ha.
    + split; [done|]. intros Hall. destruct Ha. apply Hall. by left.
    + rewrite IH. split.
      * intros Hall X [->|HX]%elem_of_cons; [|by apply Hall].
        first [done | by apply dec_stable].
      * intros Hall X HX. apply Hall. by right.
Qed.

Lemma set_fold_insert_dom (f : string → gset string) (d0 : sets) (X : gset string) :
  let d := set_fold (λ a d, <[a := f a]> d) d0 X in
  dom d = dom d0 ∪ X ∧
  ∀ k Y, d !! k = Some Y → (k ∈ X ∧ Y = f k) ∨ ((k ∉ X) ∧ d0 !! k = Some Y).
Proof.
  apply (set_fold_ind_L (λ d X, dom d = dom d0 ∪ X ∧
    ∀ k Y, d !! k = Some Y → (k ∈ X ∧ Y = f k) ∨ ((k ∉ X) ∧ d0 !! k = Some Y))).
  - split; [set_solver|]. intros k Y Hk. right. split; [set_solver|done].
  - intros x Z d Hx [Hdom Hl]. split; [rewrite dom_insert_L, Hdom; set_solver|].
    intros k Y. rewrite lookup_insert. case_decide as Hk.
    + intros [= <-]. subst k. left. split; [set_solver|done].
    + intros [[? ->]|[? ?]]%Hl; [left|right]; (split; [set_solver|done]).
Qed.

Section first.
Context (T N : gset string) (grammar : list rule) (nullable : gset string).
Hypothesis Hscoped : scoped T N grammar.

(** The invariant of the FIRST loop: the keys are the symbols of the grammar
    and every set holds terminals only. *)
Definition first_inv : sets → Prop := bounded (T ∪ N) (λ _, ∅) (λ _, T).
Definition first_room : sets → nat := room (T ∪ N) T.

Lemma first_init_inv : first_inv (first_init T N).
Proof.
  unfold first_init.
  pose proof (set_fold_insert_dom (λ t, {[t]}) ∅ T) as [Hd1 Hl1].
  pose proof (set_fold_insert_dom (λ _, ∅)
    (set_fold (λ t d, <[t := {[t]}]> d) (∅ : sets) T) N) as [Hd2 Hl2].
  simpl in *. split.
  - rewrite Hd2, Hd1, dom_empty_L. set_solver.
  - intros k Y [[_ ->]|[_ [[? ->]|[_ ?]]%Hl1]]%Hl2; [set_solver | set_solver | done].
Qed.

Lemma first_at_step_ok head body i :
  (head, body) ∈ grammar → i < length body →
  step_ok first_inv first_room (λ st, first_at nullable head body st i).
Proof.
  intros Hr Hi d ch Hd. unfold first_at.
  destruct (is_nullable (take i body) nullable); [|by eapply step_ok_skip].
  destruct (index_Ok body i Hi) as (X & HX & ->). rewrite bind_Ok.
  destruct (Hscoped _ _ Hr) as [Hhead Hbody].
  destruct (bounded_lookup _ _ _ d X Hd) as (src & Hsrc & _ & HsrcT).
  { apply Hbody. by eapply list_elem_of_lookup_2. }
  simpl. unfold dict_get. rewrite Hsrc, bind_Ok.
  apply add_all_step_ok; [done | done | set_solver | done].
Qed.

Lemma first_rule_step_ok r :
  r ∈ grammar → step_ok first_inv first_room (λ st, first_rule nullable st r).
Proof.
  destruct r as [head body]. intros Hr. unfold first_rule.
  apply step_ok_foldM. intros i Hi%elem_of_seq. apply first_at_step_ok; [done|lia].
Qed.

Lemma calculate_first_ok :
  ∃ first, calculate_first T N grammar nullable = Ok first ∧ first_inv first.
Proof.
  unfold calculate_first.
  destruct (while_changing_ok first_inv first_room (first_pass grammar nullable)
    (Datatypes.S (size (T ∪ N) * size T)) (first_init T N)) as (first & Hw & Hinv & _).
  - intros d Hd.
    destruct (step_ok_foldM first_inv first_room (first_rule nullable) grammar
                first_rule_step_ok d false Hd) as (d' & ch' & Hf & Hd' & Hc).
    exists d', ch'. split; [done|]. split; [done|].
    destruct Hc as [[-> ->]|[-> ?]]; eauto.
  - apply first_init_inv.
  - pose proof (room_bound (T ∪ N) T (first_init T N)). unfold first_room. lia.
  - eauto.
Qed.

End first.

(** *** FIRST of a sequence of symbols, as the specification words it *)

(** The maximal nullable prefix of [alpha]. *)
Fixpoint nullable_prefix (nullable : gset string) (alpha : list string)
    : list string :=
  match alpha with
  | [] => []
  | X :: rest =>
      if decide (X ∈ nullable) then X :: nullable_prefix nullable rest else []
  end.

(** The first symbol of [alpha] that is not nullable, when there is one. *)
Fixpoint first_non_nullable (nullable : gset string) (alpha : list string)
    : option string :=
  match alpha with
  | [] => None
  | X :: rest =>
      if decide (X ∈ nullable) then first_non_nullable nullable rest else Some X
  end.

(** FIRST(alpha): the union of FIRST of each symbol of the maximal nullable
    prefix, plus FIRST of the first non-nullable symbol when one exists. *)
Definition first_of_sequence (nullable : gset string) (first : sets)
    (alpha : list string) : gset string :=
  ⋃ ((λ X, first !!! X) <$> nullable_prefix nullable alpha) ∪
  from_option (λ X, first !!! X) ∅ (first_non_nullable nullable alpha).

(** What the specification asks of a FOLLOW mapping [F]: the end marker
    follows the start symbol and, for every rule [A → α B β] with [B] a
    nonterminal, FIRST(β) ⊆ F(B), and F(A) ⊆ F(B) when [β] is nullable. *)
Definition follow_constraints (N : gset string) (grammar : list rule)
    (nullable : gset string) (first : sets) (start : string)
    (F : string → gset string) : Prop :=
  Symbols.EOF ∈ F start ∧
  ∀ A body i B, (A, body) ∈ grammar → body !! i = Some B → B ∈ N →
    first_of_sequence nullable first (drop (Datatypes.S i) body) ⊆ F B ∧
    (is_nullable (drop (Datatypes.S i) body) nullable = true → F A ⊆ F B).

Lemma first_of_sequence_nil nullable first :
  first_of_sequence nullable first [] = ∅.
Proof. unfold first_of_sequence. simpl. set_solver. Qed.

Lemma first_of_sequence_cons nullable first X rest :
  first_of_sequence nullable first (X :: rest) =
  first !!! X ∪
  (if decide (X ∈ nullable) then first_of_sequence nullable first rest else ∅).
Proof.
  unfold first_of_sequence. simpl. case_decide; csimpl; set_solver.
Qed.

Lemma elem_of_first_of_sequence nullable first alpha x :
  x ∈ first_of_sequence nullable first alpha ↔
  ∃ j Y, alpha !! j = Some Y ∧ is_nullable (take j alpha) nullable = true ∧
         x ∈ first !!! Y.
Proof.
  induction alpha as [|X rest IH].
  - rewrite first_of_sequence_nil. split; [set_solver|]. by intros (j & Y & ? & _).
  - rewrite first_of_sequence_cons, elem_of_union. split.
    + intros [Hx|Hx]; [by exists 0, X|].
      destruct (decide (X ∈ nullable)) as [HX|HX]; [|set_solver].
      apply IH in Hx as (j & Y & Hj & Hn & Hx). exists (Datatypes.S j), Y.
      split; [done|]. split; [|done]. simpl. by rewrite decide_False by eauto.
    + intros ([|j] & Y & Hj & Hn & Hx); simpl in *; [left; congruence|].
      right. destruct (decide (X ∈ nullable)) as [HX|HX].
      * rewrite decide_False in Hn by eauto. apply IH. eauto.
      * by rewrite decide_True in Hn by done.
Qed.

Lemma first_of_sequence_terminals T N nullable first alpha :
  first_inv T N first → first_of_sequence nullable first alpha ⊆ T.
Proof.
  intros [_ Hb] x (j & Y & _ & _ & Hx)%elem_of_first_of_sequence.
  destruct (first !! Y) as [X|] eqn:HY.
  - rewrite (lookup_total_correct _ _ _ HY) in Hx. by apply (Hb Y X HY).
  - rewrite lookup_total_alt, HY in Hx. set_solver.
Qed.

Section follow.
Context (T N : gset string) (grammar : list rule) (nullable : gset string).
Context (first : sets) (start : string) (F' : string → gset string).
Hypothesis Hscoped : scoped T N grammar.
Hypothesis Hdisj : T ## N.
Hypothesis Hfirst : first_inv T N first.
Hypothesis Hstart : ∃ body0 rest, grammar = (start, body0) :: rest.
Hypothesis HF' : follow_constraints N grammar nullable first start F'.

Definition follow_V : gset string := {[Symbols.EOF]} ∪ T.
Definition follow_low (k : string) : gset string :=
  if decide (k = start) then {[Symbols.EOF]} else ∅.

(** The invariant of the FOLLOW loop: the keys are the nonterminals, the end
    marker stays in the set of the start symbol, and every set stays inside
    the solution [F'] and holds terminals and the end marker only. *)
Definition follow_inv : sets → Prop :=
  bounded N follow_low (λ k, F' k ∩ follow_V).
Definition follow_room : sets → nat := room N follow_V.

Lemma follow_B_V k : F' k ∩ follow_V ⊆ follow_V.
Proof. set_solver. Qed.

Lemma start_in_N : start ∈ N.
Proof.
  destruct Hstart as (body0 & rest & ->).
  apply (Hscoped start body0). by left.
Qed.

Lemma body_nonterminal head body i X :
  (head, body) ∈ grammar → body !! i = Some X → X ∉ T → X ∈ N.
Proof.
  intros Hr HX HXT. destruct (Hscoped _ _ Hr) as [_ Hbody].
  specialize (Hbody X (list_elem_of_lookup_2 _ _ _ HX)). set_solver.
Qed.

Lemma follow_at_step_ok head body i :
  (head, body) ∈ grammar → i < length body →
  step_ok follow_inv follow_room (λ st, follow_at T nullable head body st i).
Proof.
  intros Hr Hi d ch Hd. unfold follow_at.
  destruct (index_Ok body i Hi) as (X & HX & ->). rewrite bind_Ok.
  case_decide as HXT; [by eapply step_ok_skip|].
  destruct (is_nullable (drop (i + 1) body) nullable) eqn:Hn;
    [|by eapply step_ok_skip].
  pose proof (body_nonterminal _ _ _ _ Hr HX HXT) as HXN.
  destruct (Hscoped _ _ Hr) as [Hhead _].
  destruct (bounded_lookup _ _ _ d head Hd Hhead) as (src & Hsrc & _ & HsrcB).
  simpl. unfold dict_get. rewrite Hsrc, bind_Ok.
  apply add_all_step_ok; [apply follow_B_V | done | done |].
  destruct HF' as [_ HF]. destruct (HF head body i X Hr HX HXN) as [_ Hsub].
  rewrite Nat.add_1_r in Hn. specialize (Hsub Hn). set_solver.
Qed.

Lemma first_between body i j Y src :
  i < j → body !! j = Some Y → first !! Y = Some src →
  is_nullable (take (j - (i + 1)) (drop (i + 1) body)) nullable = true →
  src ⊆ first_of_sequence nullable first (drop (Datatypes.S i) body).
Proof.
  intros Hij HY Hsrc Hn x Hx. apply elem_of_first_of_sequence.
  rewrite Nat.add_1_r in Hn. exists (j - Datatypes.S i), Y.
  split; [|split; [done|]].
  - rewrite lookup_drop. by replace (Datatypes.S i + (j - Datatypes.S i)) with j by lia.
  - by rewrite (lookup_total_correct _ _ _ Hsrc).
Qed.

Lemma follow_between_step_ok head body i j X :
  (head, body) ∈ grammar → body !! i = Some X → X ∈ N →
  i < j → j < length body →
  step_ok follow_inv follow_room
    (λ st, follow_between nullable first body i st j).
Proof.
  intros Hr HX HXN Hij Hj d ch Hd. unfold follow_between.
  destruct (is_nullable (take (j - (i + 1)) (drop (i + 1) body)) nullable) eqn:Hn;
    [|by eapply step_ok_skip].
  destruct (index_Ok body j Hj) as (Y & HY & ->). rewrite bind_Ok.
  destruct (Hscoped _ _ Hr) as [_ Hbody].
  destruct (bounded_lookup _ _ _ first Y Hfirst) as (src & Hsrc & _ & HsrcT).
  { apply Hbody. by eapply list_elem_of_lookup_2. }
  unfold dict_get, index. rewrite Hsrc, bind_Ok, HX, bind_Ok.
  apply add_all_step_ok; [apply follow_B_V | done | done |].
  destruct HF' as [_ HF]. destruct (HF head body i X Hr HX HXN) as [Hsub _].
  pose proof (first_between body i j Y src Hij HY Hsrc Hn).
  unfold follow_V. set_solver.
Qed.

Lemma follow_from_step_ok head body i :
  (head, body) ∈ grammar → i < length body - 1 →
  step_ok follow_inv follow_room
    (λ st, follow_from T nullable first body st i).
Proof.
  intros Hr Hi d ch Hd. unfold follow_from.
  destruct (index_Ok body i) as (X & HX & ->); [lia|]. rewrite bind_Ok.
  case_decide as HXT; [by eapply step_ok_skip|].
  pose proof (body_nonterminal _ _ _ _ Hr HX HXT) as HXN.
  apply (step_ok_foldM follow_inv follow_room
           (follow_between nullable first body i)); [|done].
  intros j Hj%elem_of_seq. apply (follow_between_step_ok head body i j X); [done..|lia|lia].
Qed.

Lemma follow_rule_step_ok r :
  r ∈ grammar →
  step_ok follow_inv follow_room (λ st, follow_rule T nullable first st r).
Proof.
  destruct r as [head body]. intros Hr. unfold follow_rule.
  apply (step_ok_seq follow_inv follow_room
    (λ st, foldM (follow_at T nullable head body) st (seq 0 (length body)))
    (λ st, foldM (follow_from T nullable first body) st (seq 0 (length body - 1)))).
  - apply step_ok_foldM. intros i Hi%elem_of_seq.
    apply follow_at_step_ok; [done|lia].
  - apply step_ok_foldM. intros i Hi%elem_of_seq.
    apply (follow_from_step_ok head); [done|lia].
Qed.

Lemma follow_start_inv :
  follow_inv (<[start := {[Symbols.EOF]}]> (follow_init N)).
Proof.
  unfold follow_init.
  pose proof (set_fold_insert_dom (λ _, ∅) ∅ N) as [Hd Hl]. simpl in *.
  pose proof start_in_N. split.
  - rewrite dom_insert_L, Hd, dom_empty_L. set_solver.
  - intros k X. unfold follow_low, follow_V. rewrite lookup_insert.
    destruct HF' as [HEOF _].
    destruct (decide (start = k)) as [->|Hne].
    + intros [= <-]. rewrite decide_True by done. set_solver.
    + intros [[_ ->]|[_ ?]]%Hl; [|done]. rewrite decide_False by done. set_solver.
Qed.

Lemma calculate_follow_ok :
  ∃ follow, calculate_follow T N grammar nullable first = Ok follow ∧
    follow_inv follow ∧
    follow_pass T grammar nullable first follow = Ok (follow, false).
Proof.
  unfold calculate_follow. destruct Hstart as (body0 & rest & Hg).
  replace (index grammar 0) with (Ok (start, body0)) by (by rewrite Hg).
  rewrite bind_Ok. cbv zeta. change ((start, body0).1) with start.
  apply (while_changing_ok follow_inv follow_room).
  - intros d Hd.
    destruct (step_ok_foldM follow_inv follow_room (follow_rule T nullable first)
                grammar follow_rule_step_ok d false Hd) as (d' & ch' & Hf & Hd' & Hc).
    exists d', ch'. split; [done|]. split; [done|].
    destruct Hc as [[-> ->]|[-> ?]]; eauto.
  - apply follow_start_inv.
  - pose proof (room_bound N follow_V
      (<[start := {[Symbols.EOF]}]> (follow_init N))).
    assert (size follow_V ≤ Datatypes.S (size T)).
    { unfold follow_V. rewrite size_union_alt, size_singleton.
      apply le_n_S, subseteq_size. set_solver. }
    unfold follow_room. nia.
Qed.

Lemma follow_stable follow :
  follow_inv follow →
  follow_pass T grammar nullable first follow = Ok (follow, false) →
  follow_constraints N grammar nullable first start (λ k, follow !!! k).
Proof.
  intros Hinv Hpass. split.
  - destruct (bounded_lookup _ _ _ follow start Hinv start_in_N)
      as (X & HX & HL & _).
    rewrite (lookup_total_correct _ _ _ HX). unfold follow_low in HL.
    rewrite decide_True in HL by done. set_solver.
  - intros A body i B Hr HB HBN.
    apply (foldM_quiet follow_inv follow_room) in Hpass as [_ Hall];
      [|exact follow_rule_step_ok|done].
    specialize (Hall _ Hr). unfold follow_rule in Hall.
    apply (seq_quiet follow_inv follow_room
      (λ st, foldM (follow_at T nullable A body) st (seq 0 (length body)))
      (λ st, foldM (follow_from T nullable first body) st
               (seq 0 (length body - 1)))) in Hall as (_ & Hat & Hfrom);
      [| apply step_ok_foldM; intros k Hk%elem_of_seq;
         apply follow_at_step_ok; [done|lia]
       | apply step_ok_foldM; intros k Hk%elem_of_seq;
         apply (follow_from_step_ok A); [done|lia]
       | done].
    apply (foldM_quiet follow_inv follow_room) in Hat as [_ Hat];
      [| intros k Hk%elem_of_seq; apply follow_at_step_ok; [done|lia] | done].
    apply (foldM_quiet follow_inv follow_room) in Hfrom as [_ Hfrom];
      [| intros k Hk%elem_of_seq; apply (follow_from_step_ok A); [done|lia] | done].
    assert (B ∉ T) as HBT by set_solver.
    pose proof (lookup_lt_Some _ _ _ HB) as Hi.
    destruct (bounded_lookup _ _ _ follow B Hinv HBN) as (tgt & Htgt & _).
    rewrite (lookup_total_correct _ _ _ Htgt). split.
    + intros x (j' & Y & HY & Hn & Hx)%elem_of_first_of_sequence.
      rewrite lookup_drop in HY. pose proof (lookup_lt_Some _ _ _ HY) as Hj.
      assert (i ∈ seq 0 (length body - 1)) as Hi' by (apply elem_of_seq; lia).
      specialize (Hfrom i Hi'). unfold follow_from, index in Hfrom.
      rewrite HB, bind_Ok, decide_False in Hfrom by done.
      apply (foldM_quiet follow_inv follow_room) in Hfrom as [_ Hbt];
        [| intros k Hk%elem_of_seq;
           apply (follow_between_step_ok A body i k B); [done..|lia|lia]
         | done].
      assert (Datatypes.S i + j' ∈ seq (i + 1) (length body - (i + 1))) as Hj'
        by (apply elem_of_seq; lia).
      specialize (Hbt _ Hj'). unfold follow_between, index in Hbt.
      replace (Datatypes.S i + j' - (i + 1)) with j' in Hbt by lia.
      rewrite Nat.add_1_r, Hn, HY, bind_Ok, HB in Hbt.
      destruct (Hscoped _ _ Hr) as [_ Hbody].
      destruct (bounded_lookup _ _ _ first Y Hfirst) as (src & Hsrc & _).
      { apply Hbody. by eapply list_elem_of_lookup_2. }
      unfold dict_get in Hbt. rewrite Hsrc, !bind_Ok in Hbt.
      rewrite (lookup_total_correct _ _ _ Hsrc) in Hx.
      by apply (add_all_quiet _ _ _ tgt Hbt Htgt).
    + intros Hn.
      assert (i ∈ seq 0 (length body)) as Hi' by (apply elem_of_seq; lia).
      specialize (Hat i Hi'). unfold follow_at, index in Hat.
      rewrite HB, bind_Ok, decide_False, Nat.add_1_r, Hn in Hat by done.
      destruct (Hscoped _ _ Hr) as [HA _].
      destruct (bounded_lookup _ _ _ follow A Hinv HA) as (src & Hsrc & _).
      simpl in Hat. unfold dict_get in Hat. rewrite Hsrc, bind_Ok in Hat.
      rewrite (lookup_total_correct _ _ _ Hsrc).
      by apply (add_all_quiet _ _ _ tgt Hat Htgt).
Qed.

End follow.

(** *** SELECT *)

(** SELECT(A → α) as the specification words it. *)
Definition select_of_rule (nullable : gset string) (first follow : sets)
    (r : rule) : gset string :=
  first_of_sequence nullable first r.2 ∪
  (if is_nullable r.2 nullable then follow !!! r.1 else ∅).

Section select.
Context (T N : gset string) (grammar : list rule) (nullable : gset string).
Context (first follow : sets).
Hypothesis Hscoped : scoped T N grammar.
Hypothesis Hfirst : first_inv T N first.
Hypothesis Hfollow : dom follow = N.

Lemma select_walk_spec items acc :
  (∀ X, X ∈ items → X ∈ T ∪ N) →
  select_walk nullable first items acc =
  Ok (acc ∪ first_of_sequence nullable first items).
Proof.
  revert acc. induction items as [|item rest IH]; intros acc Hitems; simpl.
  - rewrite first_of_sequence_nil. f_equal. set_solver.
  - destruct (bounded_lookup _ _ _ first item Hfirst) as (src & Hsrc & _).
    { apply Hitems. by left. }
    unfold dict_get. rewrite Hsrc, bind_Ok, first_of_sequence_cons.
    rewrite (lookup_total_correct _ _ _ Hsrc).
    destruct (decide (item ∈ nullable)) as [Hn|Hn].
    + rewrite decide_False by eauto. simpl. rewrite IH.
      * f_equal. set_solver.
      * intros X HX. apply Hitems. by right.
    + rewrite decide_True by done. simpl. f_equal. set_solver.
Qed.

Lemma select_rule_spec select r :
  r ∈ grammar →
  select_rule nullable first follow select r =
  Ok (<[r := select_of_rule nullable first follow r]> select).
Proof.
  destruct r as [head body]. intros Hr. destruct (Hscoped _ _ Hr) as [Hhead Hbody].
  unfold select_rule, select_of_rule. simpl.
  assert ((if decide (body ≠ []) then select_walk nullable first body ∅
           else Ok ∅) = Ok (first_of_sequence nullable first body)) as ->.
  { case_decide as Hb.
    - rewrite select_walk_spec by done. f_equal. set_solver.
    - subst body. by rewrite first_of_sequence_nil. }
  rewrite bind_Ok. destruct (is_nullable body nullable);
    [|by rewrite bind_Ok, (right_id_L ∅ (∪))].
  rewrite <-Hfollow in Hhead. apply elem_of_dom in Hhead as [src Hsrc].
  unfold dict_get. rewrite Hsrc, !bind_Ok.
  by rewrite (lookup_total_correct _ _ _ Hsrc).
Qed.

Lemma select_fold_spec l sel :
  l ⊆ grammar →
  ∃ sel', foldM (select_rule nullable first follow) sel l = Ok sel' ∧
    (∀ r, r ∈ l → sel' !! r = Some (select_of_rule nullable first follow r)) ∧
    (∀ r, r ∉ l → sel' !! r = sel !! r).
Proof.
  revert sel. induction l as [|a l IH]; intros sel Hl; simpl.
  - exists sel. split; [done|]. split; [|done]. intros r Hr. by apply elem_of_nil in Hr.
  - rewrite select_rule_spec, bind_Ok by set_solver.
    destruct (IH (<[a := select_of_rule nullable first follow a]> sel))
      as (sel' & -> & Hin & Hout); [set_solver|].
    exists sel'. split; [done|]. split.
    + intros r Hr. destruct (decide (r ∈ l)) as [|Hrl]; [by apply Hin|].
      apply elem_of_cons in Hr as [->|]; [|done].
      by rewrite Hout, lookup_insert_eq.
    + intros r Hr. apply not_elem_of_cons in Hr as [Hne Hrl].
      by rewrite Hout, lookup_insert_ne.
Qed.

Lemma calculate_select_ok :
  ∃ select, calculate_select T N grammar nullable first follow = Ok select ∧
    (∀ r, r ∈ grammar →
       select !! r = Some (select_of_rule nullable first follow r)) ∧
    (∀ r, r ∉ grammar → select !! r = None).
Proof.
  destruct (select_fold_spec grammar ∅) as (sel & Hf & Hin & Hout); [done|].
  exists sel. split; [done|]. split; [done|].
  intros r Hr. by rewrite Hout, lookup_empty.
Qed.

End select.

(** *** The whole analysis of a non-empty grammar *)

Lemma follow_constraints_top T N grammar nullable first start :
  first_inv T N first →
  follow_constraints N grammar nullable first start (λ _, follow_V T).
Proof.
  intros Hfirst. split; [unfold follow_V; set_solver|].
  intros A body i B _ _ _. split; [|done].
  pose proof (first_of_sequence_terminals T N nullable first
    (drop (Datatypes.S i) body) Hfirst). unfold follow_V. set_solver.
Qed.

Record analysed (grammar : list rule) (start : string) (nullable : gset string)
    (first follow : sets) (select : gmap rule (gset string)) : Prop := {
  an_nullable :
    calculate_nullable (terminals_of grammar) (nonterminals_of grammar) grammar
    = Ok nullable;
  an_first :
    calculate_first (terminals_of grammar) (nonterminals_of grammar) grammar
      nullable = Ok first;
  an_follow :
    calculate_follow (terminals_of grammar) (nonterminals_of grammar) grammar
      nullable first = Ok follow;
  an_select :
    calculate_select (terminals_of grammar) (nonterminals_of grammar) grammar
      nullable first follow = Ok select;
  an_first_dom : dom first = terminals_of grammar ∪ nonterminals_of grammar;
  an_first_terminals :
    ∀ X S, first !! X = Some S → S ⊆ terminals_of grammar;
  an_follow_dom : dom follow = nonterminals_of grammar;
  an_follow_terminals :
    ∀ B S, follow !! B = Some S → S ⊆ terminals_of grammar ∪ {[Symbols.EOF]};
  an_follow_constraints :
    follow_constraints (nonterminals_of grammar) grammar nullable first start
      (λ B, follow !!! B);
  an_follow_least :
    ∀ F, follow_constraints (nonterminals_of grammar) grammar nullable first
           start F →
         ∀ B, follow !!! B ⊆ F B;
  an_select_in :
    ∀ r, r ∈ grammar →
      select !! r = Some (select_of_rule nullable first follow r);
  an_select_out : ∀ r, r ∉ grammar → select !! r = None;
}.

Lemma analysed_nonempty (r0 : rule) (rest : list rule) :
  ∃ nullable first follow select,
    analysed (r0 :: rest) r0.1 nullable first follow select.
Proof.
  set (grammar := r0 :: rest).
  destruct (find_scoped grammar) as [Hscoped Hdisj].
  set (T := terminals_of grammar) in *. set (N := nonterminals_of grammar) in *.
  destruct (NullableFacts.calculate_nullable_ok grammar T N)
    as (nullable & Hnullable & _).
  destruct (calculate_first_ok T N grammar nullable Hscoped)
    as (first & Hfirst & Hfinv).
  assert (∃ body0 rest0, grammar = (r0.1, body0) :: rest0) as Hstart.
  { destruct r0 as [start body0]. by exists body0, rest. }
  destruct (calculate_follow_ok T N grammar nullable first r0.1 (λ _, follow_V T)
    Hscoped Hdisj Hfinv Hstart (follow_constraints_top T N grammar nullable first _ Hfinv))
    as (follow & Hfollow & Hfoinv & Hfopass).
  pose proof Hfoinv as [Hfodom Hfob].
  destruct (calculate_select_ok T N grammar nullable first follow Hscoped Hfinv
    Hfodom) as (sel & Hselect & Hin & Hout).
  exists nullable, first, follow, sel. split; try done.
  - apply Hfinv.
  - intros X S HX. by apply (proj2 Hfinv X S HX).
  - intros B S HB. destruct (Hfob B S HB) as [_ HS]. unfold follow_V in HS.
    set_solver.
  - apply (follow_stable T N grammar nullable first r0.1 (λ _, follow_V T));
      try done. by apply (follow_constraints_top T N).
  - intros F HF B.
    destruct (calculate_follow_ok T N grammar nullable first r0.1 F
      Hscoped Hdisj Hfinv Hstart HF) as (follow' & Hfollow' & [_ HbF] & _).
    rewrite Hfollow in Hfollow'. injection Hfollow' as <-.
    destruct (follow !! B) as [S|] eqn:HB.
    + rewrite (lookup_total_correct _ _ _ HB). destruct (HbF B S HB). set_solver.
    + rewrite lookup_total_alt, HB. set_solver.
Qed.

End AnalysisFacts.

(** ** The LL(1) check *)

Module LL1Facts.
Import Grammar SetsFacts AnalysisFacts.

(** The rules at positions [i] and [j] have the same head and their SELECT
    sets share a terminal. *)
Definition conflict (grammar : list rule) (select : gmap rule (gset string))
    (i j : nat) : Prop :=
  ∃ r1 r2 s1 s2,
    grammar !! i = Some r1 ∧ grammar !! j = Some r2 ∧ r1.1 = r2.1 ∧
    select !! r1 = Some s1 ∧ select !! r2 = Some s2 ∧ s1 ∩ s2 ≠ ∅.

Lemma foldM_any {A : Type} (f : bool → A → res bool) (c : A → Prop)
    (l : list A) (b : bool) :
  (∀ a b, a ∈ l → ∃ b', f b a = Ok b' ∧ (b' = false ↔ b = false ∨ c a)) →
  ∃ b', foldM f b l = Ok b' ∧ (b' = false ↔ b = false ∨ ∃ a, a ∈ l ∧ c a).
Proof.
  revert b. induction l as [|a l IH]; intros b Hf; simpl.
  - exists b. split; [done|]. split; [by left|].
    intros [?|(a & Ha & _)]; [done|]. by apply elem_of_nil in Ha.
  - destruct (Hf a b (list_elem_of_here _ _)) as (b1 & -> & Hb1). rewrite bind_Ok.
    destruct (IH b1 (λ a' b' Ha', Hf a' b' (list_elem_of_further _ _ _ Ha')))
      as (b2 & -> & Hb2).
    exists b2. split; [done|]. rewrite Hb2, Hb1. split.
    + intros [[?|?]|(a' & Ha' & ?)]; [by left| |]; right.
      * exists a. split; [by left|done].
      * exists a'. split; [by right|done].
    + intros [?|(a' & [->|Ha']%elem_of_cons & ?)]; [by left; left|by left; right|].
      right. by exists a'.
Qed.

Section scan.
Context (grammar : list rule) (sel : gmap rule (gset string)).
Hypothesis Hkeys : ∀ r, r ∈ grammar → is_Some (sel !! r).

Lemma conflict_at_spec i j ll1 :
  i < length grammar → j < length grammar →
  ∃ b', conflict_at grammar sel i ll1 j = Ok b' ∧
    (b' = false ↔ ll1 = false ∨ conflict grammar sel i j).
Proof.
  intros Hi Hj. unfold conflict_at.
  destruct (index_Ok grammar i Hi) as (r1 & Hr1 & ->).
  destruct (index_Ok grammar j Hj) as (r2 & Hr2 & ->). rewrite !bind_Ok.
  destruct (Hkeys r1 (list_elem_of_lookup_2 _ _ _ Hr1)) as [s1 Hs1].
  destruct (Hkeys r2 (list_elem_of_lookup_2 _ _ _ Hr2)) as [s2 Hs2].
  assert (conflict grammar sel i j ↔ r1.1 = r2.1 ∧ s1 ∩ s2 ≠ ∅) as Hconf.
  { split.
    - intros (r1' & r2' & s1' & s2' & ? & ? & ? & ? & ? & ?). by simplify_eq.
    - intros [? ?]. by exists r1, r2, s1, s2. }
  case_decide as Hh; [|exists ll1; split; [done|]; tauto].
  unfold dict_get. rewrite Hs1, Hs2, !bind_Ok.
  case_decide as Hsz.
  - exists false. split; [done|]. split; [|done]. intros _. right.
    apply Hconf. split; [done|].
    intros He. rewrite He, (size_empty (C:=gset string)) in Hsz. lia.
  - exists ll1. split; [done|]. split; [by left|].
    intros [?|[_ Hne]%Hconf]; [done|].
    destruct Hsz. apply Nat.neq_0_lt_0. intros Hz. apply Hne.
    apply leibniz_equiv. by apply size_empty_inv.
Qed.

Lemma conflict_scan_spec :
  ∃ b, conflict_scan grammar sel = Ok b ∧
    (b = false ↔ ∃ i j, i < j ∧ conflict grammar sel i j).
Proof.
  unfold conflict_scan.
  destruct (foldM_any
    (λ ll1 i, foldM (conflict_at grammar sel i) ll1
                (seq (i + 1) (length grammar - (i + 1))))
    (λ i, ∃ j, i < j ∧ conflict grammar sel i j)
    (seq 0 (length grammar)) true) as (b & Hb & Hiff).
  - intros i ll1 Hi%elem_of_seq.
    destruct (foldM_any (conflict_at grammar sel i) (conflict grammar sel i)
      (seq (i + 1) (length grammar - (i + 1))) ll1) as (b' & Hb' & Hiff').
    + intros j b Hj%elem_of_seq. apply conflict_at_spec; lia.
    + exists b'. split; [done|]. rewrite Hiff'. split.
      * intros [?|(j & Hj%elem_of_seq & ?)]; [by left|]. right. exists j.
        split; [lia|done].
      * intros [?|(j & Hij & Hc)]; [by left|]. right. exists j. split; [|done].
        destruct Hc as (? & r2 & _ & _ & _ & Hr2%lookup_lt_Some & _).
        apply elem_of_seq. lia.
  - exists b. split; [done|]. rewrite Hiff. split.
    + intros [?|(i & _ & j & ? & ?)]; [done|]. by exists i, j.
    + intros (i & j & Hij & Hc). right. exists i. split; [|by exists j].
      destruct Hc as (r1 & _ & _ & _ & Hr1%lookup_lt_Some & _).
      apply elem_of_seq. lia.
Qed.

End scan.

Lemma analysis_unfold (grammar : list rule) :
  analysis grammar =
  (nullable ← calculate_nullable (terminals_of grammar)
                 (nonterminals_of grammar) grammar;
   first ← calculate_first (terminals_of grammar) (nonterminals_of grammar)
             grammar nullable;
   follow ← calculate_follow (terminals_of grammar) (nonterminals_of grammar)
              grammar nullable first;
   select ← calculate_select (terminals_of grammar) (nonterminals_of grammar)
              grammar nullable first follow;
   Ok (nullable, first, follow, select)).
Proof.
  unfold analysis. by destruct (find_terminals_and_nonterminals grammar).
Qed.

Lemma analysed_analysis grammar start nullable first follow sel :
  analysed grammar start nullable first follow sel →
  analysis grammar = Ok (nullable, first, follow, sel).
Proof.
  intros H. rewrite analysis_unfold.
  by rewrite (an_nullable _ _ _ _ _ _ H), bind_Ok, (an_first _ _ _ _ _ _ H),
    bind_Ok, (an_follow _ _ _ _ _ _ H), bind_Ok, (an_select _ _ _ _ _ _ H).
Qed.

Lemma is_LL1_nonempty (r0 : rule) (rest : list rule) :
  ∃ nullable first follow sel b,
    analysed (r0 :: rest) r0.1 nullable first follow sel ∧
    is_LL1 (r0 :: rest) = Ok b ∧
    (b = false ↔ ∃ i j, i < j ∧ conflict (r0 :: rest) sel i j).
Proof.
  destruct (analysed_nonempty r0 rest) as (nullable & first & follow & sel & Han).
  destruct (conflict_scan_spec (r0 :: rest) sel) as (b & Hscan & Hiff).
  { intros r Hr. rewrite (an_select_in _ _ _ _ _ _ Han r Hr). eauto. }
  exists nullable, first, follow, sel, b. split; [done|]. split; [|done].
  unfold is_LL1. rewrite (analysed_analysis _ _ _ _ _ _ Han), bind_Ok, Hscan, bind_Ok.
  by destruct b.
Qed.

End LL1Facts.

(** ** Statements about the analyzer *)

Module GrammarClaims.
Import Symbols Grammar SetsFacts AnalysisFacts LL1Facts.

(** C1: for every rule [(A, α)] of a grammar, with NULLABLE, FIRST and
    FOLLOW computed from that grammar, [calculate_select] maps the rule to
    FIRST(α) ∪ (FOLLOW(A) if α is nullable), where FIRST(α) is the union of
    FIRST over the maximal nullable prefix of α plus FIRST of the first
    non-nullable symbol when there is one; the empty body is nullable. *)
Theorem calculate_select_first_follow (grammar : list rule) (A : string)
    (alpha : list string) :
  (A, alpha) ∈ grammar →
  ∃ nullable first follow select FA,
    calculate_nullable (terminals_of grammar) (nonterminals_of grammar)
      grammar = Ok nullable ∧
    calculate_first (terminals_of grammar) (nonterminals_of grammar)
      grammar nullable = Ok first ∧
    calculate_follow (terminals_of grammar) (nonterminals_of grammar)
      grammar nullable first = Ok follow ∧
    calculate_select (terminals_of grammar) (nonterminals_of grammar)
      grammar nullable first follow = Ok select ∧
    (∀ X, X ∈ alpha → is_Some (first !! X)) ∧
    follow !! A = Some FA ∧
    is_nullable [] nullable = true ∧
    select !! (A, alpha) =
      Some (⋃ ((λ X, first !!! X) <$> nullable_prefix nullable alpha) ∪
            from_option (λ X, first !!! X) ∅
              (first_non_nullable nullable alpha) ∪
            (if is_nullable alpha nullable then FA else ∅)).
Proof.
  intros Hr. destruct grammar as [|r0 rest]; [by apply elem_of_nil in Hr|].
  destruct (analysed_nonempty r0 rest) as (nullable & first & follow & sel & Han).
  destruct (find_scoped (r0 :: rest)) as [Hscoped _].
  destruct (Hscoped _ _ Hr) as [HA Halpha].
  rewrite <-(an_follow_dom _ _ _ _ _ _ Han) in HA.
  apply elem_of_dom in HA as [FA HFA].
  exists nullable, first, follow, sel, FA.
  split; [apply Han|]. split; [apply Han|]. split; [apply Han|].
  split; [apply Han|]. split; [|split; [done|split; [done|]]].
  - intros X HX. apply elem_of_dom. rewrite (an_first_dom _ _ _ _ _ _ Han).
    by apply Halpha.
  - rewrite (an_select_in _ _ _ _ _ _ Han _ Hr). unfold select_of_rule. simpl.
    by rewrite (lookup_total_correct _ _ _ HFA).
Qed.

Lemma calculate_select_first_follow_witness :
  ∃ nullable first follow select FA,
    calculate_nullable (terminals_of grammar_recitation)
      (nonterminals_of grammar_recitation) grammar_recitation = Ok nullable ∧
    calculate_first (terminals_of grammar_recitation)
      (nonterminals_of grammar_recitation) grammar_recitation nullable
      = Ok first ∧
    calculate_follow (terminals_of grammar_recitation)
      (nonterminals_of grammar_recitation) grammar_recitation nullable first
      = Ok follow ∧
    calculate_select (terminals_of grammar_recitation)
      (nonterminals_of grammar_recitation) grammar_recitation nullable first
      follow = Ok select ∧
    (∀ X, X ∈ [T; EP] → is_Some (first !! X)) ∧
    follow !! E = Some FA ∧
    is_nullable [] nullable = true ∧
    select !! (E, [T; EP]) =
      Some (⋃ ((λ X, first !!! X) <$> nullable_prefix nullable [T; EP]) ∪
            from_option (λ X, first !!! X) ∅
              (first_non_nullable nullable [T; EP]) ∪
            (if is_nullable [T; EP] nullable then FA else ∅)).
Proof.
  apply (calculate_select_first_follow grammar_recitation E [T; EP]).
  unfold grammar_recitation. do 2 apply list_elem_of_further. apply list_elem_of_here.
Defined.

(** C3: for a non-empty grammar, with NULLABLE and FIRST computed from it,
    [calculate_follow] returns a mapping on the nonterminals, into sets of
    terminals and the end marker, that satisfies the FOLLOW constraints (EOF
    follows the head of the first rule; for every rule [A → α B β] with [B]
    a nonterminal, FIRST(β) ⊆ F(B), and F(A) ⊆ F(B) when β is empty or made
    of nullable symbols) and lies below every mapping that satisfies them. *)
Theorem calculate_follow_least_solution (r0 : rule) (rest : list rule) :
  let grammar := r0 :: rest in
  ∃ nullable first follow,
    calculate_nullable (terminals_of grammar) (nonterminals_of grammar)
      grammar = Ok nullable ∧
    calculate_first (terminals_of grammar) (nonterminals_of grammar)
      grammar nullable = Ok first ∧
    calculate_follow (terminals_of grammar) (nonterminals_of grammar)
      grammar nullable first = Ok follow ∧
    dom follow = nonterminals_of grammar ∧
    (∀ B S, follow !! B = Some S → S ⊆ terminals_of grammar ∪ {[EOF]}) ∧
    follow_constraints (nonterminals_of grammar) grammar nullable first r0.1
      (λ B, follow !!! B) ∧
    (∀ F, follow_constraints (nonterminals_of grammar) grammar nullable first
            r0.1 F →
          ∀ B, follow !!! B ⊆ F B).
Proof.
  intros grammar.
  destruct (analysed_nonempty r0 rest) as (nullable & first & follow & sel & Han).
  exists nullable, first, follow. do 6 (split; [apply Han|]). apply Han.
Qed.

(** The empty grammar has no first rule: [grammar[0]] raises. *)
Lemma calculate_follow_empty_grammar :
  calculate_follow (terminals_of []) (nonterminals_of []) [] ∅ ∅
    = Raise IndexError ∧
  is_LL1 [] = Raise IndexError.
Proof. split; reflexivity. Qed.

(** C5, as the code has it: on every non-empty rule sequence, whatever
    symbols its bodies mention, the five operations return normally;
    [calculate_nullable], [calculate_first] and [calculate_select] also
    return on the empty sequence. *)
Theorem analyzer_returns :
  (∀ (r0 : rule) (rest : list rule),
     let grammar := r0 :: rest in
     ∃ nullable first follow select ll1,
       calculate_nullable (terminals_of grammar) (nonterminals_of grammar)
         grammar = Ok nullable ∧
       calculate_first (terminals_of grammar) (nonterminals_of grammar)
         grammar nullable = Ok first ∧
       calculate_follow (terminals_of grammar) (nonterminals_of grammar)
         grammar nullable first = Ok follow ∧
       calculate_select (terminals_of grammar) (nonterminals_of grammar)
         grammar nullable first follow = Ok select ∧
       is_LL1 grammar = Ok ll1) ∧
  calculate_nullable (terminals_of []) (nonterminals_of []) [] = Ok ∅ ∧
  calculate_first (terminals_of []) (nonterminals_of []) [] ∅ = Ok ∅ ∧
  (∀ first follow,
     calculate_select (terminals_of []) (nonterminals_of []) [] ∅ first follow
     = Ok ∅).
Proof.
  split; [|by repeat split].
  intros r0 rest grammar.
  destruct (is_LL1_nonempty r0 rest)
    as (nullable & first & follow & sel & b & Han & HLL1 & _).
  exists nullable, first, follow, sel, b. do 4 (split; [apply Han|]). done.
Qed.

(** A grammar that lists one rule twice. *)
Definition grammar_repeated : list rule := [(S, [ID]); (S, [ID])].

(** On [grammar_repeated], [is_LL1] returns False although no two rules
    differ as (head, body) values. *)
Lemma is_LL1_repeated_rule :
  is_LL1 grammar_repeated = Ok false ∧
  ¬ ∃ r1 r2, r1 ∈ grammar_repeated ∧ r2 ∈ grammar_repeated ∧ r1 ≠ r2.
Proof.
  split; [by vm_compute|].
  intros (r1 & r2 & H1 & H2 & Hne). unfold grammar_repeated in *.
  apply elem_of_cons in H1 as [->|H1%list_elem_of_singleton],
    H2 as [->|H2%list_elem_of_singleton]; by subst.
Qed.

(** C2, as the code has it: on a non-empty grammar [is_LL1] returns False
    exactly when two positions [i < j] of the rule list hold rules with the
    same head whose SELECT sets intersect (the two rules may be the same
    value), and True exactly when there are no such positions. *)
Theorem is_LL1_conflicting_positions (r0 : rule) (rest : list rule) :
  let grammar := r0 :: rest in
  ∃ nullable first follow select,
    analysis grammar = Ok (nullable, first, follow, select) ∧
    (is_LL1 grammar = Ok false ↔
       ∃ i j, i < j ∧ conflict grammar select i j) ∧
    (is_LL1 grammar = Ok true ↔
       ¬ ∃ i j, i < j ∧ conflict grammar select i j).
Proof.
  intros grammar.
  destruct (is_LL1_nonempty r0 rest)
    as (nullable & first & follow & sel & b & Han & HLL1 & Hiff).
  exists nullable, first, follow, sel.
  split; [by apply (analysed_analysis _ r0.1)|]. fold grammar in HLL1, Hiff.
  rewrite HLL1. split.
  - rewrite <-Hiff. split; [by intros [= ->]|by intros ->].
  - rewrite <-Hiff. split; [by intros [= ->]|]. by destruct b.
Qed.

(** C6: the left-recursive JSON grammar is rejected and its right-recursive
    rewriting is accepted. *)
Theorem is_LL1_grammar_json_4 :
  is_LL1 grammar_json_4a = Ok false ∧ is_LL1 grammar_json_4b = Ok true.
Proof. split; by vm_compute. Qed.

End GrammarClaims.

(** ** The parser *)

Module ParserFacts.
Import Symbols Parser.
Local Open Scope Z_scope.

(** The token at a non-negative position of the stream, which is implicitly
    terminated by the end marker. *)
Definition current (tokens : list token) (pos : Z) : token :=
  default (EOF, VStr EOF) (tokens !! Z.to_nat pos).

(** What holds of a parser object once it is constructed: the position is
    not negative and [t] is the terminal of the current token. *)
Definition wf (self : parser) : Prop :=
  0 ≤ pos self ∧ t self = Some (current (tokens self) (pos self)).1.

(** The states a parser object goes through: construction, then calls of
    [advance] and [match] that return. *)
Inductive reachable : parser → Prop :=
| reachable_init tokens self :
    Parser_init tokens = Return () self → reachable self
| reachable_advance self value self' :
    reachable self → advance self = Return value self' → reachable self'
| reachable_match self terminal value self' :
    reachable self → match_ terminal self = Return value self' →
    reachable self'.

(** The tokens that come before the first token whose terminal is [EOF]. *)
Fixpoint before_EOF (tokens : list token) : list token :=
  match tokens with
  | [] => []
  | tok :: rest => if decide (tok.1 = EOF) then [] else tok :: before_EOF rest
  end.

Lemma advance_spec (self : parser) :
  0 ≤ pos self →
  advance self =
  Return (current (tokens self) (pos self)).2
    (mkParser (tokens self) (pos self + 1)
       (Some (current (tokens self) (pos self + 1)).1)).
Proof.
  intros Hpos. unfold advance, py_index, current. simpl.
  rewrite (decide_True (P := 0 ≤ pos self)) by done.
  rewrite (decide_True (P := 0 ≤ pos self + 1)) by lia.
  assert (∀ p, 0 ≤ p →
    (if decide (p < Z.of_nat (length (tokens self)))
     then tokens self !! Z.to_nat p else Some (EOF, VStr EOF)) =
    Some (default (EOF, VStr EOF) (tokens self !! Z.to_nat p))) as Hcur.
  { intros p Hp. case_decide as Hlt.
    - destruct (lookup_lt_is_Some_2 (tokens self) (Z.to_nat p)) as [tok ->];
        [lia|done].
    - rewrite lookup_ge_None_2 by lia. done. }
  assert (∀ {A} (f : token → A) d p, 0 ≤ p →
    (if decide (p < Z.of_nat (length (tokens self)))
     then f <$> tokens self !! Z.to_nat p else Some (f d)) =
    Some (f (default d (tokens self !! Z.to_nat p)))) as Hf.
  { intros A f d p Hp. case_decide as Hlt.
    - destruct (lookup_lt_is_Some_2 (tokens self) (Z.to_nat p)) as [tok ->];
        [lia|done].
    - rewrite lookup_ge_None_2 by lia. done. }
  rewrite (Hf _ snd (EOF, VStr EOF)) by done.
  by rewrite (Hf _ fst (EOF, VStr EOF)) by lia.
Qed.

Lemma advance_wf (self self' : parser) (value : pyval) :
  0 ≤ pos self → advance self = Return value self' → wf self'.
Proof.
  intros Hpos. rewrite advance_spec by done. intros [= _ <-]. split; simpl; [lia|done].
Qed.

Lemma Parser_init_nonempty (tok : token) (rest : list token) :
  Parser_init (tok :: rest) =
  Return () (mkParser (tok :: rest) 0 (Some tok.1)).
Proof.
  unfold Parser_init, bindP, advance, py_index. simpl.
  rewrite decide_True by lia.
  destruct (lookup_lt_is_Some_2 (tok :: rest)
    (Z.to_nat (Z.of_nat (Datatypes.S (length rest)) + -1))) as [last ->];
    [simpl; lia|].
  done.
Qed.

Lemma Parser_init_wf (tokens : list token) (self : parser) :
  Parser_init tokens = Return () self → wf self ∧ Parser.tokens self = tokens.
Proof.
  destruct tokens as [|tok rest]; [done|].
  rewrite Parser_init_nonempty. intros [= <-]. by repeat split.
Qed.

Lemma match_spec (terminal : string) (self : parser) :
  wf self →
  match_ terminal self =
  if decide ((current (tokens self) (pos self)).1 = terminal)
  then Return (current (tokens self) (pos self)).2
         (mkParser (tokens self) (pos self + 1)
            (Some (current (tokens self) (pos self + 1)).1))
  else Raised (SyntaxError
         ("Syntax error: expected " +:+ terminal +:+ ", found " +:+
          (current (tokens self) (pos self)).1)) self.
Proof.
  intros [Hpos Ht]. unfold match_, bindP, get_t, raiseP, retP. rewrite Ht.
  destruct (decide ((current (tokens self) (pos self)).1 = terminal));
    [by rewrite advance_spec | by rewrite Ht].
Qed.

Lemma reachable_wf (self : parser) : reachable self → wf self.
Proof.
  induction 1 as [tokens self Hinit|self value self' _ IH Hadv
                 |self terminal value self' _ IH Hm].
  - by apply Parser_init_wf in Hinit as [? _].
  - by apply (advance_wf self self' value); [apply IH|].
  - rewrite match_spec in Hm by done. case_decide; [|done].
    injection Hm as _ <-. split; simpl; [destruct IH; lia|done].
Qed.

(** *** What a parse consumes *)

(** Going from [self] to [self'] consumed tokens, none with the terminal
    [EOF], whose values are [vals]. *)
Definition consumed (self self' : parser) (vals : list pyval) : Prop :=
  wf self' ∧ tokens self' = tokens self ∧
  ∃ toks,
    drop (Z.to_nat (pos self)) (tokens self) =
      toks ++ drop (Z.to_nat (pos self')) (tokens self) ∧
    pos self' = pos self + Z.of_nat (length toks) ∧
    Forall (λ tok : token, tok.1 ≠ EOF) toks ∧
    vals = toks.*2.

Lemma consumed_wf self self' vals : consumed self self' vals → wf self'.
Proof. by intros [? _]. Qed.

Lemma consumed_nil self : wf self → consumed self self [].
Proof.
  intros Hwf. split; [done|]. split; [done|]. exists [].
  split; [done|]. split; [simpl; lia|]. split; [constructor|done].
Qed.

Lemma consumed_app self self1 self2 vals1 vals2 :
  consumed self self1 vals1 → consumed self1 self2 vals2 →
  consumed self self2 (vals1 ++ vals2).
Proof.
  intros (_ & Htok1 & toks1 & Hd1 & Hp1 & Hf1 & ->)
         (Hwf & Htok2 & toks2 & Hd2 & Hp2 & Hf2 & ->).
  split; [done|]. split; [congruence|]. exists (toks1 ++ toks2).
  rewrite Htok1 in Hd2. split; [by rewrite Hd1, Hd2, (assoc_L (++))|].
  split; [rewrite length_app; lia|]. split; [by apply Forall_app|].
  by rewrite fmap_app.
Qed.

Lemma match_consumed terminal self value self' :
  wf self → terminal ≠ EOF → match_ terminal self = Return value self' →
  consumed self self' [value].
Proof.
  intros Hwf Hne. rewrite match_spec by done. case_decide as Hcur; [|done].
  intros [= <- <-]. destruct Hwf as [Hpos _]. unfold current in *.
  destruct (tokens self !! Z.to_nat (pos self)) as [[tk v]|] eqn:Htok;
    simpl in *; [subst tk|done].
  split; [split; simpl; [lia|done]|]. split; [done|]. exists [(terminal, v)].
  simpl. split; [|split; [lia|split; [by repeat constructor|done]]].
  replace (Z.to_nat (pos self + 1)) with (Datatypes.S (Z.to_nat (pos self)))
    by lia.
  by apply drop_S.
Qed.

Lemma bindP_Return {A B : Type} (m : parser → outcome A)
    (f : A → parser → outcome B) (self self' : parser) (b : B) :
  bindP m f self = Return b self' →
  ∃ a self1, m self = Return a self1 ∧ f a self1 = Return b self'.
Proof. unfold bindP. destruct (m self) as [a self1| |]; [eauto|done..]. Qed.

Lemma get_t_Return self tk self' :
  get_t self = Return tk self' → self' = self ∧ t self = Some tk.
Proof. unfold get_t. destruct (t self); [|done]. by intros [= -> ->]. Qed.

Lemma no_rule_Return {A : Type} self (a : A) self' :
  no_rule self ≠ Return a self'.
Proof.
  unfold no_rule, bindP, get_t, raiseP. by destruct (t self).
Qed.

Lemma leaves_node_nil symbol : leaves (Node symbol []) = [].
Proof. reflexivity. Qed.

Lemma leaves_node_cons symbol c cs :
  leaves (Node symbol (c :: cs)) = (leaves c ++ leaves (Node symbol cs))%list.
Proof. reflexivity. Qed.

(** A method that, when it returns a tree, has consumed the leaves of that
    tree. *)
Definition parses (f : parser → outcome tree) : Prop :=
  ∀ self tr self', wf self → f self = Return tr self' →
    consumed self self' (leaves tr).

Ltac invert_parse :=
  repeat match goal with
  | H : bindP _ _ _ = Return _ _ |- _ =>
      apply bindP_Return in H as (? & ? & ? & H)
  | H : get_t _ = Return _ _ |- _ => apply get_t_Return in H as [-> ?]
  | H : retP _ _ = Return _ _ |- _ => injection H as <- <-
  | H : no_rule _ = Return _ _ |- _ => by apply no_rule_Return in H
  | H : (if decide ?P then _ else _) _ = Return _ _ |- _ =>
      destruct (decide P)
  end.

Ltac consume :=
  repeat match goal with
  | Hwf : wf ?s, H : match_ _ ?s = Return _ _ |- _ =>
      apply (match_consumed _ _ _ _ Hwf) in H;
      [pose proof (consumed_wf _ _ _ H) | set_solver]
  | Hwf : wf ?s, IH : parses ?f, H : ?f ?s = Return _ _ |- _ =>
      apply (IH _ _ _ Hwf) in H; pose proof (consumed_wf _ _ _ H)
  end.

Ltac assemble :=
  rewrite ?leaves_node_cons, ?leaves_node_nil;
  repeat (eapply consumed_app; [eassumption|]);
  by apply consumed_nil.

Lemma parse_methods_consume (fuel : nat) :
  parses (parse_keyvalue fuel) ∧ parses (parse_obj fuel) ∧
  parses (parse_obj_right_set fuel) ∧ parses (parse_obj_right_arr fuel) ∧
  parses (parse_members_set fuel) ∧ parses (parse_members_arr fuel) ∧
  parses (parse_members_right_set fuel) ∧
  parses (parse_members_right_arr fuel) ∧ parses (parse_value fuel).
Proof.
  induction fuel as [|fuel (IH1 & IH2 & IH3 & IH4 & IH5 & IH6 & IH7 & IH8 & IH9)];
    [by split_and!|].
  split_and!; intros self tr self' Hwf Hparse; simpl in Hparse;
    invert_parse; consume; assemble.
Qed.

Lemma before_EOF_app (toks rest : list token) :
  Forall (λ tok : token, tok.1 ≠ EOF) toks →
  (∀ tok, rest !! 0%nat = Some tok → tok.1 = EOF) →
  before_EOF (toks ++ rest) = toks.
Proof.
  intros Hf Hrest. induction Hf as [|tok toks Htok _ IH]; simpl.
  - destruct rest as [|tok rest']; [done|]. simpl.
    by rewrite decide_True by (by apply Hrest).
  - by rewrite decide_False, IH by done.
Qed.

Lemma before_EOF_all (tokens : list token) :
  Forall (λ tok : token, tok.1 ≠ EOF) tokens → before_EOF tokens = tokens.
Proof.
  intros Hf. rewrite <-(app_nil_r tokens) at 1. by apply before_EOF_app.
Qed.

Lemma parse_leaves (fuel : nat) (tokens : list token) (tr : tree)
    (self' : parser) :
  JsonParser_parse fuel tokens = Return tr self' →
  leaves tr = (before_EOF tokens).*2.
Proof.
  unfold JsonParser_parse. destruct tokens as [|tok rest]; [done|].
  rewrite Parser_init_nonempty. set (tokens := tok :: rest).
  set (self0 := mkParser tokens 0 (Some tok.1)).
  assert (wf self0) as Hwf0 by done.
  unfold parse. intros Hparse. invert_parse.
  destruct (parse_methods_consume fuel) as (_ & Hobj & _).
  match goal with
  | H : parse_obj fuel self0 = Return _ _ |- _ =>
      apply (Hobj _ _ _ Hwf0) in H
        as (Hwf1 & Htok1 & toks & Hdrop & Hpos & Hf & ->)
  end.
  match goal with
  | H : match_ EOF _ = Return _ _ |- _ =>
      rewrite match_spec in H by done; case_decide as Hcur; [clear H|done]
  end.
  simpl in Hdrop. fold tokens in Hdrop.
  match type of Hdrop with
  | _ = (_ ++ ?r)%list => assert (before_EOF (toks ++ r) = toks) as Hb
  end.
  { apply before_EOF_app; [done|].
    intros tok1. rewrite lookup_drop, Nat.add_0_r. intros Htok.
    unfold current in Hcur. rewrite Htok1 in Hcur. simpl in Hcur.
    by rewrite Htok in Hcur. }
  rewrite <-Hdrop in Hb. by rewrite Hb.
Qed.

(** *** Fuel *)

(** [f] returns or raises as [g] does, unless [f] runs out of fuel. *)
Definition below {A : Type} (f g : parser → outcome A) : Prop :=
  ∀ self, f self = Diverged ∨ f self = g self.

Lemma below_refl {A : Type} (f : parser → outcome A) : below f f.
Proof. intros self. by right. Qed.

Lemma bindP_below {A B : Type} (m m' : parser → outcome A)
    (f f' : A → parser → outcome B) :
  below m m' → (∀ a, below (f a) (f' a)) → below (bindP m f) (bindP m' f').
Proof.
  intros Hm Hf self. unfold bindP. destruct (Hm self) as [->| <-]; [by left|].
  destruct (m self) as [a self1| |]; [apply Hf | by right | by left].
Qed.

Ltac below_step :=
  repeat first
    [ apply below_refl
    | assumption
    | apply bindP_below; [|intros ?]
    | match goal with |- below (if decide ?P then _ else _) _ => destruct (decide P) end ].

Lemma parse_methods_fuel_mono (fuel fuel' : nat) :
  (fuel ≤ fuel')%nat →
  below (parse_keyvalue fuel) (parse_keyvalue fuel') ∧
  below (parse_obj fuel) (parse_obj fuel') ∧
  below (parse_obj_right_set fuel) (parse_obj_right_set fuel') ∧
  below (parse_obj_right_arr fuel) (parse_obj_right_arr fuel') ∧
  below (parse_members_set fuel) (parse_members_set fuel') ∧
  below (parse_members_arr fuel) (parse_members_arr fuel') ∧
  below (parse_members_right_set fuel) (parse_members_right_set fuel') ∧
  below (parse_members_right_arr fuel) (parse_members_right_arr fuel') ∧
  below (parse_value fuel) (parse_value fuel').
Proof.
  revert fuel'. induction fuel as [|fuel IH]; intros fuel' Hle.
  - split_and!; intros self; by left.
  - destruct fuel' as [|fuel']; [lia|].
    destruct (IH fuel' ltac:(lia)) as (? & ? & ? & ? & ? & ? & ? & ? & ?).
    split_and!; simpl; below_step.
Qed.

(** The number of tokens from the current position on. *)
Definition remaining (self : parser) : nat :=
  (length (tokens self) - Z.to_nat (pos self))%nat.

Lemma consumed_remaining self self' vals :
  consumed self self' vals →
  remaining self = (length vals + remaining self')%nat.
Proof.
  intros (_ & Htok & toks & Hdrop & _ & _ & ->). unfold remaining.
  apply (f_equal length) in Hdrop.
  rewrite length_app, !length_drop in Hdrop. rewrite length_fmap, Htok. lia.
Qed.

Lemma bindP_not_Diverged {A B : Type} (m : parser → outcome A)
    (f : A → parser → outcome B) (self : parser) :
  m self ≠ Diverged →
  (∀ a self1, m self = Return a self1 → f a self1 ≠ Diverged) →
  bindP m f self ≠ Diverged.
Proof.
  intros Hm Hf. unfold bindP. destruct (m self) as [a self1| |]; [by apply Hf|done..].
Qed.

Lemma get_t_not_Diverged self : get_t self ≠ Diverged.
Proof. unfold get_t. by destruct (t self). Qed.

Lemma no_rule_not_Diverged {A : Type} self : @no_rule A self ≠ Diverged.
Proof. unfold no_rule, bindP, get_t, raiseP. by destruct (t self). Qed.

Lemma match_not_Diverged terminal self : wf self → match_ terminal self ≠ Diverged.
Proof. intros Hwf. rewrite match_spec by done. by case_decide. Qed.

(** With [4 * remaining + k] units of fuel, [g] does not run out. *)
Definition finishes (k : nat) (g : parser → outcome tree) (fuel : nat) : Prop :=
  ∀ self, wf self → (4 * remaining self + k ≤ fuel)%nat → g self ≠ Diverged.

Ltac finish_step :=
  repeat match goal with
  | |- bindP _ _ _ ≠ Diverged =>
      apply bindP_not_Diverged; [|intros ? ? ?; cbv beta]
  | |- (if decide ?P then _ else _) _ ≠ Diverged => destruct (decide P)
  | |- get_t _ ≠ Diverged => apply get_t_not_Diverged
  | |- match_ _ _ ≠ Diverged => by apply match_not_Diverged
  | |- retP _ _ ≠ Diverged => done
  | |- no_rule _ ≠ Diverged => apply no_rule_not_Diverged
  | IH : finishes _ ?g _ |- ?g _ ≠ Diverged => apply IH; [assumption | lia]
  | H : get_t _ = Return _ _ |- _ => apply get_t_Return in H as [-> ?]
  | Hwf : wf ?s, H : match_ _ ?s = Return _ _ |- _ =>
      apply (match_consumed _ _ _ _ Hwf) in H;
      [pose proof (consumed_wf _ _ _ H); apply consumed_remaining in H;
       simpl in H
      | set_solver]
  | Hwf : wf ?s, IH : parses ?f, H : ?f ?s = Return _ _ |- _ =>
      apply (IH _ _ _ Hwf) in H; pose proof (consumed_wf _ _ _ H);
      apply consumed_remaining in H
  end.

Lemma parse_methods_finish (fuel : nat) :
  finishes 1 (parse_keyvalue fuel) fuel ∧
  finishes 1 (parse_obj fuel) fuel ∧
  finishes 4 (parse_obj_right_set fuel) fuel ∧
  finishes 4 (parse_obj_right_arr fuel) fuel ∧
  finishes 3 (parse_members_set fuel) fuel ∧
  finishes 3 (parse_members_arr fuel) fuel ∧
  finishes 1 (parse_members_right_set fuel) fuel ∧
  finishes 1 (parse_members_right_arr fuel) fuel ∧
  finishes 2 (parse_value fuel) fuel.
Proof.
  induction fuel as [|fuel (IH1 & IH2 & IH3 & IH4 & IH5 & IH6 & IH7 & IH8 & IH9)].
  - split_and!; intros self _ Hfuel; lia.
  - destruct (parse_methods_consume fuel)
      as (P1 & P2 & P3 & P4 & P5 & P6 & P7 & P8 & P9).
    split_and!; intros self Hwf Hfuel; simpl; finish_step.
Qed.

Lemma JsonParser_parse_finishes (tokens : list token) (fuel : nat) :
  (4 * length tokens + 1 ≤ fuel)%nat → JsonParser_parse fuel tokens ≠ Diverged.
Proof.
  intros Hfuel. unfold JsonParser_parse. destruct tokens as [|tok rest]; [done|].
  rewrite Parser_init_nonempty. unfold parse.
  set (self0 := mkParser (tok :: rest) 0 (Some tok.1)).
  assert (wf self0) as Hwf0 by done.
  destruct (parse_methods_finish fuel) as (_ & Hobj & _).
  destruct (parse_methods_consume fuel) as (_ & Pobj & _).
  apply bindP_not_Diverged; [apply Hobj; [done|unfold remaining; simpl in *; lia]|].
  intros result self1 Hres. apply (Pobj _ _ _ Hwf0) in Hres.
  apply consumed_wf in Hres. finish_step.
Qed.

(** *** Statements about the parser *)

(** C7 fails on the code: [grammar_json_6] of grammar.py has the rule
    [members_arr → keyvalue members_right_arr], whose SELECT set is
    [{STRING}], but [parse_members_arr] takes its branch on [INT] as well
    (its guard is [[STRING, INT, LB, LS]]) and parses a [value] there; the
    same guard stands before the branch of [parse_obj_right_arr] for
    [obj_right_arr → members_arr RS], whose SELECT set is [{STRING}] too. *)
Theorem parse_members_arr_not_select :
  (∃ nullable first follow select,
     Grammar.analysis Grammar.grammar_json_6
       = Ok (nullable, first, follow, select) ∧
     select !! (members_arr, [keyvalue; members_right_arr])
       = Some {[STRING]} ∧
     select !! (obj_right_arr, [members_arr; RS]) = Some {[STRING]}) ∧
  parse_members_arr 2
    (mkParser [(INT, VInt 1); (RS, VStr "]")] 0 (Some INT)) =
  Return (Node members_arr [Node value [Leaf (VInt 1)];
                            Node members_right_arr []])
    (mkParser [(INT, VInt 1); (RS, VStr "]")] 1 (Some RS)).
Proof.
  split; [|vm_compute; reflexivity].
  assert ((Grammar.analysis Grammar.grammar_json_6 ≫=
           λ '(_, _, _, sel),
             Ok (sel !! (members_arr, [keyvalue; members_right_arr]),
                 sel !! (obj_right_arr, [members_arr; RS])))
          = Ok (Some {[STRING]}, Some {[STRING]})) as Hsel
    by (vm_compute; reflexivity).
  destruct (Grammar.analysis Grammar.grammar_json_6)
    as [[[[nullable first] follow] sel]| |]; [|discriminate Hsel..].
  exists nullable, first, follow, sel. split; [reflexivity|].
  simpl in Hsel. injection Hsel as -> ->. split; reflexivity.
Qed.

(** C8 fails on the code for the empty token list: the first [advance],
    called by [__init__] with [pos = -1], reads [tokens[-1]]. *)
Theorem Parser_init_empty :
  Parser_init [] = Raised IndexError (mkParser [] (-1) None).
Proof. reflexivity. Qed.

(** On a non-empty token list the constructor returns, every later
    [advance] returns, and at or past the end of the list the lookahead is
    [EOF] and [advance] returns [EOF]. *)
Lemma advance_past_end (self : parser) :
  reachable self →
  (∃ value self', advance self = Return value self' ∧ reachable self') ∧
  (Z.of_nat (length (tokens self)) ≤ pos self →
   t self = Some EOF ∧
   ∃ self', advance self = Return (VStr EOF) self').
Proof.
  intros Hreach. pose proof (reachable_wf self Hreach) as [Hpos Ht].
  pose proof (advance_spec self Hpos) as Hadv. split.
  - eexists _, _. split; [done|]. by eapply reachable_advance.
  - intros Hend. unfold current in *.
    rewrite lookup_ge_None_2 in Hadv, Ht by lia. eauto.
Qed.

(** What [match(terminal)] does when called on [self]: the contract of
    C10, with the case of the exhausted tokens that the code adds. *)
Definition match_contract (self : parser) (terminal : string) : Prop :=
  ((∃ msg, match_ terminal self = Raised (SyntaxError msg) self) ↔
   t self ≠ Some terminal) ∧
  (∀ e self', match_ terminal self = Raised e self' →
     (∃ msg, e = SyntaxError msg) ∧ self' = self) ∧
  match_ terminal self ≠ Diverged ∧
  (∀ value self', match_ terminal self = Return value self' →
     t self = Some terminal ∧
     pos self' = pos self + 1 ∧ tokens self' = tokens self ∧
     (tokens self !! Z.to_nat (pos self) = Some (terminal, value) ∨
      (Z.of_nat (length (tokens self)) ≤ pos self ∧
       terminal = EOF ∧ value = VStr EOF))).

(** Once the tokens are exhausted the lookahead is [EOF] and [match(EOF)]
    returns: the value it returns is the string [EOF], which no token of
    the list carries, and no token is matched.  The state is the one after
    [Parser([(LB, "{")])] and [match(LB)]. *)
Lemma match_EOF_past_end :
  ∃ self value self',
    reachable self ∧
    match_ EOF self = Return value self' ∧
    value = VStr EOF ∧
    pos self' = pos self + 1 ∧
    tokens self !! Z.to_nat (pos self) = None ∧
    ∀ tok, tok ∈ tokens self → tok.2 ≠ value.
Proof.
  exists (mkParser [(LB, VStr "{")] 1 (Some EOF)), (VStr EOF),
    (mkParser [(LB, VStr "{")] 2 (Some EOF)).
  split_and!; try done.
  - apply (reachable_match (mkParser [(LB, VStr "{")] 0 (Some LB)) LB
             (VStr "{")); [|reflexivity].
    by apply (reachable_init [(LB, VStr "{")]).
  - intros tok [->|[]%elem_of_nil]%elem_of_cons. done.
Qed.

(** C10, as the code has it: in every state reached by construction and
    calls that returned, [match(terminal)] raises [SyntaxError] exactly when
    the lookahead differs from [terminal]; raising leaves the object as it
    was; returning moves [pos] by one and yields the value of the token at
    [pos], or, once the tokens are exhausted, where only [match(EOF)]
    returns, the string [EOF]. *)
Theorem match_raises_iff_lookahead_differs (self : parser) (terminal : string) :
  reachable self → match_contract self terminal.
Proof.
  intros Hreach. pose proof (reachable_wf self Hreach) as Hwf.
  pose proof Hwf as [Hpos Ht].
  unfold match_contract. rewrite (match_spec terminal self Hwf), Ht.
  destruct (decide ((current (tokens self) (pos self)).1 = terminal)) as [Heq|Hne].
  - split_and!; try done.
    + split; [by intros [? ?]|]. intros Hdiff. destruct Hdiff. by rewrite Heq.
    + intros value self' [= <- <-]. simpl. split; [by rewrite Heq|].
      split; [done|]. split; [done|]. unfold current in *.
      destruct (tokens self !! Z.to_nat (pos self)) as [[tk v]|] eqn:Htok.
      * left. simpl in *. by subst.
      * right. apply lookup_ge_None_1 in Htok. simpl in *. split; [lia|done].
  - split_and!; try done.
    + split; [intros _; congruence | eauto].
    + intros e self' [= <- <-]. eauto.
Qed.

Lemma match_raises_iff_lookahead_differs_witness :
  match_contract (mkParser [(LB, VStr "{"); (RB, VStr "}")] 0 (Some LB)) RB.
Proof.
  apply match_raises_iff_lookahead_differs.
  apply (reachable_init [(LB, VStr "{"); (RB, VStr "}")]). reflexivity.
Defined.

(** A token list that carries an [EOF] token before its end. *)
Definition tokens_with_EOF : list token :=
  [(LB, VStr "{"); (RB, VStr "}"); (EOF, VStr "$"); (INT, VInt 5)].

(** On [tokens_with_EOF] the parse returns a tree whose leaves are the first
    two values only. *)
Lemma parse_stops_at_EOF_token :
  ∃ tr self',
    JsonParser_parse 2 tokens_with_EOF = Return tr self' ∧
    leaves tr = [VStr "{"; VStr "}"] ∧
    leaves tr ≠ tokens_with_EOF.*2 ∧
    leaves tr ≠ (filter (λ tok : token, tok.1 ≠ EOF) tokens_with_EOF).*2.
Proof. eexists _, _. split; [by vm_compute|]. by split_and!. Qed.

(** C9, as the code has it: when [JsonParser(tokens).parse()] returns a
    tree, its leaves, left to right, are the values of the tokens that come
    before the first token whose terminal is [EOF]: all the values of the
    list when no token carries [EOF]. *)
Theorem parse_leaves_are_token_values (fuel : nat) (tokens : list token)
    (tr : tree) (self' : parser) :
  JsonParser_parse fuel tokens = Return tr self' →
  leaves tr = (before_EOF tokens).*2 ∧
  (Forall (λ tok : token, tok.1 ≠ EOF) tokens → leaves tr = tokens.*2).
Proof.
  intros Hparse. apply parse_leaves in Hparse. split; [done|].
  intros Hf. by rewrite Hparse, before_EOF_all.
Qed.

Lemma parse_leaves_are_token_values_witness :
  ∃ tr,
    leaves tr = (before_EOF [(LB, VStr "{"); (RB, VStr "}")]).*2 ∧
    (Forall (λ tok : token, tok.1 ≠ EOF) [(LB, VStr "{"); (RB, VStr "}")] →
     leaves tr = [(LB, VStr "{"); (RB, VStr "}")].*2).
Proof.
  eexists.
  eapply (parse_leaves_are_token_values 2 [(LB, VStr "{"); (RB, VStr "}")]).
  vm_compute. reflexivity.
Defined.

End ParserFacts.

(** ** More about the nullable set *)

Module NullableExtras.
Import Symbols Grammar NullableFacts.

(** [X] derives the empty string: it heads a rule whose body symbols all
    derive the empty string. *)
Inductive derives_empty (grammar : list rule) : string → Prop :=
| derives_empty_rule head body :
    (head, body) ∈ grammar →
    (∀ X, X ∈ body → derives_empty grammar X) →
    derives_empty grammar head.

Section derivable.
Context (grammar : list rule).

Definition derivable (nullable : gset string) : Prop :=
  ∀ X, X ∈ nullable → derives_empty grammar X.

Lemma nullable_epsilon_derivable l nullable :
  l ⊆ grammar → derivable nullable →
  derivable (foldl nullable_epsilon nullable l).
Proof.
  revert nullable. induction l as [|[head body] l IH]; intros nullable Hl Hd; [done|].
  simpl. apply IH; [set_solver|]. case_decide as Hb; [|done]. subst body.
  intros X [->%elem_of_singleton|HX]%elem_of_union; [|by apply Hd].
  apply (derives_empty_rule grammar head []); [set_solver|].
  intros Y HY. by apply elem_of_nil in HY.
Qed.

Lemma nullable_step_derivable r :
  r ∈ grammar →
  step_ok derivable (todo grammar) (λ st, Ok (nullable_step st r)).
Proof.
  destruct r as [head body]. intros Hr nullable ch Hd. simpl.
  case_decide as Hc; [|eexists _, _; eauto].
  destruct Hc as [Hsub Hnew]. eexists _, _. split; [done|]. split.
  - intros X [->%elem_of_singleton|HX]%elem_of_union; [|by apply Hd].
    apply (derives_empty_rule grammar head body Hr).
    intros Y HY. apply Hd, Hsub. by apply elem_of_list_to_set.
  - right. split; [done|]. unfold todo. apply subset_size.
    pose proof (head_in_heads grammar _ _ Hr). set_solver.
Qed.

Lemma calculate_nullable_derivable terminals nonterminals :
  ∃ nullable,
    calculate_nullable terminals nonterminals grammar = Ok nullable ∧
    derivable nullable.
Proof.
  unfold calculate_nullable.
  destruct (while_changing_ok derivable (todo grammar) (nullable_pass grammar)
    (Datatypes.S (length grammar)) (foldl nullable_epsilon ∅ grammar))
    as (nullable & Hw & Hd & _); [| | |by eauto].
  - intros nullable Hd. rewrite nullable_pass_foldM.
    destruct (step_ok_foldM derivable (todo grammar)
                (λ st r, Ok (nullable_step st r)) grammar
                (λ r Hr, nullable_step_derivable r Hr) nullable false Hd)
      as (s' & ch' & Hf & Hs' & Hc).
    exists s', ch'. split; [done|]. split; [done|].
    destruct Hc as [[-> ->]|[-> ?]]; eauto.
  - apply nullable_epsilon_derivable; [done|]. intros X HX. set_solver.
  - pose proof (todo_bound grammar (foldl nullable_epsilon ∅ grammar)). lia.
Qed.

Lemma closed_derives_empty (M : gset string) X :
  nullable_closed grammar M → derives_empty grammar X → X ∈ M.
Proof.
  intros HM. induction 1 as [head body Hr _ IH]. by apply (HM head body).
Qed.

End derivable.

Lemma calculate_nullable_closed_least grammar terminals nonterminals :
  ∃ nullable,
    calculate_nullable terminals nonterminals grammar = Ok nullable ∧
    nullable_closed grammar nullable ∧
    ∀ M, nullable_closed grammar M → nullable ⊆ M.
Proof.
  destruct (calculate_nullable_ok grammar terminals nonterminals)
    as (nullable & Hcalc & Hs & Hpass).
  exists nullable. split; [done|]. split; [by apply nullable_pass_stable|].
  intros M HM X HX. by apply (Hs X HX).
Qed.

(** X1: the set [calculate_nullable] returns holds exactly the symbols that
    derive the empty string in the grammar. *)
Theorem calculate_nullable_derives_empty
    (terminals nonterminals : gset string) (grammar : list rule) :
  ∃ nullable,
    calculate_nullable terminals nonterminals grammar = Ok nullable ∧
    ∀ X, X ∈ nullable ↔ derives_empty grammar X.
Proof.
  destruct (calculate_nullable_derivable grammar terminals nonterminals)
    as (nullable & Hcalc & Hd).
  destruct (calculate_nullable_closed_least grammar terminals nonterminals)
    as (nullable' & Hcalc' & Hclosed & _).
  rewrite Hcalc in Hcalc'. injection Hcalc' as <-.
  exists nullable. split; [done|]. intros X. split; [apply Hd|].
  by apply closed_derives_empty.
Qed.

(** X2: the nullable set depends on the rules as a set only: a grammar whose
    rules all occur in a second one has a smaller nullable set, and two
    grammars with the same rules, in any order and with any repetitions,
    have the same. *)
Theorem calculate_nullable_monotone
    (terminals nonterminals terminals' nonterminals' : gset string)
    (grammar grammar' : list rule) :
  (∀ r, r ∈ grammar → r ∈ grammar') →
  ∃ nullable nullable',
    calculate_nullable terminals nonterminals grammar = Ok nullable ∧
    calculate_nullable terminals' nonterminals' grammar' = Ok nullable' ∧
    nullable ⊆ nullable' ∧
    ((∀ r, r ∈ grammar' → r ∈ grammar) → nullable = nullable').
Proof.
  intros Hsub.
  destruct (calculate_nullable_closed_least grammar terminals nonterminals)
    as (nullable & Hcalc & Hclosed & Hleast).
  destruct (calculate_nullable_closed_least grammar' terminals' nonterminals')
    as (nullable' & Hcalc' & Hclosed' & Hleast').
  exists nullable, nullable'. split; [done|]. split; [done|].
  assert (nullable ⊆ nullable') as Hle.
  { apply Hleast. intros head body Hr. apply Hclosed'. by apply Hsub. }
  split; [done|]. intros Hsup. apply (anti_symm (⊆)); [done|].
  apply Hleast'. intros head body Hr. apply Hclosed. by apply Hsup.
Qed.

Lemma calculate_nullable_monotone_witness :
  ∃ nullable nullable',
    calculate_nullable ∅ ∅ [(EP, [])] = Ok nullable ∧
    calculate_nullable ∅ ∅ [(E, [EP]); (EP, []); (EP, [])] = Ok nullable' ∧
    nullable ⊆ nullable' ∧
    ((∀ r, r ∈ [(E, [EP]); (EP, []); (EP, [])] → r ∈ [(EP, [])]) →
     nullable = nullable').
Proof.
  apply (calculate_nullable_monotone ∅ ∅ ∅ ∅
           [(EP, [])] [(E, [EP]); (EP, []); (EP, [])]).
  intros r Hr. apply list_elem_of_singleton in Hr as ->.
  apply list_elem_of_further, list_elem_of_here.
Defined.

End NullableExtras.

(** ** More about the symbols, FIRST and SELECT *)

Module AnalysisExtras.
Import Symbols Grammar SetsFacts AnalysisFacts NullableFacts NullableExtras.

Lemma find_step_exact (l : list rule) (symbols nonterminals : gset string) :
  let st := foldl find_step (symbols, nonterminals) l in
  (∀ X, X ∈ st.1 ↔ X ∈ symbols ∨ ∃ A body, (A, body) ∈ l ∧ X ∈ body) ∧
  (∀ X, X ∈ st.2 ↔ X ∈ nonterminals ∨ ∃ body, (X, body) ∈ l).
Proof.
  revert symbols nonterminals. induction l as [|[h b] l IH]; intros sy nt; simpl.
  - split; intros X; (split; [by left|]).
    + intros [?|(A & body & Hr & _)]; [done|]. by apply elem_of_nil in Hr.
    + intros [?|(body & Hr)]; [done|]. by apply elem_of_nil in Hr.
  - destruct (IH (sy ∪ list_to_set b) ({[h]} ∪ nt)) as [Hsy Hnt].
    split; intros X.
    + rewrite Hsy, elem_of_union, elem_of_list_to_set. split.
      * intros [[?|?]|(A & body & Hr & HX)]; [by left| |]; right.
        -- exists h, b. split; [by left|done].
        -- exists A, body. split; [by right|done].
      * intros [?|(A & body & [[= -> ->]|Hr]%elem_of_cons & HX)];
          [by left; left|by left; right|].
        right. by exists A, body.
    + rewrite Hnt, elem_of_union, elem_of_singleton. split.
      * intros [[->|?]|(body & Hr)]; [|by left|]; right.
        -- exists b. by left.
        -- exists body. by right.
      * intros [?|(body & [[= -> ->]|Hr]%elem_of_cons)];
          [by left; right|by left; left|].
        right. by exists body.
Qed.

(** X3: [find_terminals_and_nonterminals] splits the symbols of a grammar
    in two: the nonterminals are the symbols that head a rule, and the
    terminals are the symbols of the bodies that head no rule. *)
Theorem find_terminals_and_nonterminals_partition (grammar : list rule) :
  ∃ terminals nonterminals,
    find_terminals_and_nonterminals grammar = (terminals, nonterminals) ∧
    (∀ X, X ∈ nonterminals ↔ ∃ body, (X, body) ∈ grammar) ∧
    (∀ t, t ∈ terminals ↔
          (∃ A body, (A, body) ∈ grammar ∧ t ∈ body) ∧
          ¬ ∃ body, (t, body) ∈ grammar) ∧
    terminals ## nonterminals.
Proof.
  unfold find_terminals_and_nonterminals.
  pose proof (find_step_exact grammar ∅ ∅) as [Hsy Hnt].
  destruct (foldl find_step (∅, ∅) grammar) as [sy nt]. simpl in *.
  eexists _, _. split; [done|].
  assert (∀ X, X ∈ nt ↔ ∃ body, (X, body) ∈ grammar) as Hnt'.
  { intros X. rewrite Hnt. set_solver. }
  split; [done|]. split; [|set_solver].
  intros t. rewrite elem_of_difference, Hsy, Hnt'. set_solver.
Qed.

(** *** FIRST *)

(** [x] can begin a string derived from [X]: [X] is the terminal [x], or
    [X] heads a rule in which a symbol that [x] can begin comes after
    symbols that all derive the empty string. *)
Inductive begins (grammar : list rule) : string → string → Prop :=
| begins_terminal t :
    t ∈ terminals_of grammar → begins grammar t t
| begins_rule A body i X x :
    (A, body) ∈ grammar → body !! i = Some X →
    (∀ Y, Y ∈ take i body → derives_empty grammar Y) →
    begins grammar X x →
    begins grammar A x.

(** What is asked of a family [Q] of FIRST sets: [Q t t] for a terminal,
    and [Q X x → Q A x] when [X] stands in a rule of [A] after nullable
    symbols only. *)
Definition first_closed (T : gset string) (grammar : list rule)
    (nullable : gset string) (Q : string → string → Prop) : Prop :=
  (∀ t, t ∈ T → Q t t) ∧
  (∀ A body i X x, (A, body) ∈ grammar → body !! i = Some X →
     is_nullable (take i body) nullable = true → Q X x → Q A x).

Section first.
Context (T N : gset string) (grammar : list rule) (nullable : gset string).
Context (Q : string → string → Prop).
Hypothesis Hscoped : scoped T N grammar.
Hypothesis Hdisj : T ## N.
Hypothesis HQ : first_closed T grammar nullable Q.

Definition first_low (k : string) : gset string :=
  if decide (k ∈ T) then {[k]} else ∅.
Definition first_high (k : string) : gset string :=
  if decide (k ∈ T) then {[k]} else T.

(** The sharper invariant of the FIRST loop: the set of a terminal is the
    terminal alone, the set of a nonterminal holds terminals only, and
    every set stays inside [Q]. *)
Definition first_sharp (d : sets) : Prop :=
  bounded (T ∪ N) first_low first_high d ∧
  ∀ k X x, d !! k = Some X → x ∈ X → Q k x.

Lemma first_high_T k : first_high k ⊆ T.
Proof. unfold first_high. case_decide; set_solver. Qed.

Lemma first_init_sharp : first_sharp (first_init T N).
Proof.
  unfold first_init.
  pose proof (set_fold_insert_dom (λ t, {[t]}) ∅ T) as [Hd1 Hl1].
  pose proof (set_fold_insert_dom (λ _, ∅)
    (set_fold (λ t d, <[t := {[t]}]> d) (∅ : sets) T) N) as [Hd2 Hl2].
  simpl in *. split; [split|].
  - rewrite Hd2, Hd1, dom_empty_L. set_solver.
  - intros k Y [[Hk ->]|[Hk [[Hk' ->]|[_ ?]]%Hl1]]%Hl2; [| |done];
      unfold first_low, first_high.
    + rewrite !decide_False by set_solver. set_solver.
    + by rewrite !decide_True by done.
  - intros k Y x [[Hk ->]|[Hk [[Hk' ->]|[_ ?]]%Hl1]]%Hl2; [set_solver| |done].
    intros ->%elem_of_singleton. by apply HQ.
Qed.

Lemma add_all_sharp (src : gset string) (k : string) (d : sets) (ch : bool) :
  first_sharp d → k ∈ T ∪ N → src ⊆ first_high k → (∀ x, x ∈ src → Q k x) →
  ∃ d' ch', add_all src k (d, ch) = Ok (d', ch') ∧ first_sharp d' ∧
    ((d' = d ∧ ch' = ch) ∨ (ch' = true ∧ room (T ∪ N) T d' < room (T ∪ N) T d)).
Proof.
  intros [Hb Hq] Hk Hsrc HsrcQ.
  destruct (add_all_step_ok (T ∪ N) T first_low first_high first_high_T
    src k d ch Hb Hk Hsrc) as (d' & ch' & Hadd & Hb' & Hc).
  exists d', ch'. split; [done|]. split; [|done]. split; [done|].
  destruct (bounded_lookup _ _ _ d k Hb Hk) as (tgt & Htgt & _).
  destruct (add_all_spec src k d ch tgt Htgt) as (ch'' & Hadd' & _).
  rewrite Hadd in Hadd'. injection Hadd' as -> _.
  intros k' X x. rewrite lookup_insert. case_decide as Hkk; [|by apply Hq].
  subst k'. intros [= <-] [Hx|Hx]%elem_of_union; [by apply (Hq k tgt)|by apply HsrcQ].
Qed.

Lemma first_at_sharp head body i :
  (head, body) ∈ grammar → i < length body →
  step_ok first_sharp (room (T ∪ N) T) (λ st, first_at nullable head body st i).
Proof.
  intros Hr Hi d ch Hd. unfold first_at.
  destruct (is_nullable (take i body) nullable) eqn:Hn; [|by eapply step_ok_skip].
  destruct (index_Ok body i Hi) as (X & HX & ->). rewrite bind_Ok.
  destruct (Hscoped _ _ Hr) as [Hhead Hbody]. pose proof Hd as [Hb Hq].
  destruct (bounded_lookup _ _ _ d X Hb) as (src & Hsrc & _ & HsrcT).
  { apply Hbody. by eapply list_elem_of_lookup_2. }
  simpl. unfold dict_get. rewrite Hsrc, bind_Ok.
  apply add_all_sharp; [done | set_solver | |].
  - pose proof (first_high_T X). unfold first_high at 1.
    rewrite decide_False by set_solver. set_solver.
  - intros x Hx. destruct HQ as [_ HQr].
    apply (HQr head body i X x Hr HX Hn). by apply (Hq X src).
Qed.

Lemma first_rule_sharp r :
  r ∈ grammar →
  step_ok first_sharp (room (T ∪ N) T) (λ st, first_rule nullable st r).
Proof.
  destruct r as [head body]. intros Hr. unfold first_rule.
  apply step_ok_foldM. intros i Hi%elem_of_seq. apply first_at_sharp; [done|lia].
Qed.

Lemma calculate_first_sharp :
  ∃ first, calculate_first T N grammar nullable = Ok first ∧
    first_sharp first ∧ first_pass grammar nullable first = Ok (first, false).
Proof.
  unfold calculate_first.
  apply (while_changing_ok first_sharp (room (T ∪ N) T)).
  - intros d Hd.
    destruct (step_ok_foldM first_sharp (room (T ∪ N) T) (first_rule nullable)
                grammar first_rule_sharp d false Hd) as (d' & ch' & Hf & Hd' & Hc).
    exists d', ch'. split; [done|]. split; [done|].
    destruct Hc as [[-> ->]|[-> ?]]; eauto.
  - apply first_init_sharp.
  - pose proof (room_bound (T ∪ N) T (first_init T N)). lia.
Qed.

(** A pass that changes nothing: FIRST of a symbol that stands after
    nullable symbols only lies in FIRST of the head. *)
Lemma first_stable first A body i X :
  first_sharp first →
  first_pass grammar nullable first = Ok (first, false) →
  (A, body) ∈ grammar → body !! i = Some X →
  is_nullable (take i body) nullable = true →
  first !!! X ⊆ first !!! A.
Proof.
  intros Hinv Hpass Hr HX Hn. unfold first_pass in Hpass.
  apply (foldM_quiet first_sharp (room (T ∪ N) T)) in Hpass as [_ Hall];
    [|exact first_rule_sharp|done].
  specialize (Hall _ Hr). unfold first_rule in Hall.
  apply (foldM_quiet first_sharp (room (T ∪ N) T)) in Hall as [_ Hat];
    [| intros k Hk%elem_of_seq; apply first_at_sharp; [done|lia] | done].
  pose proof (lookup_lt_Some _ _ _ HX) as Hi.
  assert (i ∈ seq 0 (length body)) as Hi' by (apply elem_of_seq; lia).
  specialize (Hat i Hi'). unfold first_at, index in Hat.
  rewrite Hn, HX, bind_Ok in Hat. simpl in Hat.
  destruct (Hscoped _ _ Hr) as [HA Hbody]. destruct Hinv as [Hb _].
  destruct (bounded_lookup _ _ _ first X Hb) as (src & Hsrc & _).
  { apply Hbody. by eapply list_elem_of_lookup_2. }
  destruct (bounded_lookup _ _ _ first A Hb) as (tgt & Htgt & _); [set_solver|].
  unfold dict_get in Hat. rewrite Hsrc, bind_Ok in Hat.
  rewrite (lookup_total_correct _ _ _ Hsrc), (lookup_total_correct _ _ _ Htgt).
  by apply (add_all_quiet _ _ _ tgt Hat Htgt).
Qed.

End first.

Lemma first_closed_top T grammar nullable :
  first_closed T grammar nullable (λ _ _, True).
Proof. by split. Qed.

(** The analysis of a grammar up to FIRST, with the FIRST sets inside a
    closed family [Q]. *)
Lemma first_of_grammar (grammar : list rule) :
  ∃ nullable first,
    calculate_nullable (terminals_of grammar) (nonterminals_of grammar)
      grammar = Ok nullable ∧
    nullable_closed grammar nullable ∧
    (∀ X, X ∈ nullable → derives_empty grammar X) ∧
    calculate_first (terminals_of grammar) (nonterminals_of grammar)
      grammar nullable = Ok first ∧
    first_pass grammar nullable first = Ok (first, false) ∧
    ∀ Q, first_closed (terminals_of grammar) grammar nullable Q →
      first_sharp (terminals_of grammar) (nonterminals_of grammar) Q first.
Proof.
  destruct (find_scoped grammar) as [Hscoped Hdisj].
  set (T := terminals_of grammar) in *. set (N := nonterminals_of grammar) in *.
  destruct (calculate_nullable_closed_least grammar T N)
    as (nullable & Hnullable & Hclosed & _).
  destruct (calculate_nullable_derivable grammar T N) as (nullable' & Hn' & Hder).
  rewrite Hnullable in Hn'. injection Hn' as <-.
  destruct (calculate_first_sharp T N grammar nullable (λ _ _, True) Hscoped Hdisj
    (first_closed_top _ _ _)) as (first & Hfirst & _ & Hpass).
  exists nullable, first. split_and!; try done.
  intros Q HQ.
  destruct (calculate_first_sharp T N grammar nullable Q Hscoped Hdisj HQ)
    as (first' & Hfirst' & Hsharp & _).
  rewrite Hfirst in Hfirst'. by injection Hfirst' as <-.
Qed.

(** X4: FIRST has the terminals and nonterminals of the grammar as keys;
    the set of a terminal is that terminal alone and the set of a
    nonterminal holds terminals only. *)
Theorem calculate_first_shape (grammar : list rule) :
  ∃ nullable first,
    calculate_nullable (terminals_of grammar) (nonterminals_of grammar)
      grammar = Ok nullable ∧
    calculate_first (terminals_of grammar) (nonterminals_of grammar)
      grammar nullable = Ok first ∧
    dom first = terminals_of grammar ∪ nonterminals_of grammar ∧
    (∀ t, t ∈ terminals_of grammar → first !! t = Some {[t]}) ∧
    (∀ X S, first !! X = Some S → S ⊆ terminals_of grammar).
Proof.
  destruct (first_of_grammar grammar)
    as (nullable & first & Hn & _ & _ & Hf & _ & Hsharp).
  destruct (Hsharp _ (first_closed_top _ _ _)) as [[Hdom Hb] _].
  exists nullable, first. split_and!; try done.
  - intros t Ht. assert (t ∈ dom first) as [S HS]%elem_of_dom by set_solver.
    destruct (Hb t S HS) as [Hlow Hhigh].
    unfold first_low, first_high in *. rewrite decide_True in Hlow, Hhigh by done.
    rewrite HS. f_equal. set_solver.
  - intros X S HS. destruct (Hb X S HS) as [_ Hhigh].
    unfold first_high in Hhigh. case_decide; set_solver.
Qed.

(** X5: FIRST is the least fixed point of its rules: FIRST of a symbol
    that stands in a rule after nullable symbols only lies in FIRST of the
    head, and FIRST lies below every family of sets that has [t] in the set
    of each terminal [t] and that is closed in the same way. *)
Theorem calculate_first_least_fixed_point (grammar : list rule) :
  ∃ nullable first,
    calculate_nullable (terminals_of grammar) (nonterminals_of grammar)
      grammar = Ok nullable ∧
    calculate_first (terminals_of grammar) (nonterminals_of grammar)
      grammar nullable = Ok first ∧
    (∀ A body i X, (A, body) ∈ grammar → body !! i = Some X →
       is_nullable (take i body) nullable = true →
       first !!! X ⊆ first !!! A) ∧
    (∀ F : string → gset string,
       (∀ t, t ∈ terminals_of grammar → t ∈ F t) →
       (∀ A body i X, (A, body) ∈ grammar → body !! i = Some X →
          is_nullable (take i body) nullable = true → F X ⊆ F A) →
       ∀ X, first !!! X ⊆ F X).
Proof.
  destruct (find_scoped grammar) as [Hscoped Hdisj].
  destruct (first_of_grammar grammar)
    as (nullable & first & Hn & _ & _ & Hf & Hpass & Hsharp).
  exists nullable, first. split_and!; try done.
  - intros A body i X Hr HX Hnull.
    by apply (first_stable _ _ grammar nullable (λ _ _, True) Hscoped Hdisj
                (first_closed_top _ _ _) first A body i X
                (Hsharp _ (first_closed_top _ _ _)) Hpass).
  - intros F Ht Hrule X x Hx.
    assert (first_closed (terminals_of grammar) grammar nullable
              (λ k y, y ∈ F k)) as HQ.
    { split; [done|]. intros A body i Y y Hr HY Hnull Hy.
      by apply (Hrule A body i Y Hr HY Hnull). }
    destruct (Hsharp _ HQ) as [_ Hq].
    destruct (first !! X) as [S|] eqn:HS.
    + rewrite (lookup_total_correct _ _ _ HS) in Hx. by apply (Hq X S x HS).
    + rewrite lookup_total_alt, HS in Hx. set_solver.
Qed.

Lemma begins_in_first (grammar : list rule) (nullable : gset string)
    (first : sets) (X x : string) :
  calculate_nullable (terminals_of grammar) (nonterminals_of grammar)
    grammar = Ok nullable →
  calculate_first (terminals_of grammar) (nonterminals_of grammar)
    grammar nullable = Ok first →
  begins grammar X x → x ∈ first !!! X.
Proof.
  intros Hn0 Hf0.
  destruct (find_scoped grammar) as [Hscoped Hdisj].
  destruct (first_of_grammar grammar)
    as (nullable' & first' & Hn & Hclosed & Hder & Hf & Hpass & Hsharp).
  rewrite Hn0 in Hn. injection Hn as <-.
  rewrite Hf0 in Hf. injection Hf as <-.
  pose proof (Hsharp _ (first_closed_top _ _ _)) as Htop.
  induction 1 as [t Ht|A body i Y y Hr HY Hpre _ IH].
  - destruct Htop as [[Hdom Hb] _].
    assert (t ∈ dom first) as [S HS]%elem_of_dom by set_solver.
    destruct (Hb t S HS) as [Hlow _]. unfold first_low in Hlow.
    rewrite decide_True in Hlow by done.
    rewrite (lookup_total_correct _ _ _ HS). set_solver.
  - apply (first_stable _ _ grammar nullable (λ _ _, True) Hscoped Hdisj
             (first_closed_top _ _ _) first A body i Y Htop Hpass Hr HY);
      [|done].
    apply is_nullable_true. intros Z HZ.
    by apply (closed_derives_empty grammar nullable Z Hclosed), Hpre.
Qed.

(** X6: [x] is in FIRST of [X] exactly when [x] can begin a string derived
    from [X]. *)
Theorem calculate_first_begins (grammar : list rule) :
  ∃ nullable first,
    calculate_nullable (terminals_of grammar) (nonterminals_of grammar)
      grammar = Ok nullable ∧
    calculate_first (terminals_of grammar) (nonterminals_of grammar)
      grammar nullable = Ok first ∧
    ∀ X x, x ∈ first !!! X ↔ begins grammar X x.
Proof.
  destruct (first_of_grammar grammar)
    as (nullable & first & Hn & Hclosed & Hder & Hf & Hpass & Hsharp).
  exists nullable, first. split_and!; try done. intros X x. split.
  - intros Hx.
    assert (first_closed (terminals_of grammar) grammar nullable
              (begins grammar)) as HQ.
    { split; [by constructor|]. intros A body i Y y Hr HY Hnull Hy.
      apply (begins_rule grammar A body i Y y Hr HY); [|done].
      intros Z HZ. apply Hder. by apply (is_nullable_true (take i body)). }
    destruct (Hsharp _ HQ) as [_ Hq].
    destruct (first !! X) as [S|] eqn:HS.
    + rewrite (lookup_total_correct _ _ _ HS) in Hx. by apply (Hq X S x HS).
    + rewrite lookup_total_alt, HS in Hx. set_solver.
  - by apply (begins_in_first grammar nullable first X x Hn Hf).
Qed.

End AnalysisExtras.

(** ** More about SELECT and the LL(1) check *)

Module SelectExtras.
Import Symbols Grammar SetsFacts AnalysisFacts LL1Facts.
Import NullableFacts NullableExtras AnalysisExtras.

(** X7: the dictionary [calculate_select] returns has the rules of the
    grammar, as (head, body) values, as its keys, so a rule listed twice has
    one entry; every SELECT set holds terminals and the end marker only. *)
Theorem calculate_select_keys (r0 : rule) (rest : list rule) :
  let grammar := r0 :: rest in
  ∃ nullable first follow select,
    analysis grammar = Ok (nullable, first, follow, select) ∧
    dom select = list_to_set grammar ∧
    size select ≤ length grammar ∧
    (∀ r S, select !! r = Some S →
       S ⊆ terminals_of grammar ∪ {[EOF]}).
Proof.
  intros grammar.
  destruct (analysed_nonempty r0 rest) as (nullable & first & follow & sel & Han).
  exists nullable, first, follow, sel.
  split; [by apply (analysed_analysis _ r0.1)|].
  assert (dom sel = list_to_set grammar) as Hdom.
  { apply set_eq. intros r. rewrite elem_of_dom, elem_of_list_to_set. split.
    - intros [S HS]. destruct (decide (r ∈ grammar)) as [|Hr]; [done|].
      by rewrite (an_select_out _ _ _ _ _ _ Han r Hr) in HS.
    - intros Hr. rewrite (an_select_in _ _ _ _ _ _ Han r Hr). eauto. }
  split; [done|]. split.
  - rewrite <-size_dom, Hdom. clear. generalize grammar. intros l.
    induction l as [|a l IH].
    + by rewrite list_to_set_nil, (size_empty (C:=gset rule)).
    + rewrite list_to_set_cons, size_union_alt, size_singleton. simpl.
      apply le_n_S. etrans; [apply subseteq_size | exact IH]. set_solver.
  - intros r S HS. destruct (decide (r ∈ grammar)) as [Hr|Hr];
      [|by rewrite (an_select_out _ _ _ _ _ _ Han r Hr) in HS].
    rewrite (an_select_in _ _ _ _ _ _ Han r Hr) in HS. injection HS as <-.
    unfold select_of_rule.
    assert (first_inv (terminals_of grammar) (nonterminals_of grammar) first)
      as Hfinv.
    { split; [apply Han|]. intros k X HX. split; [set_solver|].
      by apply (an_first_terminals _ _ _ _ _ _ Han k X). }
    pose proof (first_of_sequence_terminals _ _ nullable first r.2 Hfinv).
    destruct (is_nullable r.2 nullable); [|set_solver].
    destruct (follow !! r.1) as [F|] eqn:HF.
    + rewrite (lookup_total_correct _ _ _ HF).
      pose proof (an_follow_terminals _ _ _ _ _ _ Han _ _ HF). set_solver.
    + rewrite lookup_total_alt, HF. set_solver.
Qed.

(** X8: every SELECT set of a rule of [A] lies in FIRST(A) ∪ FOLLOW(A), and
    in FIRST(A) alone when the body is not nullable. *)
Theorem calculate_select_in_first_follow (grammar : list rule) (A : string)
    (alpha : list string) :
  (A, alpha) ∈ grammar →
  ∃ nullable first follow select S,
    analysis grammar = Ok (nullable, first, follow, select) ∧
    select !! (A, alpha) = Some S ∧
    S ⊆ first !!! A ∪ follow !!! A ∧
    (is_nullable alpha nullable = false → S ⊆ first !!! A).
Proof.
  intros Hr. destruct grammar as [|r0 rest]; [by apply elem_of_nil in Hr|].
  destruct (analysed_nonempty r0 rest) as (nullable & first & follow & sel & Han).
  destruct (find_scoped (r0 :: rest)) as [Hscoped Hdisj].
  destruct (first_of_grammar (r0 :: rest))
    as (nullable' & first' & Hn & _ & _ & Hf & Hpass & Hsharp).
  rewrite (an_nullable _ _ _ _ _ _ Han) in Hn. injection Hn as <-.
  rewrite (an_first _ _ _ _ _ _ Han) in Hf. injection Hf as <-.
  exists nullable, first, follow, sel, (select_of_rule nullable first follow (A, alpha)).
  split; [by apply (analysed_analysis _ r0.1)|].
  split; [by apply (an_select_in _ _ _ _ _ _ Han)|].
  assert (first_of_sequence nullable first alpha ⊆ first !!! A) as Hseq.
  { intros x (i & X & HX & Hnull & Hx)%elem_of_first_of_sequence.
    by apply (first_stable _ _ (r0 :: rest) nullable (λ _ _, True) Hscoped Hdisj
                (first_closed_top _ _ _) first A alpha i X
                (Hsharp _ (first_closed_top _ _ _)) Hpass Hr HX Hnull). }
  unfold select_of_rule. simpl.
  split; [destruct (is_nullable alpha nullable); set_solver|].
  intros ->. set_solver.
Qed.

Lemma calculate_select_in_first_follow_witness :
  ∃ nullable first follow select S,
    analysis grammar_recitation = Ok (nullable, first, follow, select) ∧
    select !! (EP, []) = Some S ∧
    S ⊆ first !!! EP ∪ follow !!! EP ∧
    (is_nullable [] nullable = false → S ⊆ first !!! EP).
Proof.
  apply (calculate_select_in_first_follow grammar_recitation EP []).
  unfold grammar_recitation. do 5 apply list_elem_of_further. apply list_elem_of_here.
Defined.

(** *** Missing keys *)

(** The symbols the SELECT walk over a body looks up in FIRST: the maximal
    nullable prefix and the first symbol that is not nullable. *)
Definition walked (nullable : gset string) (body : list string) : list string :=
  nullable_prefix nullable body ++
  option_list (first_non_nullable nullable body).

(** The two dictionaries have the keys that [calculate_select] reads for
    the rule [r]. *)
Definition select_keys_present (nullable : gset string) (first follow : sets)
    (r : rule) : Prop :=
  Forall (λ X, is_Some (first !! X)) (walked nullable r.2) ∧
  (is_nullable r.2 nullable = true → is_Some (follow !! r.1)).

Section missing.
Context (nullable : gset string) (first follow : sets).

Lemma select_walk_cases items acc :
  (Forall (λ X, is_Some (first !! X)) (walked nullable items) ∧
   select_walk nullable first items acc =
     Ok (acc ∪ first_of_sequence nullable first items)) ∨
  (¬ Forall (λ X, is_Some (first !! X)) (walked nullable items) ∧
   select_walk nullable first items acc = Raise KeyError).
Proof.
  revert acc. induction items as [|item rest IH]; intros acc.
  - left. split; [constructor|]. simpl. rewrite first_of_sequence_nil.
    f_equal. set_solver.
  - unfold walked. simpl. unfold dict_get.
    destruct (first !! item) as [src|] eqn:Hsrc.
    + rewrite bind_Ok, first_of_sequence_cons, (lookup_total_correct _ _ _ Hsrc).
      destruct (decide (item ∈ nullable)) as [Hn|Hn].
      * rewrite decide_False by eauto. simpl.
        destruct (IH (acc ∪ src)) as [[Hall ->]|[Hnot ->]]; [left|right].
        -- split; [by constructor|]. f_equal. set_solver.
        -- split; [|done]. intros Hall. by apply Forall_cons in Hall as [_ ?].
      * rewrite decide_True by done. simpl. left.
        split; [by repeat constructor|]. f_equal. set_solver.
    + right. split; [|done]. intros Hall.
      assert (is_Some (first !! item)) as [? ?]; [|congruence].
      destruct (decide (item ∈ nullable)); simpl in Hall;
        by apply Forall_cons in Hall as [? _].
Qed.

Lemma select_rule_cases sel r :
  (select_keys_present nullable first follow r ∧
   select_rule nullable first follow sel r =
     Ok (<[r := select_of_rule nullable first follow r]> sel)) ∨
  (¬ select_keys_present nullable first follow r ∧
   select_rule nullable first follow sel r = Raise KeyError).
Proof.
  destruct r as [head body]. unfold select_rule, select_keys_present, select_of_rule.
  simpl.
  assert ((Forall (λ X, is_Some (first !! X)) (walked nullable body) ∧
           (if decide (body ≠ []) then select_walk nullable first body ∅
            else Ok ∅) = Ok (first_of_sequence nullable first body)) ∨
          (¬ Forall (λ X, is_Some (first !! X)) (walked nullable body) ∧
           (if decide (body ≠ []) then select_walk nullable first body ∅
            else Ok ∅) = Raise KeyError)) as [[Hall ->]|[Hnot ->]].
  { case_decide as Hb.
    - destruct (select_walk_cases body ∅) as [[? ->]|[? ->]]; [left|right];
        (split; [done|]); [f_equal; set_solver|done].
    - subst body. left. split; [constructor|]. by rewrite first_of_sequence_nil. }
  - rewrite bind_Ok. destruct (is_nullable body nullable).
    + unfold dict_get. destruct (follow !! head) as [src|] eqn:Hsrc.
      * left. split; [by eauto|]. rewrite !bind_Ok.
        by rewrite (lookup_total_correct _ _ _ Hsrc).
      * right. split; [|done]. intros [_ Hsome]. by destruct Hsome.
    + left. split; [done|]. by rewrite bind_Ok, (right_id_L ∅ (∪)).
  - right. split; [|done]. by intros [? _].
Qed.

Lemma select_fold_cases l sel :
  (Forall (select_keys_present nullable first follow) l ∧
   ∃ sel', foldM (select_rule nullable first follow) sel l = Ok sel' ∧
     (∀ r, r ∈ l → sel' !! r = Some (select_of_rule nullable first follow r)) ∧
     (∀ r, r ∉ l → sel' !! r = sel !! r)) ∨
  (¬ Forall (select_keys_present nullable first follow) l ∧
   foldM (select_rule nullable first follow) sel l = Raise KeyError).
Proof.
  revert sel. induction l as [|a l IH]; intros sel; simpl.
  - left. split; [constructor|]. exists sel. split; [done|]. split; [|done].
    intros r Hr. by apply elem_of_nil in Hr.
  - destruct (select_rule_cases sel a) as [[Ha ->]|[Ha ->]].
    + rewrite bind_Ok.
      destruct (IH (<[a := select_of_rule nullable first follow a]> sel))
        as [[Hall (sel' & -> & Hin & Hout)]|[Hnot ->]]; [left|right].
      * split; [by constructor|]. exists sel'. split; [done|]. split.
        -- intros r Hr. destruct (decide (r ∈ l)) as [|Hrl]; [by apply Hin|].
           apply elem_of_cons in Hr as [->|]; [|done].
           by rewrite Hout, lookup_insert_eq.
        -- intros r Hr. apply not_elem_of_cons in Hr as [Hne Hrl].
           by rewrite Hout, lookup_insert_ne.
      * split; [|done]. intros Hall. by apply Forall_cons in Hall as [_ ?].
    + right. split; [|done]. intros Hall. by apply Forall_cons in Hall as [? _].
Qed.

End missing.

(** X9: [calculate_select] returns exactly when FIRST has a key for every
    symbol of each body up to its first non-nullable symbol and FOLLOW has
    a key for the head of each nullable body; then every rule is mapped to
    its SELECT set.  Otherwise it raises [KeyError], and nothing else. *)
Theorem calculate_select_KeyError (terminals nonterminals : gset string)
    (grammar : list rule) (nullable : gset string) (first follow : sets) :
  (Forall (select_keys_present nullable first follow) grammar ∧
   ∃ select,
     calculate_select terminals nonterminals grammar nullable first follow
       = Ok select ∧
     ∀ r, r ∈ grammar →
       select !! r = Some (select_of_rule nullable first follow r)) ∨
  (¬ Forall (select_keys_present nullable first follow) grammar ∧
   calculate_select terminals nonterminals grammar nullable first follow
     = Raise KeyError).
Proof.
  unfold calculate_select.
  destruct (select_fold_cases nullable first follow grammar ∅)
    as [[Hall (sel & Hf & Hin & _)]|[Hnot Hf]]; [left|right]; eauto.
Qed.

(** X10: when [is_LL1] returns True, the SELECT sets predict at most one
    rule: two positions of the rule list whose rules have the same head and
    a terminal common to their SELECT sets are the same position. *)
Theorem is_LL1_predicts_one_rule (grammar : list rule) :
  is_LL1 grammar = Ok true →
  ∃ nullable first follow select,
    analysis grammar = Ok (nullable, first, follow, select) ∧
    ∀ i j r1 r2 S1 S2 t,
      grammar !! i = Some r1 → grammar !! j = Some r2 → r1.1 = r2.1 →
      select !! r1 = Some S1 → select !! r2 = Some S2 →
      t ∈ S1 → t ∈ S2 → i = j.
Proof.
  intros HLL1. destruct grammar as [|r0 rest]; [done|].
  destruct (is_LL1_nonempty r0 rest)
    as (nullable & first & follow & sel & b & Han & Hb & Hiff).
  rewrite HLL1 in Hb. injection Hb as <-.
  exists nullable, first, follow, sel.
  split; [by apply (analysed_analysis _ r0.1)|].
  intros i j r1 r2 S1 S2 t Hi Hj Hh H1 H2 Ht1 Ht2.
  destruct (Nat.lt_trichotomy i j) as [Hlt|[->|Hlt]]; [|done|];
    assert (true = false) as Hfalse; try done; apply Hiff.
  - exists i, j. split; [done|]. exists r1, r2, S1, S2. split_and!; try done.
    set_solver.
  - exists j, i. split; [done|]. exists r2, r1, S2, S1. split_and!; try done.
    set_solver.
Qed.

Lemma is_LL1_predicts_one_rule_witness :
  ∃ nullable first follow select,
    analysis grammar_json_4b = Ok (nullable, first, follow, select) ∧
    ∀ i j r1 r2 S1 S2 t,
      grammar_json_4b !! i = Some r1 → grammar_json_4b !! j = Some r2 →
      r1.1 = r2.1 →
      select !! r1 = Some S1 → select !! r2 = Some S2 →
      t ∈ S1 → t ∈ S2 → i = j.
Proof.
  apply (is_LL1_predicts_one_rule grammar_json_4b). vm_compute. reflexivity.
Defined.

(** X11: a grammar with a directly left-recursive rule [A → A α] is not
    LL(1) as soon as another rule of [A] starts with a symbol that can
    begin some string: [is_LL1] returns False. *)
Theorem is_LL1_left_recursion (grammar : list rule) (i j : nat)
    (A Y x : string) (alpha beta : list string) :
  grammar !! i = Some (A, A :: alpha) →
  grammar !! j = Some (A, Y :: beta) →
  i ≠ j →
  begins grammar Y x →
  is_LL1 grammar = Ok false.
Proof.
  intros Hi Hj Hij Hx.
  destruct grammar as [|r0 rest]; [done|].
  destruct (is_LL1_nonempty r0 rest)
    as (nullable & first & follow & sel & b & Han & Hb & Hiff).
  rewrite Hb. f_equal. apply Hiff.
  destruct (find_scoped (r0 :: rest)) as [Hscoped Hdisj].
  destruct (first_of_grammar (r0 :: rest))
    as (nullable' & first' & Hn & _ & _ & Hf & Hpass & Hsharp).
  rewrite (an_nullable _ _ _ _ _ _ Han) in Hn. injection Hn as <-.
  rewrite (an_first _ _ _ _ _ _ Han) in Hf. injection Hf as <-.
  pose proof (list_elem_of_lookup_2 _ _ _ Hi) as Hri.
  pose proof (list_elem_of_lookup_2 _ _ _ Hj) as Hrj.
  assert (x ∈ first !!! Y) as HxY.
  { by apply (begins_in_first (r0 :: rest) nullable first Y x
                (an_nullable _ _ _ _ _ _ Han) (an_first _ _ _ _ _ _ Han)). }
  assert (x ∈ first !!! A) as HxA.
  { by apply (first_stable _ _ (r0 :: rest) nullable (λ _ _, True) Hscoped Hdisj
                (first_closed_top _ _ _) first A (Y :: beta) 0 Y
                (Hsharp _ (first_closed_top _ _ _)) Hpass Hrj). }
  assert (x ∈ select_of_rule nullable first follow (A, A :: alpha)) as Hsi.
  { unfold select_of_rule. simpl. rewrite first_of_sequence_cons. set_solver. }
  assert (x ∈ select_of_rule nullable first follow (A, Y :: beta)) as Hsj.
  { unfold select_of_rule. simpl. rewrite first_of_sequence_cons. set_solver. }
  pose proof (an_select_in _ _ _ _ _ _ Han _ Hri) as Hseli.
  pose proof (an_select_in _ _ _ _ _ _ Han _ Hrj) as Hselj.
  destruct (Nat.lt_trichotomy i j) as [Hlt|[->|Hlt]]; [|done|].
  - exists i, j. split; [done|].
    eexists _, _, _, _. split_and!; [exact Hi|exact Hj|done|exact Hseli|exact Hselj|].
    set_solver.
  - exists j, i. split; [done|].
    eexists _, _, _, _. split_and!; [exact Hj|exact Hi|done|exact Hselj|exact Hseli|].
    set_solver.
Qed.

Lemma is_LL1_left_recursion_witness : is_LL1 grammar_json_4a = Ok false.
Proof.
  apply (is_LL1_left_recursion grammar_json_4a 3 2 members keyvalue STRING
           [COMMA; members] []); [reflexivity | reflexivity | lia |].
  apply (begins_rule grammar_json_4a keyvalue [STRING; COLON; value] 0
           STRING STRING).
  - unfold grammar_json_4a. do 4 apply list_elem_of_further.
    apply list_elem_of_here.
  - reflexivity.
  - intros Y HY. by apply elem_of_nil in HY.
  - apply begins_terminal. vm_compute. reflexivity.
Defined.

End SelectExtras.

(** ** More about the parser *)

Module ParserExtras.
Import Symbols Parser ParserFacts.
Local Open Scope Z_scope.

(** *** Termination *)

Lemma JsonParser_parse_below (fuel fuel' : nat) (tokens : list token) :
  (fuel ≤ fuel')%nat →
  JsonParser_parse fuel tokens = Diverged ∨
  JsonParser_parse fuel tokens = JsonParser_parse fuel' tokens.
Proof.
  intros Hle. unfold JsonParser_parse.
  destruct (Parser_init tokens) as [[] self| |]; [|by right..].
  destruct (parse_methods_fuel_mono fuel fuel' Hle) as (_ & Hobj & _).
  unfold parse. apply bindP_below; [done|]. intros result. apply below_refl.
Qed.

(** X12: [JsonParser(tokens).parse()] terminates on every token list: the
    nesting of its calls never exceeds [4 * len(tokens) + 1], and what it
    does (the tree returned or the exception raised) no longer depends on
    the bound beyond that. *)
Theorem JsonParser_parse_terminates (tokens : list token) (fuel : nat) :
  (4 * length tokens + 1 ≤ fuel)%nat →
  JsonParser_parse fuel tokens ≠ Diverged ∧
  JsonParser_parse fuel tokens =
    JsonParser_parse (4 * length tokens + 1) tokens.
Proof.
  intros Hfuel.
  split; [by apply JsonParser_parse_finishes|].
  destruct (JsonParser_parse_below (4 * length tokens + 1) fuel tokens Hfuel)
    as [Hd|Heq]; [|done].
  by apply JsonParser_parse_finishes in Hd.
Qed.

Lemma JsonParser_parse_terminates_witness :
  JsonParser_parse 100 [(LB, VStr "{"); (RB, VStr "}")] ≠ Diverged ∧
  JsonParser_parse 100 [(LB, VStr "{"); (RB, VStr "}")] =
    JsonParser_parse (4 * length [(LB, VStr "{"); (RB, VStr "}")] + 1)
      [(LB, VStr "{"); (RB, VStr "}")].
Proof.
  apply (JsonParser_parse_terminates [(LB, VStr "{"); (RB, VStr "}")] 100).
  simpl. lia.
Defined.

(** *** Exceptions *)

Lemma string_app_assoc (a b c : string) :
  (a +:+ b) +:+ c = a +:+ (b +:+ c).
Proof.
  induction a as [|x a IH]; [done|].
  change (String x ((a +:+ b) +:+ c) = String x (a +:+ (b +:+ c))).
  f_equal. exact IH.
Qed.

(** The terminal of the current token. *)
Definition lookahead (self : parser) : string :=
  (current (tokens self) (pos self)).1.

(** [self'] comes after [self]: the same tokens, a position that is not
    smaller, and not beyond the end of the tokens if it was not before. *)
Definition after (self self' : parser) : Prop :=
  wf self' ∧ tokens self' = tokens self ∧ pos self ≤ pos self' ∧
  (pos self ≤ Z.of_nat (length (tokens self)) →
   pos self' ≤ Z.of_nat (length (tokens self))).

Lemma after_refl self : wf self → after self self.
Proof. intros Hwf. by split_and!. Qed.

Lemma after_trans self self1 self2 :
  after self self1 → after self1 self2 → after self self2.
Proof.
  intros (_ & Ht1 & Hp1 & Hl1) (Hwf & Ht2 & Hp2 & Hl2). rewrite Ht1 in *.
  split_and!; [done|congruence|lia|]. intros Hle. by apply Hl2, Hl1.
Qed.

Lemma consumed_after self self' vals :
  wf self → consumed self self' vals → after self self'.
Proof.
  intros [Hpos _] (Hwf & Htok & toks & Hdrop & Hp & _ & _).
  split_and!; [done|done|lia|]. intros Hle.
  apply (f_equal length) in Hdrop. rewrite length_app, !length_drop in Hdrop.
  lia.
Qed.

(** A method that raises nothing but [SyntaxError], and then names the
    terminal it stopped at. *)
Definition fails_well {A : Type} (f : parser → outcome A) : Prop :=
  ∀ self e self', wf self → f self = Raised e self' →
    after self self' ∧ ∃ prefix, e = SyntaxError (prefix +:+ lookahead self').

Lemma match_fails_well terminal : fails_well (match_ terminal).
Proof.
  intros self e self' Hwf. rewrite match_spec by done. case_decide; [done|].
  intros [= <- <-]. split; [by apply after_refl|].
  exists ("Syntax error: expected "%string +:+ terminal +:+ ", found ").
  by rewrite !string_app_assoc.
Qed.

Lemma no_rule_fails_well : fails_well (@no_rule tree).
Proof.
  intros self e self' Hwf. pose proof Hwf as [_ Ht].
  unfold no_rule, bindP, get_t, raiseP. rewrite Ht. intros [= <- <-].
  split; [by apply after_refl|]. by exists "Syntax error: no rule for token: "%string.
Qed.

Lemma get_t_Raised self e self' : wf self → get_t self ≠ Raised e self'.
Proof. intros [_ Ht]. unfold get_t. by rewrite Ht. Qed.

Lemma bindP_Raised {A B : Type} (m : parser → outcome A)
    (f : A → parser → outcome B) (self self' : parser) (e : exn) :
  bindP m f self = Raised e self' →
  m self = Raised e self' ∨
  ∃ a self1, m self = Return a self1 ∧ f a self1 = Raised e self'.
Proof.
  unfold bindP. destruct (m self) as [a self1| |]; intros H;
    [right; eauto | left; by injection H as -> -> | discriminate H].
Qed.

Ltac invert_raise :=
  repeat match goal with
  | H : bindP _ _ _ = Raised _ _ |- _ =>
      apply bindP_Raised in H as [H|(? & ? & ? & H)]
  | H : get_t _ = Return _ _ |- _ => apply get_t_Return in H as [-> ?]
  | Hwf : wf ?s, H : get_t ?s = Raised _ _ |- _ =>
      by apply (get_t_Raised _ _ _ Hwf) in H
  | H : retP _ _ = Raised _ _ |- _ => discriminate H
  | H : (if decide ?P then _ else _) _ = Raised _ _ |- _ => destruct (decide P)
  | Hwf : wf ?s, H : match_ _ ?s = Return _ _ |- _ =>
      apply (match_consumed _ _ _ _ Hwf) in H;
      [pose proof (consumed_wf _ _ _ H); apply (consumed_after _ _ _ Hwf) in H
      | set_solver]
  | Hwf : wf ?s, IH : parses ?f, H : ?f ?s = Return _ _ |- _ =>
      apply (IH _ _ _ Hwf) in H; pose proof (consumed_wf _ _ _ H);
      apply (consumed_after _ _ _ Hwf) in H
  | Hwf : wf ?s, H : match_ ?X ?s = Raised _ _ |- _ =>
      apply (match_fails_well X _ _ _ Hwf) in H as [H ?]
  | Hwf : wf ?s, H : no_rule ?s = Raised _ _ |- _ =>
      apply (no_rule_fails_well _ _ _ Hwf) in H as [H ?]
  | Hwf : wf ?s, IH : fails_well ?f, H : ?f ?s = Raised _ _ |- _ =>
      apply (IH _ _ _ Hwf) in H as [H ?]
  end.

Ltac chain_after :=
  first [ eassumption | eapply after_trans; [eassumption | chain_after] ].

Lemma parse_methods_fail_well (fuel : nat) :
  fails_well (parse_keyvalue fuel) ∧ fails_well (parse_obj fuel) ∧
  fails_well (parse_obj_right_set fuel) ∧
  fails_well (parse_obj_right_arr fuel) ∧
  fails_well (parse_members_set fuel) ∧ fails_well (parse_members_arr fuel) ∧
  fails_well (parse_members_right_set fuel) ∧
  fails_well (parse_members_right_arr fuel) ∧ fails_well (parse_value fuel).
Proof.
  induction fuel as [|fuel (IH1 & IH2 & IH3 & IH4 & IH5 & IH6 & IH7 & IH8 & IH9)];
    [by split_and!|].
  destruct (parse_methods_consume fuel)
    as (P1 & P2 & P3 & P4 & P5 & P6 & P7 & P8 & P9).
  split_and!; intros self e self' Hwf Hparse; simpl in Hparse;
    invert_raise; (split; [chain_after | done]).
Qed.

(** What a run that raises has raised, and where it stopped. *)
Lemma parse_raised_well (fuel : nat) (tokens : list token) (e : exn)
    (self' : parser) :
  JsonParser_parse fuel tokens = Raised e self' →
  (tokens = [] ∧ e = IndexError) ∨
  (tokens ≠ [] ∧ Parser.tokens self' = tokens ∧
   0 ≤ pos self' ≤ Z.of_nat (length tokens) ∧
   ∃ prefix, e = SyntaxError (prefix +:+ lookahead self')).
Proof.
  unfold JsonParser_parse. destruct tokens as [|tok rest].
  - intros [= <- _]. by left.
  - rewrite Parser_init_nonempty. set (tokens := tok :: rest).
    set (self0 := mkParser tokens 0 (Some tok.1)).
    assert (wf self0) as Hwf0 by done.
    unfold parse. intros Hparse. right. split; [done|].
    destruct (parse_methods_fail_well fuel) as (_ & F2 & _).
    destruct (parse_methods_consume fuel) as (_ & P2 & _).
    invert_raise;
      match goal with
      | H : after self0 self' |- _ => destruct H as ((Hpos & _) & Htok & _ & Hle)
      | H1 : after self0 ?s, H2 : after ?s self' |- _ =>
          destruct (after_trans _ _ _ H1 H2) as ((Hpos & _) & Htok & _ & Hle)
      end;
      (split; [done|]); (split; [|done]); (split; [done|]);
      apply Hle; simpl; lia.
Qed.

(** X13: with room for [4 * len(tokens) + 1] nested calls, which is all a
    run needs, [JsonParser(tokens).parse()] returns a tree or raises, and
    what it raises is the [IndexError] of the constructor on the empty list
    and [SyntaxError] on every other list; the tokens are then unchanged,
    the position is within the list or at its end, and the message ends
    with the terminal at that position ([EOF] at the end).  A run with less
    room can use it up, which stops it with CPython's [RuntimeError] for the
    recursion depth; such runs are outside this statement. *)
Theorem JsonParser_parse_raises (fuel : nat) (tokens : list token) :
  (4 * length tokens + 1 ≤ fuel)%nat →
  (∃ tr self', JsonParser_parse fuel tokens = Return tr self') ∨
  (tokens = [] ∧
   ∃ self', JsonParser_parse fuel tokens = Raised IndexError self') ∨
  (tokens ≠ [] ∧
   ∃ prefix self',
     JsonParser_parse fuel tokens =
       Raised (SyntaxError (prefix +:+ lookahead self')) self' ∧
     Parser.tokens self' = tokens ∧
     0 ≤ pos self' ≤ Z.of_nat (length tokens)).
Proof.
  intros Hfuel.
  pose proof (JsonParser_parse_finishes tokens fuel Hfuel) as Hfin.
  pose proof (parse_raised_well fuel tokens) as Hraised.
  destruct (JsonParser_parse fuel tokens) as [tr self'|e self'|];
    [left; by eexists _, _| |done].
  right.
  destruct (Hraised e self' eq_refl)
    as [[-> ->]|(Hne & Htok & Hpos & prefix & ->)].
  - left. split; [done|]. by eexists.
  - right. split; [done|]. by exists prefix, self'.
Qed.

Lemma JsonParser_parse_raises_witness :
  (∃ tr self',
     JsonParser_parse 13 [(LB, VStr "{"); (STRING, VStr "k"); (RB, VStr "}")]
     = Return tr self') ∨
  ([(LB, VStr "{"); (STRING, VStr "k"); (RB, VStr "}")] = [] ∧
   ∃ self',
     JsonParser_parse 13 [(LB, VStr "{"); (STRING, VStr "k"); (RB, VStr "}")]
     = Raised IndexError self') ∨
  ([(LB, VStr "{"); (STRING, VStr "k"); (RB, VStr "}")] ≠ [] ∧
   ∃ prefix self',
     JsonParser_parse 13 [(LB, VStr "{"); (STRING, VStr "k"); (RB, VStr "}")]
     = Raised (SyntaxError (prefix +:+ lookahead self')) self' ∧
     Parser.tokens self' =
       [(LB, VStr "{"); (STRING, VStr "k"); (RB, VStr "}")] ∧
     0 ≤ pos self'
       ≤ Z.of_nat (length [(LB, VStr "{"); (STRING, VStr "k"); (RB, VStr "}")])).
Proof.
  apply (JsonParser_parse_raises 13
           [(LB, VStr "{"); (STRING, VStr "k"); (RB, VStr "}")]).
  simpl. lia.
Defined.

End ParserExtras.

(** ** The trees the parser builds *)

Module ParseTreeExtras.
Import Symbols Parser ParserFacts ParserExtras.
Local Open Scope Z_scope.

(** The grammar the methods of [JsonParser] follow: [grammar_json_6] of
    grammar.py with the rule at index 9, [members_arr → keyvalue
    members_right_arr], read as [parse_members_arr] has it. *)
Definition parser_grammar : list Grammar.rule :=
  <[9%nat := (members_arr, [value; members_right_arr])]> Grammar.grammar_json_6.

(** [tree_of g A toks tr]: [tr] is a parse tree of the tokens [toks] from
    the symbol [A] in the grammar [g].  A node applies a rule of its symbol;
    a leaf is the value of a token whose terminal the rule names, and that
    heads no rule. *)
Inductive tree_of (g : list Grammar.rule) : string → list token → tree → Prop :=
| tree_of_node A body toks cs :
    (A, body) ∈ g → children_of g body toks cs →
    tree_of g A toks (Node A cs)
with children_of (g : list Grammar.rule)
    : list string → list token → list tree → Prop :=
| children_nil : children_of g [] [] []
| children_leaf X v body toks cs :
    X ∈ AnalysisFacts.terminals_of g →
    children_of g body toks cs →
    children_of g (X :: body) ((X, v) :: toks) (Leaf v :: cs)
| children_node X c body toks1 toks2 cs :
    tree_of g X toks1 c → children_of g body toks2 cs →
    children_of g (X :: body) (toks1 ++ toks2) (c :: cs).

(** Going from [self] to [self'] consumed the tokens [toks], none with the
    terminal [EOF]. *)
Definition consumes (self self' : parser) (toks : list token) : Prop :=
  wf self' ∧ tokens self' = tokens self ∧
  drop (Z.to_nat (pos self)) (tokens self) =
    toks ++ drop (Z.to_nat (pos self')) (tokens self) ∧
  pos self' = pos self + Z.of_nat (length toks) ∧
  Forall (λ tok : token, tok.1 ≠ EOF) toks.

Lemma consumes_wf self self' toks : consumes self self' toks → wf self'.
Proof. by intros [? _]. Qed.

Lemma consumes_nil self : wf self → consumes self self [].
Proof. intros Hwf. split_and!; [done|done|done|simpl; lia|constructor]. Qed.

Lemma consumes_app self self1 self2 toks1 toks2 :
  consumes self self1 toks1 → consumes self1 self2 toks2 →
  consumes self self2 (toks1 ++ toks2).
Proof.
  intros (_ & Htok1 & Hd1 & Hp1 & Hf1) (Hwf & Htok2 & Hd2 & Hp2 & Hf2).
  rewrite Htok1 in Hd2.
  split_and!; [done|congruence| |rewrite length_app; lia|by apply Forall_app].
  by rewrite Hd1, Hd2, (assoc_L (++)).
Qed.

Lemma match_consumes terminal self value self' :
  wf self → terminal ≠ EOF → match_ terminal self = Return value self' →
  consumes self self' [(terminal, value)].
Proof.
  intros Hwf Hne. rewrite match_spec by done. case_decide as Hcur; [|done].
  intros [= <- <-]. destruct Hwf as [Hpos _]. unfold current in *.
  destruct (tokens self !! Z.to_nat (pos self)) as [[tk v]|] eqn:Htok;
    simpl in *; [subst tk|done].
  split_and!; [split; simpl; [lia|done]|done| |simpl; lia|by repeat constructor].
  simpl.
  replace (Z.to_nat (pos self + 1)) with (Datatypes.S (Z.to_nat (pos self)))
    by lia.
  by apply drop_S.
Qed.

(** A method that, when it returns, has built a parse tree from [A] of the
    tokens it consumed. *)
Definition builds (A : string) (f : parser → outcome tree) : Prop :=
  ∀ self tr self', wf self → f self = Return tr self' →
    ∃ toks, consumes self self' toks ∧ tree_of parser_grammar A toks tr.

Ltac invert_build :=
  repeat match goal with
  | H : bindP _ _ _ = Return _ _ |- _ =>
      apply bindP_Return in H as (? & ? & ? & H)
  | H : get_t _ = Return _ _ |- _ => apply get_t_Return in H as [-> ?]
  | H : retP _ _ = Return _ _ |- _ => injection H as <- <-
  | H : no_rule _ = Return _ _ |- _ => by apply no_rule_Return in H
  | H : (if decide ?P then _ else _) _ = Return _ _ |- _ =>
      destruct (decide P)
  | H : _ ∈ _ :: _ |- _ => apply elem_of_cons in H as [->|H]
  | H : _ ∈ [] |- _ => by apply elem_of_nil in H
  | H1 : t ?s = Some _, H2 : t ?s = Some _ |- _ =>
      rewrite H1 in H2; simplify_eq
  | Hwf : wf ?s, H : match_ _ ?s = Return _ _ |- _ =>
      apply (match_consumes _ _ _ _ Hwf) in H;
      [pose proof (consumes_wf _ _ _ H) | done]
  | Hwf : wf ?s, IH : builds _ ?f, H : ?f ?s = Return _ _ |- _ =>
      apply (IH _ _ _ Hwf) in H as (? & H & ?);
      pose proof (consumes_wf _ _ _ H)
  end.

Ltac build_tree :=
  eexists; split;
  [ repeat (eapply consumes_app; [eassumption|]); by apply consumes_nil
  | simpl; eapply tree_of_node;
    [ | repeat first
          [ apply children_nil
          | eapply children_node; [eassumption|]
          | eapply children_leaf; [compute_done|] ] ];
    compute_done ].

Lemma parse_methods_build (fuel : nat) :
  builds keyvalue (parse_keyvalue fuel) ∧ builds obj (parse_obj fuel) ∧
  builds obj_right_set (parse_obj_right_set fuel) ∧
  builds obj_right_arr (parse_obj_right_arr fuel) ∧
  builds members_set (parse_members_set fuel) ∧
  builds members_arr (parse_members_arr fuel) ∧
  builds members_right_set (parse_members_right_set fuel) ∧
  builds members_right_arr (parse_members_right_arr fuel) ∧
  builds value (parse_value fuel).
Proof.
  induction fuel as [|fuel (IH1 & IH2 & IH3 & IH4 & IH5 & IH6 & IH7 & IH8 & IH9)];
    [by split_and!|].
  split_and!; intros self tr self' Hwf Hparse; simpl in Hparse;
    invert_build; build_tree.
Qed.

(** X14: a tree that [JsonParser(tokens).parse()] returns is a parse tree,
    from [obj], of the tokens that precede the first [EOF] token, in the
    grammar the parser follows: every node applies one of its rules and
    every leaf is the value of the token the rule names at that place. *)
Theorem JsonParser_parse_tree (fuel : nat) (tokens : list token) (tr : tree)
    (self' : parser) :
  JsonParser_parse fuel tokens = Return tr self' →
  tree_of parser_grammar obj (before_EOF tokens) tr.
Proof.
  unfold JsonParser_parse. destruct tokens as [|tok rest]; [done|].
  rewrite Parser_init_nonempty. set (tokens := tok :: rest).
  set (self0 := mkParser tokens 0 (Some tok.1)).
  assert (wf self0) as Hwf0 by done.
  unfold parse. intros Hparse.
  apply bindP_Return in Hparse as (result & self1 & Hobj & Hrest).
  apply bindP_Return in Hrest as (v & self2 & Hm & Hret).
  injection Hret as <- _.
  destruct (parse_methods_build fuel) as (_ & Bobj & _).
  apply (Bobj _ _ _ Hwf0) in Hobj as (toks & (Hwf1 & Htok1 & Hdrop & _ & Hf) & Htree).
  rewrite match_spec in Hm by done. case_decide as Hcur; [clear Hm|done].
  simpl in Hdrop. fold tokens in Hdrop.
  match type of Hdrop with
  | _ = (_ ++ ?r)%list => assert (before_EOF (toks ++ r) = toks) as Hb
  end.
  { apply before_EOF_app; [done|].
    intros tok1. rewrite lookup_drop, Nat.add_0_r. intros Htok.
    unfold current in Hcur. rewrite Htok1 in Hcur. simpl in Hcur.
    by rewrite Htok in Hcur. }
  rewrite <-Hdrop in Hb. by rewrite Hb.
Qed.

Lemma JsonParser_parse_tree_witness :
  ∃ tr, tree_of parser_grammar obj
          (before_EOF [(LB, VStr "{"); (RB, VStr "}")]) tr.
Proof.
  eexists.
  eapply (JsonParser_parse_tree 2 [(LB, VStr "{"); (RB, VStr "}")]).
  vm_compute. reflexivity.
Defined.

End ParseTreeExtras.

(** ** The token stream *)

Module StreamExtras.
Import Symbols Parser ParserFacts ParserExtras.
Local Open Scope Z_scope.

(** [n] calls of [advance] in a row, with the values they return. *)
Fixpoint advances (n : nat) : parser → outcome (list pyval) :=
  match n with
  | O => retP []
  | Datatypes.S n =>
      value ←ₚ advance;
      values ←ₚ advances n;
      retP (value :: values)
  end.

Lemma advances_spec (n : nat) (self : parser) :
  0 ≤ pos self →
  advances n self =
  Return ((λ i, (current (tokens self) (pos self + Z.of_nat i)).2) <$> seq 0 n)
    (if decide (n = 0%nat) then self
     else mkParser (tokens self) (pos self + Z.of_nat n)
            (Some (current (tokens self) (pos self + Z.of_nat n)).1)).
Proof.
  revert self. induction n as [|n IH]; intros self Hpos; [done|].
  simpl. unfold bindP at 1. rewrite advance_spec by done.
  unfold bindP. rewrite IH by (simpl; lia). simpl. unfold retP. f_equal.
  - f_equal; [by rewrite Z.add_0_r|]. rewrite <-fmap_S_seq, <-list_fmap_compose.
    apply list_fmap_ext. intros _ i _. simpl. f_equal. f_equal. lia.
  - destruct (decide (n = 0%nat)) as [->|_]; [done|]. f_equal; [lia|].
    do 3 f_equal. lia.
Qed.

Lemma current_value (tokens : list token) (n i : nat) :
  (i < n)%nat →
  (tokens.*2 ++ replicate n (VStr EOF)) !! i =
  Some (current tokens (Z.of_nat i)).2.
Proof.
  intros Hi. unfold current. rewrite Nat2Z.id.
  destruct (tokens !! i) as [tok|] eqn:Htok.
  - rewrite lookup_app_l by (rewrite length_fmap; by eapply lookup_lt_Some).
    by rewrite list_lookup_fmap, Htok.
  - apply lookup_ge_None_1 in Htok.
    rewrite lookup_app_r by (by rewrite length_fmap).
    rewrite length_fmap. by rewrite lookup_replicate_2 by lia.
Qed.

Lemma advances_from_start (tokens : list token) (t0 : option string) (n : nat) :
  ∃ self',
    advances n (mkParser tokens 0 t0) =
      Return (take n (tokens.*2 ++ replicate n (VStr EOF))) self' ∧
    Parser.tokens self' = tokens ∧
    pos self' = Z.of_nat n ∧
    (n ≠ 0%nat → t self' = Some (default EOF (fst <$> tokens !! n))).
Proof.
  eexists. rewrite advances_spec by done. simpl. split; [f_equal|].
  - apply list_eq. intros i. rewrite list_lookup_fmap.
    destruct (decide (i < n)%nat) as [Hi|Hi].
    + rewrite lookup_seq_lt by done. rewrite lookup_take_lt by done.
      by rewrite (current_value tokens n i Hi).
    + rewrite lookup_seq_ge by lia. by rewrite lookup_take_ge by lia.
  - destruct (decide (n = 0%nat)) as [->|Hn]; [done|]. simpl.
    split_and!; [done|lia|]. intros _. f_equal. unfold current.
    replace (Z.to_nat (0 + Z.of_nat n)) with n by lia.
    by destruct (tokens !! n).
Qed.

(** X15: after [Parser(tokens)] on a non-empty list, [n] calls of [advance]
    return the values of the first [n] tokens in order, followed by [EOF]
    once the tokens are exhausted, and leave the parser at position [n]
    looking at the terminal of token [n], or at [EOF] past the end. *)
Theorem advance_stream (tok : token) (rest : list token) (n : nat) :
  ∃ self self',
    Parser_init (tok :: rest) = Return () self ∧
    advances n self =
      Return (take n ((tok :: rest).*2 ++ replicate n (VStr EOF))) self' ∧
    Parser.tokens self' = tok :: rest ∧
    pos self' = Z.of_nat n ∧
    t self' = Some (default EOF (fst <$> (tok :: rest) !! n)).
Proof.
  destruct (advances_from_start (tok :: rest) (Some tok.1) n)
    as (self' & Hadv & Htok & Hpos & Ht).
  exists (mkParser (tok :: rest) 0 (Some tok.1)), self'.
  split; [apply Parser_init_nonempty|]. split_and!; try done.
  destruct n as [|n]; [|by apply Ht]. by injection Hadv as <-.
Qed.

End StreamExtras.

(** ** The order of the rules *)

Module OrderExtras.
Import Symbols Grammar SetsFacts AnalysisFacts LL1Facts.
Import NullableFacts NullableExtras AnalysisExtras.

Lemma sets_eq (d d' : sets) :
  dom d = dom d' → (∀ k, d !!! k ⊆ d' !!! k) → (∀ k, d' !!! k ⊆ d !!! k) →
  d = d'.
Proof.
  intros Hdom Hle Hge. apply map_eq. intros k.
  destruct (d !! k) as [X|] eqn:HX.
  - assert (k ∈ dom d') as [X' HX']%elem_of_dom
      by (rewrite <-Hdom; apply elem_of_dom; eauto).
    rewrite HX'. f_equal. specialize (Hle k). specialize (Hge k).
    rewrite (lookup_total_correct _ _ _ HX), (lookup_total_correct _ _ _ HX')
      in Hle, Hge.
    set_solver.
  - apply not_elem_of_dom in HX. rewrite Hdom in HX.
    by apply not_elem_of_dom in HX.
Qed.

Section same_rules.
Context (r0 r0' : rule) (rest rest' : list rule).
Hypothesis Hrules : ∀ r, r ∈ r0 :: rest ↔ r ∈ r0' :: rest'.
Hypothesis Hstart : r0.1 = r0'.1.

Lemma same_symbols :
  terminals_of (r0 :: rest) = terminals_of (r0' :: rest') ∧
  nonterminals_of (r0 :: rest) = nonterminals_of (r0' :: rest').
Proof.
  unfold find_terminals_and_nonterminals.
  pose proof (find_step_exact (r0 :: rest) ∅ ∅) as [Hsy Hnt].
  pose proof (find_step_exact (r0' :: rest') ∅ ∅) as [Hsy' Hnt'].
  destruct (foldl find_step (∅, ∅) (r0 :: rest)) as [sy nt].
  destruct (foldl find_step (∅, ∅) (r0' :: rest')) as [sy' nt'].
  simpl in *.
  assert (sy = sy') as ->.
  { apply set_eq. intros X. rewrite Hsy, Hsy'. split;
      (intros [?|(A & body & Hr & ?)]; [by left|right; exists A, body;
       split; [by apply Hrules|done]]). }
  assert (nt = nt') as ->; [|done].
  apply set_eq. intros X. rewrite Hnt, Hnt'. split;
    (intros [?|(body & Hr)]; [by left|right; exists body; by apply Hrules]).
Qed.

Lemma same_analysed nullable first follow sel nullable' first' follow' sel' :
  analysed (r0 :: rest) r0.1 nullable first follow sel →
  analysed (r0' :: rest') r0'.1 nullable' first' follow' sel' →
  nullable = nullable' ∧ first = first' ∧ follow = follow' ∧ sel = sel'.
Proof.
  intros Han Han'. destruct same_symbols as [HT HN].
  (* NULLABLE *)
  assert (nullable = nullable') as <-.
  { destruct (calculate_nullable_closed_least (r0 :: rest)
      (terminals_of (r0 :: rest)) (nonterminals_of (r0 :: rest)))
      as (n & Hn & Hc & Hl).
    destruct (calculate_nullable_closed_least (r0' :: rest')
      (terminals_of (r0' :: rest')) (nonterminals_of (r0' :: rest')))
      as (n' & Hn' & Hc' & Hl').
    rewrite (an_nullable _ _ _ _ _ _ Han) in Hn. injection Hn as <-.
    rewrite (an_nullable _ _ _ _ _ _ Han') in Hn'. injection Hn' as <-.
    apply (anti_symm (⊆)).
    - apply Hl. intros head body Hr. apply Hc'. by apply Hrules.
    - apply Hl'. intros head body Hr. apply Hc. by apply Hrules. }
  (* FIRST *)
  destruct (find_scoped (r0 :: rest)) as [Hscoped Hdisj].
  destruct (find_scoped (r0' :: rest')) as [Hscoped' Hdisj'].
  destruct (first_of_grammar (r0 :: rest))
    as (n & f & Hn & _ & _ & Hf & Hpass & Hsharp).
  rewrite (an_nullable _ _ _ _ _ _ Han) in Hn. injection Hn as <-.
  rewrite (an_first _ _ _ _ _ _ Han) in Hf. injection Hf as <-.
  destruct (first_of_grammar (r0' :: rest'))
    as (n' & f' & Hn' & _ & _ & Hf' & Hpass' & Hsharp').
  rewrite (an_nullable _ _ _ _ _ _ Han') in Hn'. injection Hn' as <-.
  rewrite (an_first _ _ _ _ _ _ Han') in Hf'. injection Hf' as <-.
  pose proof (Hsharp _ (first_closed_top _ _ _)) as Htop.
  pose proof (Hsharp' _ (first_closed_top _ _ _)) as Htop'.
  assert (∀ t, t ∈ terminals_of (r0 :: rest) →
            first !! t = Some {[t]} ∧ first' !! t = Some {[t]}) as Hterm.
  { intros t Ht. split.
    - destruct Htop as [[Hdom Hb] _].
      assert (t ∈ dom first) as [S HS]%elem_of_dom by set_solver.
      destruct (Hb t S HS) as [Hlow Hhigh]. unfold first_low, first_high in *.
      rewrite decide_True in Hlow, Hhigh by done. rewrite HS. f_equal. set_solver.
    - destruct Htop' as [[Hdom Hb] _]. rewrite HT in Ht.
      assert (t ∈ dom first') as [S HS]%elem_of_dom by set_solver.
      destruct (Hb t S HS) as [Hlow Hhigh]. unfold first_low, first_high in *.
      rewrite decide_True in Hlow, Hhigh by done. rewrite HS. f_equal. set_solver. }
  assert (first = first') as <-.
  { apply sets_eq.
    - rewrite (an_first_dom _ _ _ _ _ _ Han), (an_first_dom _ _ _ _ _ _ Han').
      by rewrite HT, HN.
    - assert (first_closed (terminals_of (r0 :: rest)) (r0 :: rest) nullable
                (λ k y, y ∈ first' !!! k)) as HQ.
      { split.
        - intros t Ht. destruct (Hterm t Ht) as [_ Ht'].
          rewrite (lookup_total_correct _ _ _ Ht'). set_solver.
        - intros A body i X x Hr HX Hnull Hx.
          apply (first_stable _ _ (r0' :: rest') nullable (λ _ _, True)
                   Hscoped' Hdisj' (first_closed_top _ _ _) first' A body i X
                   Htop' Hpass'); [by apply Hrules|done..]. }
      destruct (Hsharp _ HQ) as [_ Hq]. intros k x Hx.
      destruct (first !! k) as [S|] eqn:HS.
      + rewrite (lookup_total_correct _ _ _ HS) in Hx. by apply (Hq k S x HS).
      + rewrite lookup_total_alt, HS in Hx. set_solver.
    - assert (first_closed (terminals_of (r0' :: rest')) (r0' :: rest') nullable
                (λ k y, y ∈ first !!! k)) as HQ.
      { split.
        - intros t Ht. rewrite <-HT in Ht. destruct (Hterm t Ht) as [Ht' _].
          rewrite (lookup_total_correct _ _ _ Ht'). set_solver.
        - intros A body i X x Hr HX Hnull Hx.
          apply (first_stable _ _ (r0 :: rest) nullable (λ _ _, True)
                   Hscoped Hdisj (first_closed_top _ _ _) first A body i X
                   Htop Hpass); [by apply Hrules|done..]. }
      destruct (Hsharp' _ HQ) as [_ Hq]. intros k x Hx.
      destruct (first' !! k) as [S|] eqn:HS.
      + rewrite (lookup_total_correct _ _ _ HS) in Hx. by apply (Hq k S x HS).
      + rewrite lookup_total_alt, HS in Hx. set_solver. }
  (* FOLLOW *)
  assert (follow = follow') as <-.
  { apply sets_eq.
    - rewrite (an_follow_dom _ _ _ _ _ _ Han), (an_follow_dom _ _ _ _ _ _ Han').
      by rewrite HN.
    - apply (an_follow_least _ _ _ _ _ _ Han).
      destruct (an_follow_constraints _ _ _ _ _ _ Han') as [HEOF Hc].
      split; [by rewrite Hstart|]. intros A body i B Hr HB HBN.
      apply Hc; [by apply Hrules|done|by rewrite <-HN].
    - apply (an_follow_least _ _ _ _ _ _ Han').
      destruct (an_follow_constraints _ _ _ _ _ _ Han) as [HEOF Hc].
      split; [by rewrite <-Hstart|]. intros A body i B Hr HB HBN.
      apply Hc; [by apply Hrules|done|by rewrite HN]. }
  (* SELECT *)
  split_and!; try done. apply map_eq. intros r.
  destruct (decide (r ∈ r0 :: rest)) as [Hr|Hr].
  - rewrite (an_select_in _ _ _ _ _ _ Han r Hr).
    by rewrite (an_select_in _ _ _ _ _ _ Han' r) by (by apply Hrules).
  - rewrite (an_select_out _ _ _ _ _ _ Han r Hr).
    rewrite (an_select_out _ _ _ _ _ _ Han' r); [done|]. by rewrite <-Hrules.
Qed.

End same_rules.

(** X16: NULLABLE, FIRST, FOLLOW and SELECT depend only on which rules a
    grammar has and on the head of its first rule: two non-empty grammars
    with the same rules, in any order and with any repetitions, and the
    same start symbol have the same analysis. *)
Theorem analysis_same_rules (r0 r0' : rule) (rest rest' : list rule) :
  (∀ r, r ∈ r0 :: rest ↔ r ∈ r0' :: rest') → r0.1 = r0'.1 →
  analysis (r0 :: rest) = analysis (r0' :: rest') ∧
  ∃ result, analysis (r0 :: rest) = Ok result.
Proof.
  intros Hrules Hstart.
  destruct (analysed_nonempty r0 rest) as (n & f & fo & sel & Han).
  destruct (analysed_nonempty r0' rest') as (n' & f' & fo' & sel' & Han').
  destruct (same_analysed r0 r0' rest rest' Hrules Hstart _ _ _ _ _ _ _ _ Han Han')
    as (-> & -> & -> & ->).
  rewrite (analysed_analysis _ _ _ _ _ _ Han), (analysed_analysis _ _ _ _ _ _ Han').
  eauto.
Qed.

Lemma analysis_same_rules_witness :
  analysis ((S, [E]) :: [(E, [ID]); (E, [])]) =
    analysis ((S, [E]) :: [(E, []); (E, [ID]); (E, [])]) ∧
  ∃ result, analysis ((S, [E]) :: [(E, [ID]); (E, [])]) = Ok result.
Proof.
  apply (analysis_same_rules (S, [E]) (S, [E])
           [(E, [ID]); (E, [])] [(E, []); (E, [ID]); (E, [])]);
    [|reflexivity].
  intros r. rewrite !elem_of_cons, !elem_of_nil. tauto.
Defined.

Lemma conflict_permuted (grammar grammar' : list rule)
    (sel : gmap rule (gset string)) :
  grammar ≡ₚ grammar' →
  (∃ i j, i < j ∧ conflict grammar sel i j) →
  ∃ i j, i < j ∧ conflict grammar' sel i j.
Proof.
  intros [_ (f & Hinj & Hf)]%Permutation_inj
    (i & j & Hij & r1 & r2 & s1 & s2 & Hi & Hj & Hh & H1 & H2 & Hne).
  rewrite Hf in Hi, Hj.
  destruct (Nat.lt_trichotomy (f i) (f j)) as [Hlt|[Heq|Hlt]].
  - exists (f i), (f j). split; [done|]. by exists r1, r2, s1, s2.
  - apply Hinj in Heq. lia.
  - exists (f j), (f i). split; [done|]. exists r2, r1, s2, s1.
    split_and!; try done. set_solver.
Qed.

(** X17: reordering the rules of a grammar while keeping the head of the
    first rule does not change the answer of [is_LL1]: both calls return,
    and they return the same boolean. *)
Theorem is_LL1_permutation (r0 r0' : rule) (rest rest' : list rule) :
  r0 :: rest ≡ₚ r0' :: rest' → r0.1 = r0'.1 →
  ∃ b, is_LL1 (r0 :: rest) = Ok b ∧ is_LL1 (r0' :: rest') = Ok b.
Proof.
  intros Hperm Hstart.
  assert (∀ r, r ∈ r0 :: rest ↔ r ∈ r0' :: rest') as Hrules
    by (intros r; by rewrite Hperm).
  destruct (is_LL1_nonempty r0 rest)
    as (n & f & fo & sel & b & Han & -> & Hiff).
  destruct (is_LL1_nonempty r0' rest')
    as (n' & f' & fo' & sel' & b' & Han' & -> & Hiff').
  destruct (same_analysed r0 r0' rest rest' Hrules Hstart _ _ _ _ _ _ _ _ Han Han')
    as (_ & _ & _ & <-).
  exists b. split; [done|]. f_equal. destruct b, b'; try done.
  - assert (true = false) as Hb; [|discriminate Hb].
    apply Hiff. apply (conflict_permuted (r0' :: rest')); [done|].
    by apply Hiff'.
  - assert (true = false) as Hb; [|discriminate Hb].
    apply Hiff'. apply (conflict_permuted (r0 :: rest)); [done|].
    by apply Hiff.
Qed.

Lemma is_LL1_permutation_witness :
  ∃ b, is_LL1 ((S, [E]) :: [(E, [ID]); (E, [])]) = Ok b ∧
       is_LL1 ((S, [E]) :: [(E, []); (E, [ID])]) = Ok b.
Proof.
  apply (is_LL1_permutation (S, [E]) (S, [E])
           [(E, [ID]); (E, [])] [(E, []); (E, [ID])]); [|reflexivity].
  apply perm_skip, perm_swap.
Defined.

End OrderExtras.

(** ** The shape of FOLLOW *)

Module FollowExtras.
Import Symbols Grammar SetsFacts AnalysisFacts LL1Facts.

(** X18: on a non-empty grammar the dictionary [calculate_follow] returns
    has the nonterminals as its keys, and no terminal; its sets hold
    terminals and the end marker only, and the end marker is in the set of
    the head of the first rule. *)
Theorem calculate_follow_shape (r0 : rule) (rest : list rule) :
  let grammar := r0 :: rest in
  ∃ terminals nonterminals nullable first follow,
    find_terminals_and_nonterminals grammar = (terminals, nonterminals) ∧
    calculate_nullable terminals nonterminals grammar = Ok nullable ∧
    calculate_first terminals nonterminals grammar nullable = Ok first ∧
    calculate_follow terminals nonterminals grammar nullable first
      = Ok follow ∧
    dom follow = nonterminals ∧
    (∀ t, t ∈ terminals → follow !! t = None) ∧
    (∀ B S, follow !! B = Some S → S ⊆ terminals ∪ {[EOF]}) ∧
    EOF ∈ follow !!! r0.1.
Proof.
  intros grammar.
  destruct (analysed_nonempty r0 rest) as (nullable & first & follow & sel & Han).
  fold grammar in Han.
  destruct (find_scoped grammar) as [_ Hdisj].
  exists (terminals_of grammar), (nonterminals_of grammar), nullable, first,
    follow.
  split; [by destruct (find_terminals_and_nonterminals grammar)|].
  split; [apply (an_nullable _ _ _ _ _ _ Han)|].
  split; [apply (an_first _ _ _ _ _ _ Han)|].
  split; [apply (an_follow _ _ _ _ _ _ Han)|].
  split; [apply (an_follow_dom _ _ _ _ _ _ Han)|].
  split.
  { intros t Ht. apply not_elem_of_dom.
    rewrite (an_follow_dom _ _ _ _ _ _ Han). set_solver. }
  split; [apply (an_follow_terminals _ _ _ _ _ _ Han)|].
  by destruct (an_follow_constraints _ _ _ _ _ _ Han) as [HEOF _].
Qed.

End FollowExtras.

(** ** The token lists the parser accepts *)

Module AcceptExtras.
Import Symbols Parser ParserFacts ParserExtras ParseTreeExtras.
Local Open Scope Z_scope.

(** The nesting depth of a tree. *)
Fixpoint height (tr : tree) : nat :=
  match tr with
  | Leaf _ => 0
  | Node _ children =>
      Datatypes.S
        ((fix go (cs : list tree) : nat :=
            match cs with
            | [] => 0%nat
            | c :: cs' => Nat.max (height c) (go cs')
            end) children)
  end.

(** The terminal of the first of the tokens [rest], [EOF] when there is
    none. *)
Definition next (rest : list token) : string :=
  (default (EOF, VStr EOF) (head rest)).1.

(** [self'] is [self] moved forward to where the tokens [rest] remain. *)
Definition moved (self self' : parser) (rest : list token) : Prop :=
  wf self' ∧ tokens self' = tokens self ∧
  drop (Z.to_nat (pos self')) (tokens self') = rest.

Lemma current_next (self : parser) (rest : list token) :
  wf self → drop (Z.to_nat (pos self)) (tokens self) = rest →
  t self = Some (next rest).
Proof.
  intros [_ ->] <-. unfold next, current. f_equal. f_equal. f_equal.
  by rewrite head_lookup, lookup_drop, Nat.add_0_r.
Qed.

Lemma get_t_next (self : parser) (rest : list token) :
  wf self → drop (Z.to_nat (pos self)) (tokens self) = rest →
  get_t self = Return (next rest) self.
Proof.
  intros Hwf Hdrop. unfold get_t. by rewrite (current_next _ _ Hwf Hdrop).
Qed.

Lemma match_moves (X : string) (v : pyval) (self : parser) (rest : list token) :
  wf self → drop (Z.to_nat (pos self)) (tokens self) = (X, v) :: rest →
  ∃ self', match_ X self = Return v self' ∧ moved self self' rest.
Proof.
  intros Hwf Hdrop. rewrite match_spec by done.
  assert (current (tokens self) (pos self) = (X, v)) as ->.
  { unfold current.
    assert (tokens self !! (Z.to_nat (pos self) + 0)%nat = Some (X, v)) as Hl
      by (by rewrite <-lookup_drop, Hdrop).
    rewrite Nat.add_0_r in Hl. by rewrite Hl. }
  simpl. rewrite decide_True by done. eexists. split; [done|].
  destruct Hwf as [Hpos _]. split_and!; simpl; [split; simpl; [lia|done]|done|].
  replace (Z.to_nat (pos self + 1)) with (Z.to_nat (pos self) + 1)%nat by lia.
  by rewrite <-drop_drop, Hdrop.
Qed.

(** *** The shapes of the parse trees *)

Definition symbols_terminal : list string :=
  [LB; RB; LS; RS; COMMA; COLON; STRING; INT].

Lemma tree_of_inv g A toks tr :
  tree_of g A toks tr →
  ∃ body cs, tr = Node A cs ∧ (A, body) ∈ g ∧ children_of g body toks cs.
Proof. inversion 1; subst. eauto. Qed.

Lemma children_nil_inv g toks cs :
  children_of g [] toks cs → toks = [] ∧ cs = [].
Proof. by inversion 1. Qed.

Lemma rule_head_not_terminal A body :
  (A, body) ∈ parser_grammar → A ∉ symbols_terminal.
Proof.
  intros Hr. unfold parser_grammar, Grammar.grammar_json_6 in Hr. simpl in Hr.
  repeat (apply elem_of_cons in Hr as [[= -> _]|Hr]; [compute_done|]).
  by apply elem_of_nil in Hr.
Qed.

Lemma children_leaf_inv X body toks cs :
  X ∈ symbols_terminal →
  children_of parser_grammar (X :: body) toks cs →
  ∃ v toks' cs', toks = (X, v) :: toks' ∧ cs = Leaf v :: cs' ∧
    children_of parser_grammar body toks' cs'.
Proof.
  intros HX. inversion 1 as [|? v ? toks' cs' _ Hcs|? c ? toks1 toks2 cs' Hc];
    subst.
  - exists v, toks', cs'. split_and!; [reflexivity|reflexivity|exact Hcs].
  - apply tree_of_inv in Hc as (body' & _ & _ & Hr & _).
    by apply rule_head_not_terminal in Hr.
Qed.

Lemma children_node_inv X body toks cs :
  X ∉ AnalysisFacts.terminals_of parser_grammar →
  children_of parser_grammar (X :: body) toks cs →
  ∃ c toks1 toks2 cs', toks = toks1 ++ toks2 ∧ cs = c :: cs' ∧
    tree_of parser_grammar X toks1 c ∧
    children_of parser_grammar body toks2 cs'.
Proof.
  intros HX.
  inversion 1 as [|? v ? toks' cs' HT|? c ? toks1 toks2 cs' Hc Hcs]; subst.
  - destruct (HX HT).
  - exists c, toks1, toks2, cs'.
    split_and!; [reflexivity|reflexivity|exact Hc|exact Hcs].
Qed.


Ltac children_cases H :=
  lazymatch type of H with
  | children_of _ [] _ _ => apply children_nil_inv in H as [-> ->]
  | children_of _ (?X :: _) _ _ =>
      first
        [ apply (children_leaf_inv X) in H as (? & ? & ? & -> & -> & H);
          [children_cases H | compute_done]
        | apply (children_node_inv X) in H as (? & ? & ? & ? & -> & -> & ? & H);
          [children_cases H | compute_done] ]
  end.

(** Every way a tree of a given symbol can be made: one case for each rule
    of the symbol. *)
Ltac tree_cases H :=
  let Hr := fresh "Hr" in
  let Hch := fresh "Hch" in
  apply tree_of_inv in H as (? & ? & -> & Hr & Hch);
  unfold parser_grammar, Grammar.grammar_json_6 in Hr; simpl in Hr;
  repeat (apply elem_of_cons in Hr as [Hr|Hr];
          [first [discriminate Hr | injection Hr as ->; children_cases Hch]|]);
  [..|by apply elem_of_nil in Hr].

(** The tokens of a tree start with a token whose terminal is one of [l]. *)
Definition starts (toks : list token) (l : list string) : Prop :=
  ∃ X v toks', toks = (X, v) :: toks' ∧ X ∈ l.

Lemma starts_app toks toks' l : starts toks l → starts (toks ++ toks') l.
Proof. intros (X & v & toks1 & -> & HX). by eexists _, _, _. Qed.

Lemma starts_cons X v toks l : X ∈ l → starts ((X, v) :: toks) l.
Proof. intros HX. by eexists _, _, _. Qed.

Lemma starts_mono toks l l' : l ⊆ l' → starts toks l → starts toks l'.
Proof. intros Hl (X & v & toks1 & -> & HX). eexists _, _, _. split; [done|]. by apply Hl. Qed.

Lemma starts_keyvalue toks tr :
  tree_of parser_grammar keyvalue toks tr → starts toks [STRING].
Proof. intros H. tree_cases H. apply starts_cons. compute_done. Qed.

Lemma starts_obj toks tr :
  tree_of parser_grammar obj toks tr → starts toks [LB; LS].
Proof. intros H. tree_cases H; apply starts_cons; compute_done. Qed.

Lemma starts_value toks tr :
  tree_of parser_grammar value toks tr → starts toks [STRING; INT; LB; LS].
Proof.
  intros H. tree_cases H; try (apply starts_cons; compute_done).
  rewrite app_nil_r. eapply starts_mono; [|by eapply starts_obj]. set_solver.
Qed.

Lemma starts_members_set toks tr :
  tree_of parser_grammar members_set toks tr → starts toks [STRING].
Proof. intros H. tree_cases H. apply starts_app. by eapply starts_keyvalue. Qed.

Lemma starts_members_arr toks tr :
  tree_of parser_grammar members_arr toks tr →
  starts toks [STRING; INT; LB; LS].
Proof. intros H. tree_cases H. apply starts_app. by eapply starts_value. Qed.


(** *** Running the methods on the tokens of a tree *)

Lemma moved_start (self : parser) :
  wf self → moved self self (drop (Z.to_nat (pos self)) (tokens self)).
Proof. by intros Hwf. Qed.

Lemma bindP_step {A B : Type} (m : parser → outcome A)
    (f : A → parser → outcome B) (self : parser) (a : A) (self1 : parser) :
  m self = Return a self1 → bindP m f self = f a self1.
Proof. intros Hm. unfold bindP. by rewrite Hm. Qed.

Lemma get_t_moved (self0 self : parser) (rest : list token) :
  moved self0 self rest → get_t self = Return (next rest) self.
Proof. intros (Hwf & _ & Hdrop). by apply get_t_next. Qed.

Lemma match_moved (self0 self : parser) (X : string) (v : pyval)
    (rest : list token) :
  moved self0 self ((X, v) :: rest) →
  ∃ self', match_ X self = Return v self' ∧ moved self0 self' rest.
Proof.
  intros (Hwf & Htok & Hdrop).
  destruct (match_moves X v self rest Hwf Hdrop)
    as (self' & Hm & Hwf' & Htok' & Hdrop').
  exists self'. split; [done|]. split_and!; [done|congruence|done].
Qed.

Lemma next_cons (X : string) (v : pyval) (rest : list token) :
  next ((X, v) :: rest) = X.
Proof. done. Qed.

(** A method that, started where the tokens of a tree of [A] come next,
    returns that tree and stops behind these tokens; [follow] is the terminal
    that has to come after them for the method to find its way. *)
Definition accepts (A : string) (follow : option string)
    (f : parser → outcome tree) (n : nat) : Prop :=
  ∀ self0 self toks rest tr,
    moved self0 self (toks ++ rest) →
    tree_of parser_grammar A toks tr → (height tr ≤ n)%nat →
    (∀ X, follow = Some X → next rest = X) →
    ∃ self', f self = Return tr self' ∧ moved self0 self' rest.

Ltac start_of H :=
  first
    [ apply starts_keyvalue in H | apply starts_obj in H
    | apply starts_value in H | apply starts_members_set in H
    | apply starts_members_arr in H ];
  destruct H as (? & ? & ? & -> & H);
  repeat (apply elem_of_cons in H as [->|H]); [..|by apply elem_of_nil in H].

Ltac guards :=
  repeat first
    [ rewrite decide_True by compute_done
    | rewrite decide_False by compute_done ].

Ltac accept_step Hmv Hfol :=
  lazymatch goal with
  | |- ∃ _, bindP get_t _ _ = _ ∧ _ =>
      rewrite (bindP_step _ _ _ _ _ (get_t_moved _ _ _ Hmv)); cbv beta;
      first [rewrite next_cons | rewrite (Hfol _ eq_refl)];
      guards
  | |- ∃ _, bindP (match_ ?X) _ _ = _ ∧ _ =>
      let Hm := fresh "Hm" in
      apply match_moved in Hmv as (? & Hm & Hmv);
      rewrite (bindP_step _ _ _ _ _ Hm); cbv beta; clear Hm
  | |- ∃ _, retP _ _ = _ ∧ _ => eexists; split; [reflexivity|exact Hmv]
  end.

Ltac accept_call IH Hc Hmv Hfol :=
  let Hm := fresh "Hm" in
  let Hmv' := fresh "Hmv" in
  lazymatch type of Hc with
  | tree_of _ _ ?toks ?c =>
      destruct (IH _ _ toks _ c Hmv Hc) as (? & Hm & Hmv');
      [ lia
      | first [exact Hfol | by intros ? [= <-] | by intros ? [=]]
      | rewrite (bindP_step _ _ _ _ _ Hm); cbv beta; clear Hm Hmv;
        rename Hmv' into Hmv ]
  end.


Ltac normalise Hmv :=
  rewrite ?app_nil_r, <-?(assoc_L (++)) in Hmv; simpl in Hmv.

Ltac first_token Hmv :=
  try lazymatch type of Hmv with
  | moved _ _ (?toks ++ _) =>
      match goal with
      | Hc : tree_of _ _ toks _ |- _ =>
          let H' := fresh in pose proof Hc as H'; start_of H'; simpl in Hmv
      end
  end.

Ltac accept Hmv Hfol :=
  repeat first
    [ accept_step Hmv Hfol
    | match goal with
      | IH : accepts ?A _ ?f _, Hc : tree_of _ ?A _ _
        |- ∃ _, bindP ?f _ _ = _ ∧ _ => accept_call IH Hc Hmv Hfol
      end ].

Lemma parse_methods_accept (n : nat) :
  accepts keyvalue None (parse_keyvalue n) n ∧
  accepts obj None (parse_obj n) n ∧
  accepts obj_right_set None (parse_obj_right_set n) n ∧
  accepts obj_right_arr None (parse_obj_right_arr n) n ∧
  accepts members_set (Some RB) (parse_members_set n) n ∧
  accepts members_arr (Some RS) (parse_members_arr n) n ∧
  accepts members_right_set (Some RB) (parse_members_right_set n) n ∧
  accepts members_right_arr (Some RS) (parse_members_right_arr n) n ∧
  accepts value None (parse_value n) n.
Proof.
  induction n as [|n (IH1 & IH2 & IH3 & IH4 & IH5 & IH6 & IH7 & IH8 & IH9)].
  { split_and!; intros self0 self toks rest tr _ Htree Hh;
      apply tree_of_inv in Htree as (? & ? & -> & _); simpl in Hh; lia. }
  split_and!; intros self0 self toks rest tr Hmv Htree Hh Hfol;
    tree_cases Htree; simpl in Hh; normalise Hmv; first_token Hmv; simpl;
    accept Hmv Hfol.
Qed.

Lemma before_EOF_split (tokens : list token) :
  ∃ rest, tokens = before_EOF tokens ++ rest ∧ next rest = EOF.
Proof.
  induction tokens as [|tok tokens (rest & IH & Hrest)]; [by exists []|].
  simpl. case_decide as Htok.
  - by exists (tok :: tokens).
  - exists rest. split; [|done]. simpl. by rewrite <-IH.
Qed.

(** X19: the parser accepts every token list that its grammar derives: when
    the tokens before the first [EOF] token have a parse tree from [obj],
    [JsonParser(tokens).parse()] returns that tree. *)
Theorem JsonParser_parse_accepts (tokens : list token) (tr : tree)
    (fuel : nat) :
  tree_of parser_grammar obj (before_EOF tokens) tr →
  (4 * length tokens + 1 ≤ fuel)%nat →
  ∃ self', JsonParser_parse fuel tokens = Return tr self'.
Proof.
  intros Htree Hfuel.
  destruct (before_EOF_split tokens) as (rest & Htokens & Hrest).
  assert (∃ self', JsonParser_parse (height tr) tokens = Return tr self')
    as [self' Hparse].
  { unfold JsonParser_parse. destruct tokens as [|tok rest0].
    { apply starts_obj in Htree as (? & ? & ? & [=] & _). }
    rewrite Parser_init_nonempty. set (tokens := tok :: rest0) in *.
    set (self0 := mkParser tokens 0 (Some tok.1)).
    assert (moved self0 self0 (before_EOF tokens ++ rest)) as Hmv.
    { rewrite <-Htokens. by apply (moved_start self0). }
    destruct (parse_methods_accept (height tr)) as (_ & Hobj & _).
    destruct (Hobj self0 self0 _ rest tr Hmv Htree) as (self1 & Hm & Hmv1);
      [done|done|].
    unfold parse. rewrite (bindP_step _ _ _ _ _ Hm).
    destruct Hmv1 as (Hwf1 & _ & Hdrop1).
    pose proof (current_next _ _ Hwf1 Hdrop1) as Ht.
    destruct Hwf1 as [Hpos1 Ht1]. rewrite Ht1, Hrest in Ht.
    injection Ht as Ht. unfold bindP. rewrite match_spec by done.
    rewrite decide_True by done. by eexists. }
  exists self'.
  destruct (decide (height tr ≤ fuel)%nat) as [Hle|Hgt].
  - destruct (JsonParser_parse_below _ _ tokens Hle) as [Hd|Heq];
      congruence.
  - destruct (JsonParser_parse_below fuel (height tr) tokens) as [Hd|Heq];
      [lia| |congruence].
    by apply JsonParser_parse_finishes in Hd.
Qed.

Lemma JsonParser_parse_accepts_witness :
  ∃ self',
    JsonParser_parse 9 [(LB, VStr "{"); (RB, VStr "}")] =
    Return (Node obj [Leaf (VStr "{"); Node obj_right_set [Leaf (VStr "}")]])
      self'.
Proof.
  apply (JsonParser_parse_accepts [(LB, VStr "{"); (RB, VStr "}")]); [|simpl; lia].
  simpl.
  apply (tree_of_node _ obj [LB; obj_right_set]); [compute_done|].
  apply children_leaf; [compute_done|].
  apply (children_node _ obj_right_set _ _ [(RB, VStr "}")] []);
    [|apply children_nil].
  apply (tree_of_node _ obj_right_set [RB]); [compute_done|].
  apply children_leaf; [compute_done|]. apply children_nil.
Defined.

End AcceptExtras.
